(** * Musicpi: the polling-loop music player (Main.py)

    A shallow embedding of the control program of the appliance: the
    rotary-encoder decoder and the multi-press button recogniser of
    [check_encoder], the playback operations [play_pause] and
    [skip_track], the title renderer of [display_update], the fuel-gauge
    reader [read_battery], the catalog loader [load_music] and one
    iteration of the loop of [main].

    Conventions of the embedding.
    - Python integers are [Z]; [%] on a positive modulus is [Z.modulo]
      (both give a result in [[0, n)]).
    - Python floats (the volume, every [time.time()] reading) are exact
      rationals [Q]; comparisons are the boolean tests below.  Rounding of
      binary64 arithmetic is therefore not part of the model.
    - The module globals are the fields of [State], under their source
      names.  Three fields stand for the outside world: [clock] (what
      [time.time()] returns; only [time.sleep] advances it), [mixer_volume]
      (the volume last handed to [pygame.mixer.music.set_volume]) and [log]
      (the external calls and the marker prints, oldest first).  The time
      spent outside [time.sleep] (bus transfers, drawing) is taken as zero.
    - What the program reads from the outside in one call of
      [check_encoder] / one loop iteration is a record [Env].
    - A Python [str] is a [string], indexed character by character; the
      characters of a track name are taken to be one byte each. *)

From Stdlib Require Import ZArith QArith Lqa Lia List String Ascii Bool.
From Stdlib Require Import PrimFloat.
From Stdlib Require Import Sorted Permutation Qround Qfield.
Import ListNotations.

Set Warnings "-inexact-float".

Local Open Scope Z_scope.

(** ** Python primitives *)

(** [x < y] on floats. *)
Definition Qltb (x y : Q) : bool := negb (Qle_bool y x).

(** [min(a, b)]: Python returns [b] only when [b < a]. *)
Definition py_min (a b : Q) : Q := if Qltb b a then b else a.

(** [max(a, b)]: Python returns [b] only when [b > a]. *)
Definition py_max (a b : Q) : Q := if Qltb a b then b else a.

(** [int(x)]: truncation towards zero. *)
Definition py_int (x : Q) : Z := Z.quot (Qnum x) (Zpos (Qden x)).

(** [len(s)] of a string. *)
Definition len (s : string) : Z := Z.of_nat (String.length s).

(** [s[i]] as a one-character string, for [0 <= i < len(s)].  (Python
    raises [IndexError] past the end; every index below is reduced modulo
    [len(s)] first.) *)
Definition char_at (s : string) (i : Z) : string :=
  match String.get (Z.to_nat i) s with
  | Some c => String c EmptyString
  | None => EmptyString
  end.

(** [os.path.join(dir, name)] for a plain file name. *)
Definition path_join (dir name : string) : string :=
  (dir ++ "/" ++ name)%string.

(** Equality of two sampled [(a, b)] tuples. *)
Definition pair_eqb (x y : Z * Z) : bool :=
  (fst x =? fst y) && (snd x =? snd y).

(** ** Configuration *)

Definition MUSIC_DIR : string := "/home/Music".
Definition OLED_WIDTH : Z := 128.
Definition OLED_HEIGHT : Z := 32.
Definition I2C_ADDR : Z := 54.      (* 0x36 *)
Definition REG_VOLTAGE : Z := 2.
Definition REG_CAPACITY : Z := 4.

(** ** Observable effects *)

(** What [display_update] draws before the frame is flipped and shown:
    the title text, the battery percentage, the play/pause glyph and the
    number after "Vol:". *)
Record Frame : Type := mkFrame {
  frame_title : string;
  frame_percent : Q;
  frame_playing : bool;
  frame_volume : Z
}.

(** External calls, and the prints that mark a decoded event or a call. *)
Inductive Effect : Type :=
  | PrintClockwise (count : Z)          (* "Complete clockwise cycle detected" *)
  | PrintCounterClockwise (count : Z)   (* "Complete counter-clockwise cycle detected" *)
  | PrintPlayPauseCalled                (* "Play/Pause function called" *)
  | PrintSkipCalled (forward : bool)    (* "Skip track {direction} called" *)
  | PrintAutoAdvance                    (* "Current track ended, auto-advancing ..." *)
  | PrintError (origin : string)        (* a "DEBUG ERROR: ..." print of an except branch *)
  | MixerSetVolume (v : Q)              (* pygame.mixer.music.set_volume(v) *)
  | MixerLoad (path : string)           (* pygame.mixer.music.load(path) *)
  | MixerPlay
  | MixerPause
  | MixerUnpause
  | OledShow (f : Frame)                (* oled.image(...); oled.show() *)
  | ExtractAlbumArt (path : option string)
  | EinkUpdate (path : string).         (* update_display.update_display(path) *)

(** ** The globals *)

Record State : Type := mkState {
  selected : Z;
  playing : bool;
  songs : list string;
  last_battery_update : Q;
  last_a : Z;
  last_b : Z;
  last_sw : Z;
  current_volume : Q;
  encoder_count : Z;
  last_press_time : Q;
  press_count : Z;
  last_states : list (Z * Z);
  current_song_path : option string;
  last_display_update : Q;
  last_eink_update : Q;
  scroll_position : Z;
  last_scroll_time : Q;
  scroll_update_count : Z;
  last_art_update : Q;
  clock : Q;
  mixer_volume : Q;
  log : list Effect
}.

Definition set_selected (v : Z) (s : State) : State :=
  mkState v (playing s) (songs s) (last_battery_update s) (last_a s)
    (last_b s) (last_sw s) (current_volume s) (encoder_count s)
    (last_press_time s) (press_count s) (last_states s)
    (current_song_path s) (last_display_update s) (last_eink_update s)
    (scroll_position s) (last_scroll_time s) (scroll_update_count s)
    (last_art_update s) (clock s) (mixer_volume s) (log s).

Definition set_playing (v : bool) (s : State) : State :=
  mkState (selected s) v (songs s) (last_battery_update s) (last_a s)
    (last_b s) (last_sw s) (current_volume s) (encoder_count s)
    (last_press_time s) (press_count s) (last_states s)
    (current_song_path s) (last_display_update s) (last_eink_update s)
    (scroll_position s) (last_scroll_time s) (scroll_update_count s)
    (last_art_update s) (clock s) (mixer_volume s) (log s).

Definition set_last_battery_update (v : Q) (s : State) : State :=
  mkState (selected s) (playing s) (songs s) v (last_a s) (last_b s)
    (last_sw s) (current_volume s) (encoder_count s) (last_press_time s)
    (press_count s) (last_states s) (current_song_path s)
    (last_display_update s) (last_eink_update s) (scroll_position s)
    (last_scroll_time s) (scroll_update_count s) (last_art_update s)
    (clock s) (mixer_volume s) (log s).

Definition set_last_a (v : Z) (s : State) : State :=
  mkState (selected s) (playing s) (songs s) (last_battery_update s) v
    (last_b s) (last_sw s) (current_volume s) (encoder_count s)
    (last_press_time s) (press_count s) (last_states s)
    (current_song_path s) (last_display_update s) (last_eink_update s)
    (scroll_position s) (last_scroll_time s) (scroll_update_count s)
    (last_art_update s) (clock s) (mixer_volume s) (log s).

Definition set_last_b (v : Z) (s : State) : State :=
  mkState (selected s) (playing s) (songs s) (last_battery_update s)
    (last_a s) v (last_sw s) (current_volume s) (encoder_count s)
    (last_press_time s) (press_count s) (last_states s)
    (current_song_path s) (last_display_update s) (last_eink_update s)
    (scroll_position s) (last_scroll_time s) (scroll_update_count s)
    (last_art_update s) (clock s) (mixer_volume s) (log s).

Definition set_last_sw (v : Z) (s : State) : State :=
  mkState (selected s) (playing s) (songs s) (last_battery_update s)
    (last_a s) (last_b s) v (current_volume s) (encoder_count s)
    (last_press_time s) (press_count s) (last_states s)
    (current_song_path s) (last_display_update s) (last_eink_update s)
    (scroll_position s) (last_scroll_time s) (scroll_update_count s)
    (last_art_update s) (clock s) (mixer_volume s) (log s).

Definition set_current_volume (v : Q) (s : State) : State :=
  mkState (selected s) (playing s) (songs s) (last_battery_update s)
    (last_a s) (last_b s) (last_sw s) v (encoder_count s)
    (last_press_time s) (press_count s) (last_states s)
    (current_song_path s) (last_display_update s) (last_eink_update s)
    (scroll_position s) (last_scroll_time s) (scroll_update_count s)
    (last_art_update s) (clock s) (mixer_volume s) (log s).

Definition set_encoder_count (v : Z) (s : State) : State :=
  mkState (selected s) (playing s) (songs s) (last_battery_update s)
    (last_a s) (last_b s) (last_sw s) (current_volume s) v
    (last_press_time s) (press_count s) (last_states s)
    (current_song_path s) (last_display_update s) (last_eink_update s)
    (scroll_position s) (last_scroll_time s) (scroll_update_count s)
    (last_art_update s) (clock s) (mixer_volume s) (log s).

Definition set_last_press_time (v : Q) (s : State) : State :=
  mkState (selected s) (playing s) (songs s) (last_battery_update s)
    (last_a s) (last_b s) (last_sw s) (current_volume s) (encoder_count s) v
    (press_count s) (last_states s) (current_song_path s)
    (last_display_update s) (last_eink_update s) (scroll_position s)
    (last_scroll_time s) (scroll_update_count s) (last_art_update s)
    (clock s) (mixer_volume s) (log s).

Definition set_press_count (v : Z) (s : State) : State :=
  mkState (selected s) (playing s) (songs s) (last_battery_update s)
    (last_a s) (last_b s) (last_sw s) (current_volume s) (encoder_count s)
    (last_press_time s) v (last_states s) (current_song_path s)
    (last_display_update s) (last_eink_update s) (scroll_position s)
    (last_scroll_time s) (scroll_update_count s) (last_art_update s)
    (clock s) (mixer_volume s) (log s).

Definition set_last_states (v : list (Z * Z)) (s : State) : State :=
  mkState (selected s) (playing s) (songs s) (last_battery_update s)
    (last_a s) (last_b s) (last_sw s) (current_volume s) (encoder_count s)
    (last_press_time s) (press_count s) v (current_song_path s)
    (last_display_update s) (last_eink_update s) (scroll_position s)
    (last_scroll_time s) (scroll_update_count s) (last_art_update s)
    (clock s) (mixer_volume s) (log s).

Definition set_current_song_path (v : option string) (s : State) : State :=
  mkState (selected s) (playing s) (songs s) (last_battery_update s)
    (last_a s) (last_b s) (last_sw s) (current_volume s) (encoder_count s)
    (last_press_time s) (press_count s) (last_states s) v
    (last_display_update s) (last_eink_update s) (scroll_position s)
    (last_scroll_time s) (scroll_update_count s) (last_art_update s)
    (clock s) (mixer_volume s) (log s).

Definition set_last_display_update (v : Q) (s : State) : State :=
  mkState (selected s) (playing s) (songs s) (last_battery_update s)
    (last_a s) (last_b s) (last_sw s) (current_volume s) (encoder_count s)
    (last_press_time s) (press_count s) (last_states s)
    (current_song_path s) v (last_eink_update s) (scroll_position s)
    (last_scroll_time s) (scroll_update_count s) (last_art_update s)
    (clock s) (mixer_volume s) (log s).

Definition set_last_eink_update (v : Q) (s : State) : State :=
  mkState (selected s) (playing s) (songs s) (last_battery_update s)
    (last_a s) (last_b s) (last_sw s) (current_volume s) (encoder_count s)
    (last_press_time s) (press_count s) (last_states s)
    (current_song_path s) (last_display_update s) v (scroll_position s)
    (last_scroll_time s) (scroll_update_count s) (last_art_update s)
    (clock s) (mixer_volume s) (log s).

Definition set_scroll_position (v : Z) (s : State) : State :=
  mkState (selected s) (playing s) (songs s) (last_battery_update s)
    (last_a s) (last_b s) (last_sw s) (current_volume s) (encoder_count s)
    (last_press_time s) (press_count s) (last_states s)
    (current_song_path s) (last_display_update s) (last_eink_update s) v
    (last_scroll_time s) (scroll_update_count s) (last_art_update s)
    (clock s) (mixer_volume s) (log s).

Definition set_last_scroll_time (v : Q) (s : State) : State :=
  mkState (selected s) (playing s) (songs s) (last_battery_update s)
    (last_a s) (last_b s) (last_sw s) (current_volume s) (encoder_count s)
    (last_press_time s) (press_count s) (last_states s)
    (current_song_path s) (last_display_update s) (last_eink_update s)
    (scroll_position s) v (scroll_update_count s) (last_art_update s)
    (clock s) (mixer_volume s) (log s).

Definition set_scroll_update_count (v : Z) (s : State) : State :=
  mkState (selected s) (playing s) (songs s) (last_battery_update s)
    (last_a s) (last_b s) (last_sw s) (current_volume s) (encoder_count s)
    (last_press_time s) (press_count s) (last_states s)
    (current_song_path s) (last_display_update s) (last_eink_update s)
    (scroll_position s) (last_scroll_time s) v (last_art_update s) (clock s)
    (mixer_volume s) (log s).

Definition set_last_art_update (v : Q) (s : State) : State :=
  mkState (selected s) (playing s) (songs s) (last_battery_update s)
    (last_a s) (last_b s) (last_sw s) (current_volume s) (encoder_count s)
    (last_press_time s) (press_count s) (last_states s)
    (current_song_path s) (last_display_update s) (last_eink_update s)
    (scroll_position s) (last_scroll_time s) (scroll_update_count s) v
    (clock s) (mixer_volume s) (log s).

Definition set_clock (v : Q) (s : State) : State :=
  mkState (selected s) (playing s) (songs s) (last_battery_update s)
    (last_a s) (last_b s) (last_sw s) (current_volume s) (encoder_count s)
    (last_press_time s) (press_count s) (last_states s)
    (current_song_path s) (last_display_update s) (last_eink_update s)
    (scroll_position s) (last_scroll_time s) (scroll_update_count s)
    (last_art_update s) v (mixer_volume s) (log s).

Definition set_mixer_volume (v : Q) (s : State) : State :=
  mkState (selected s) (playing s) (songs s) (last_battery_update s)
    (last_a s) (last_b s) (last_sw s) (current_volume s) (encoder_count s)
    (last_press_time s) (press_count s) (last_states s)
    (current_song_path s) (last_display_update s) (last_eink_update s)
    (scroll_position s) (last_scroll_time s) (scroll_update_count s)
    (last_art_update s) (clock s) v (log s).

Definition set_log (v : list Effect) (s : State) : State :=
  mkState (selected s) (playing s) (songs s) (last_battery_update s)
    (last_a s) (last_b s) (last_sw s) (current_volume s) (encoder_count s)
    (last_press_time s) (press_count s) (last_states s)
    (current_song_path s) (last_display_update s) (last_eink_update s)
    (scroll_position s) (last_scroll_time s) (scroll_update_count s)
    (last_art_update s) (clock s) (mixer_volume s) v.

Definition emit (e : Effect) (s : State) : State := set_log (log s ++ [e]) s.

(** [time.sleep(d)]. *)
Definition sleep (d : Q) (s : State) : State := set_clock (clock s + d)%Q s.

(** [songs[selected]].  [selected] is only ever assigned a value reduced
    modulo [len(songs)], so the index is in range. *)
Definition song_at (s : State) : string :=
  nth (Z.to_nat (selected s)) (songs s) EmptyString.

(** ** What one call reads from the outside *)

Record Env : Type := mkEnv {
  gpio_a : Z;                            (* GPIO.input(PIN_A) *)
  gpio_b : Z;                            (* GPIO.input(PIN_B) *)
  gpio_sw : Z;                           (* GPIO.input(SW), line 261 *)
  gpio_sw_window : list Z;               (* GPIO.input(SW) at line 338, in order *)
  read_word_data : Z -> Z -> option Z;   (* bus.read_word_data; None = it raises *)
  textlength : string -> Q;              (* draw.textlength(track, font) *)
  oled_ok : bool;                        (* drawing and oled.show() do not raise *)
  load_ok : bool;                        (* pygame.mixer.music.load does not raise *)
  busy_at_toggle : bool;                 (* get_busy() inside play_pause *)
  busy_at_poll : bool;                   (* get_busy() in the loop of main *)
  eink_ok : bool                         (* update_display returns True *)
}.

(** ** read_battery (lines 120-135) *)

(** [((raw << 8) & 0xFF00) + (raw >> 8)] *)
Definition swap_word (raw : Z) : Z :=
  Z.land (Z.shiftl raw 8) 65280 + Z.shiftr raw 8.

(** [raw * 1.25 / 1000 / 16] *)
Definition voltage_of (raw : Z) : Q := (inject_Z raw * 1.25 / 1000 / 16)%Q.

(** [raw / 256] (true division) *)
Definition percent_of (raw : Z) : Q := (inject_Z raw / 256)%Q.

(** The value returned, and the state after the print of the except
    branch.  Either read raising ends in the same handler. *)
Definition read_battery (env : Env) (s : State) : (Q * Q) * State :=
  match read_word_data env I2C_ADDR REG_VOLTAGE with
  | Some raw =>
      let raw := swap_word raw in
      let voltage := voltage_of raw in
      match read_word_data env I2C_ADDR REG_CAPACITY with
      | Some raw =>
          let raw := swap_word raw in
          let percent := percent_of raw in
          ((voltage, percent), s)
      | None => ((0.0, 0.0)%Q, emit (PrintError "Battery reading failed") s)
      end
  | None => ((0.0, 0.0)%Q, emit (PrintError "Battery reading failed") s)
  end.

(** ** display_update (lines 174-245) *)

(** Lines 178-181. *)
Definition count_update (s : State) : State :=
  let s := set_scroll_update_count (scroll_update_count s + 1) s in
  if scroll_update_count s mod 10 =? 0
  then set_scroll_update_count 0 s else s.

(** Lines 184-188: the percentage that will be drawn. *)
Definition sample_battery (env : Env) (s : State) : Q * State :=
  if Qltb 0 (clock s - last_battery_update s) then
    let '(reading, s) := read_battery env s in
    (snd reading, set_last_battery_update (clock s) s)
  else (0.0%Q, s).

(** Lines 214-217: the loop [for i in range(15)] building [display_text]. *)
Definition scroll_text (track : string) (position : Z) : string :=
  fold_left
    (fun display_text i =>
       let char_pos := (position + Z.of_nat i) mod len track in
       (display_text ++ char_at track char_pos)%string)
    (seq 0 15) EmptyString.

(** Lines 205-222: the title that is drawn, with the scroll state it
    leaves.  [None] is the [ZeroDivisionError] of [% len(track)] on an
    empty name, which the enclosing [try] catches. *)
Definition render_title (env : Env) (track : string) (s : State)
  : option (string * State) :=
  if Qltb (inject_Z (OLED_WIDTH - 30)) (textlength env track) then
    if len track =? 0 then None
    else
      let current_time := clock s in
      let s := if Qltb 0.3 (current_time - last_scroll_time s) then
                 let s := set_scroll_position
                            ((scroll_position s + 1) mod len track) s in
                 set_last_scroll_time current_time s
               else s in
      Some (scroll_text track (scroll_position s), s)
  else Some (track, s).

(** Lines 240-242; [display_update.last_art_update] exists from line 248 on. *)
Definition refresh_art (s : State) : State :=
  if Qltb 5 (clock s - last_art_update s) then
    set_last_art_update (clock s)
      (emit (ExtractAlbumArt (current_song_path s)) s)
  else s.

(** Lines 190-245: the [try] block; any exception in it ends in the print
    of line 245. *)
Definition draw_frame (env : Env) (percent : Q) (s : State) : State :=
  let track := song_at s in
  match render_title env track s with
  | Some (title, s) =>
      if oled_ok env then
        let frame := mkFrame title percent (playing s)
                       (py_int (current_volume s * 100)) in
        refresh_art (emit (OledShow frame) s)
      else emit (PrintError "Display update failed") s
  | None => emit (PrintError "Display update failed") s
  end.

Definition display_update (env : Env) (s : State) : State :=
  let s := count_update s in
  let s := set_current_song_path (Some (path_join MUSIC_DIR (song_at s))) s in
  let '(percent, s) := sample_battery env s in
  draw_frame env percent s.

(** ** play_pause (lines 366-388) *)

Definition play_pause (env : Env) (s : State) : State :=
  let s := emit PrintPlayPauseCalled s in
  if playing s then
    let s := emit MixerPause s in
    let s := set_playing (negb (playing s)) s in
    display_update env s
  else if negb (busy_at_toggle env) then
    let s := set_current_song_path
               (Some (path_join MUSIC_DIR (song_at s))) s in
    let song_path := path_join MUSIC_DIR (song_at s) in
    if load_ok env then
      let s := emit (MixerLoad song_path) s in
      let s := emit MixerPlay s in
      let s := emit (ExtractAlbumArt (current_song_path s)) s in
      let s := set_playing (negb (playing s)) s in
      display_update env s
    else emit (PrintError "Play/Pause failed") s
  else
    let s := emit MixerUnpause s in
    let s := set_playing (negb (playing s)) s in
    display_update env s.

(** ** skip_track (lines 390-414) *)

(** Lines 396-401: the new selection.  [None] is the [ZeroDivisionError]
    of [% len(songs)] on an empty catalog, raised after [scroll_position]
    has been reset. *)
Definition skip_select (forward : bool) (s : State) : option State :=
  let s := set_scroll_position 0 s in
  if Z.of_nat (List.length (songs s)) =? 0 then None
  else if forward then
    Some (set_selected
            ((selected s + 1) mod Z.of_nat (List.length (songs s))) s)
  else
    Some (set_selected
            ((selected s - 1) mod Z.of_nat (List.length (songs s))) s).

Definition skip_track (env : Env) (forward : bool) (s : State) : State :=
  let s := emit (PrintSkipCalled forward) s in
  match skip_select forward s with
  | Some s =>
      if playing s then
        let s := set_current_song_path
                   (Some (path_join MUSIC_DIR (song_at s))) s in
        let song_path := path_join MUSIC_DIR (song_at s) in
        if load_ok env then
          let s := emit (MixerLoad song_path) s in
          let s := emit MixerPlay s in
          let s := display_update env s in
          emit (ExtractAlbumArt (current_song_path s)) s
        else emit (PrintError "Skip track failed") s
      else
        let s := display_update env s in
        emit (ExtractAlbumArt (current_song_path s)) s
  | None => emit (PrintError "Skip track failed") (set_scroll_position 0 s)
  end.

(** ** check_encoder (lines 250-364) *)

(** Lines 285-292: what a clockwise step does.  ([songs] is not empty
    here: [load_music] exits on an empty catalog.) *)
Definition dispatch_clockwise (s : State) : State :=
  if playing s then
    let s := set_current_volume (py_min 1.0 (current_volume s + 0.01)) s in
    let s := emit (MixerSetVolume (current_volume s / 2)) s in
    set_mixer_volume (current_volume s / 2) s
  else
    let s := set_scroll_position 0 s in
    set_selected ((selected s + 1) mod Z.of_nat (List.length (songs s))) s.

(** Lines 305-312: what a counter-clockwise step does. *)
Definition dispatch_counter_clockwise (s : State) : State :=
  if playing s then
    let s := set_current_volume (py_max 0.0 (current_volume s - 0.01)) s in
    let s := emit (MixerSetVolume (current_volume s / 2)) s in
    set_mixer_volume (current_volume s / 2) s
  else
    let s := set_scroll_position 0 s in
    set_selected ((selected s - 1) mod Z.of_nat (List.length (songs s))) s.

(** Lines 267-272: the sampled pair joins the history, which keeps its
    last two entries. *)
Definition record_state (a b : Z) (s : State) : State :=
  let current_state := (a, b) in
  let s := set_last_states (last_states s ++ [current_state]) s in
  if 2 <? Z.of_nat (List.length (last_states s))
  then set_last_states (tl (last_states s)) s
  else s.

(** Lines 277-316: the history is matched against the two patterns. *)
Definition decode_rotation (env : Env) (s : State) : State :=
  if Z.of_nat (List.length (last_states s)) =? 2 then
    if pair_eqb (nth 0 (last_states s) (0, 0)) (1, 1)
       && pair_eqb (nth 1 (last_states s) (0, 0)) (1, 0) then
      let s := set_encoder_count (encoder_count s + 1) s in
      let s := emit (PrintClockwise (encoder_count s)) s in
      let s := dispatch_clockwise s in
      let s := display_update env s in
      set_last_states [last (last_states s) (0, 0)] s
    else if pair_eqb (nth 0 (last_states s) (0, 0)) (1, 1)
            && pair_eqb (nth 1 (last_states s) (0, 0)) (0, 1) then
      let s := set_encoder_count (encoder_count s + 1) s in
      let s := emit (PrintCounterClockwise (encoder_count s)) s in
      let s := dispatch_counter_clockwise s in
      let s := display_update env s in
      set_last_states [last (last_states s) (0, 0)] s
    else s
  else s.

(** Lines 265-316. *)
Definition encoder_rotation (env : Env) (s : State) : State :=
  let a := gpio_a env in
  let b := gpio_b env in
  if negb (a =? last_a s) || negb (b =? last_b s)
  then decode_rotation env (record_state a b s)
  else s.

(** Lines 322-328: a press seen by the tick is counted. *)
Definition register_press (current_time : Q) (s : State) : State :=
  let s := if Qltb 1.5 (current_time - last_press_time s)
           then set_press_count 0 s else s in
  let s := set_press_count (press_count s + 1) s in
  set_last_press_time current_time s.

(** Lines 336-346: one pass through the body of the collection loop,
    reading [new_sw]; the result carries the (possibly restarted) timer. *)
Definition collect_body (new_sw : Z) (timer_start : Q) (s : State)
  : State * Q :=
  let s := sleep 0.18 s in
  let '(s, timer_start) :=
    if (new_sw =? 0) && (last_sw s =? 1) then
      let s := set_press_count (press_count s + 1) s in
      let s := set_last_press_time (clock s) s in
      (s, clock s)
    else (s, timer_start) in
  let s := set_last_sw new_sw s in
  (sleep 0.05 s, timer_start).

(** Lines 335-346: [while time.time() - timer_start < 0.8].  The samples
    of the button line come from the list; [None] means the list ended
    while the loop still wanted to read (nothing the program does). *)
Fixpoint collect_presses (samples : list Z) (timer_start : Q) (s : State)
  : option (State * Q) :=
  if Qltb (clock s - timer_start) 0.8 then
    match samples with
    | [] => None
    | new_sw :: samples =>
        let '(s, timer_start) := collect_body new_sw timer_start s in
        collect_presses samples timer_start s
    end
  else Some (s, timer_start).

(** Lines 349-360: the collected presses are acted on. *)
Definition process_presses (env : Env) (s : State) : State :=
  let s :=
    if press_count s =? 1 then play_pause env s
    else if (press_count s =? 2) && playing s then skip_track env true s
    else if (press_count s =? 3) && playing s then skip_track env false s
    else s in
  set_press_count 0 s.

(** Lines 319-361. *)
Definition encoder_button (env : Env) (current_time : Q) (s : State)
  : option State :=
  let sw := gpio_sw env in
  if (sw =? 0) && (last_sw s =? 1) then
    let s := register_press current_time s in
    if press_count s =? 1 then
      let timer_start := clock s in
      match collect_presses (gpio_sw_window env) timer_start s with
      | Some (s, _) => Some (process_presses env s)
      | None => None
      end
    else Some s
  else Some s.

Definition check_encoder (env : Env) (s : State) : option State :=
  let a := gpio_a env in
  let b := gpio_b env in
  let sw := gpio_sw env in
  let current_time := clock s in
  let s := encoder_rotation env s in
  match encoder_button env current_time s with
  | Some s => Some (set_last_sw sw (set_last_b b (set_last_a a s)))
  | None => None
  end.

(** ** main (lines 416-472) *)

(** [update_display.update_display(path)]: the e-ink refresh, which ends
    with [time.sleep(2)] when nothing raised. *)
Definition eink_update (env : Env) (path : string) (s : State) : State :=
  let s := emit (EinkUpdate path) s in
  if eink_ok env then sleep 2 s else s.

(** Lines 424-434, after [load_music] has filled [songs]. *)
Definition main_init (env : Env) (s : State) : State :=
  let s := emit (MixerSetVolume (current_volume s / 2)) s in
  let s := set_mixer_volume (current_volume s / 2) s in
  let s := display_update env s in
  let s := set_last_display_update (clock s) s in
  set_last_eink_update (clock s) s.

(** Lines 439-461: one iteration of [while True]. *)
Definition main_iteration (env : Env) (s : State) : option State :=
  match check_encoder env s with
  | Some s =>
      let s := if playing s && negb (busy_at_poll env)
               then skip_track env true (emit PrintAutoAdvance s)
               else s in
      let current_time := clock s in
      let s := if Qle_bool 0.1 (current_time - last_display_update s)
               then set_last_display_update current_time (display_update env s)
               else s in
      let s := if Qle_bool 210 (current_time - last_eink_update s)
               then set_last_eink_update current_time
                      (eink_update env "/tmp/current_cover.jpg" s)
               else s in
      Some (sleep 0.01 s)
  | None => None
  end.

(** The loop fed with one [Env] per iteration. *)
Fixpoint main_loop (envs : list Env) (s : State) : option State :=
  match envs with
  | [] => Some s
  | env :: envs =>
      match main_iteration env s with
      | Some s => main_loop envs s
      | None => None
      end
  end.

(** The globals as lines 89-109 and 248 leave them, for the catalog that
    [load_music] finds and the pin levels read at start-up; [last_states]
    is the empty list that the first call of [check_encoder] creates, and
    nothing has been handed to the mixer yet. *)
Definition initial_state (catalog : list string) (a b sw : Z) (now : Q)
  : State :=
  {| selected := 0;
     playing := false;
     songs := catalog;
     last_battery_update := 0;
     last_a := a;
     last_b := b;
     last_sw := sw;
     current_volume := 0.02;
     encoder_count := 0;
     last_press_time := 0;
     press_count := 0;
     last_states := [];
     current_song_path := None;
     last_display_update := 0;
     last_eink_update := 0;
     scroll_position := 0;
     last_scroll_time := 0;
     scroll_update_count := 0;
     last_art_update := 0;
     clock := now;
     mixer_volume := 0;
     log := [] |}.

(** ** Observations on the log *)

(** A decoded detent, as the marker print of its branch. *)
Inductive Step : Type := StepClockwise | StepCounterClockwise.

(** A playback operation entered, as the print on its first line. *)
Inductive Action : Type := PlayPause | SkipForward | SkipBackward.

Definition step_of (e : Effect) : option Step :=
  match e with
  | PrintClockwise _ => Some StepClockwise
  | PrintCounterClockwise _ => Some StepCounterClockwise
  | _ => None
  end.

Definition action_of (e : Effect) : option Action :=
  match e with
  | PrintPlayPauseCalled => Some PlayPause
  | PrintSkipCalled true => Some SkipForward
  | PrintSkipCalled false => Some SkipBackward
  | _ => None
  end.

Fixpoint pick {A : Type} (f : Effect -> option A) (l : list Effect) : list A :=
  match l with
  | [] => []
  | e :: l => match f e with
              | Some x => x :: pick f l
              | None => pick f l
              end
  end.

(** The detents reported so far. *)
Definition steps (s : State) : list Step := pick step_of (log s).

(** The playback operations entered so far. *)
Definition dispatched (s : State) : list Action := pick action_of (log s).

(** ** Vocabulary of the properties *)

(** The fields no renderer line assigns, and the two observations. *)
Definition same_controls (s s' : State) : Prop :=
  selected s' = selected s /\ playing s' = playing s /\
  songs s' = songs s /\
  last_a s' = last_a s /\ last_b s' = last_b s /\ last_sw s' = last_sw s /\
  current_volume s' = current_volume s /\
  mixer_volume s' = mixer_volume s /\
  encoder_count s' = encoder_count s /\
  last_press_time s' = last_press_time s /\
  press_count s' = press_count s /\
  last_states s' = last_states s /\
  last_display_update s' = last_display_update s /\
  last_eink_update s' = last_eink_update s /\
  clock s' = clock s /\
  steps s' = steps s /\ dispatched s' = dispatched s.

(** The catalog, the selection and the two volumes. *)
Definition same_settings (s s' : State) : Prop :=
  songs s' = songs s /\ selected s' = selected s /\
  current_volume s' = current_volume s /\ mixer_volume s' = mixer_volume s.

(** The catalog is the one loaded at start-up, the selection indexes it,
    the volume is a fraction of one, and the mixer holds half of it. *)
Definition well_formed (catalog : list string) (s : State) : Prop :=
  songs s = catalog /\
  0 <= selected s < Z.of_nat (List.length catalog) /\
  (0 <= current_volume s <= 1)%Q /\
  mixer_volume s = (current_volume s / 2)%Q.

(** Lines 286 and 306 on binary64 numbers, as Python computes them (the
    literal 0.01 is the nearest binary64 number). *)
Definition float_volume_up (v : float) : float :=
  if (v + 0.01 <? 1.0)%float then (v + 0.01)%float else 1.0%float.

Definition float_volume_down (v : float) : float :=
  if (0.0 <? v - 0.01)%float then (v - 0.01)%float else 0.0%float.

(** A run of detents, [true] for clockwise. *)
Definition turn (s : State) (clockwise : bool) : State :=
  if clockwise then dispatch_clockwise s else dispatch_counter_clockwise s.

Definition turns (directions : list bool) (s : State) : State :=
  fold_left turn directions s.

(** No sample of the list finds the button pressed. *)
Definition released (samples : list Z) : Prop :=
  Forall (fun sw => sw <> 0) samples.

(** The button is up on this tick, or the collection loop first reads
    four samples of a released button. *)
Definition quiet_window (env : Env) : Prop :=
  gpio_sw env <> 0 \/
  exists (x1 x2 x3 x4 : Z) (rest : list Z),
    gpio_sw_window env = x1 :: x2 :: x3 :: x4 :: rest /\
    released [x1; x2; x3; x4].

(** ** Example inputs *)

(** A player at rest on a two-track catalog: the pins idle high, the clock
    at 1000 s. *)
Definition idle_state : State :=
  initial_state ["a.mp3"; "LongTrackTitleNameHere.mp3"]%string 1 1 1 1000.

(** Seven pixels per character, whatever the character. *)
Definition fixed_width (track : string) : Q := inject_Z (7 * len track).

(** A tick on which nothing moves and every device answers. *)
Definition quiet_env : Env :=
  mkEnv 1 1 1 [] (fun _ _ => Some 4660) fixed_width true true false true true.

(** The encoder leaves (1,1) for (1,0). *)
Definition turn_env : Env :=
  mkEnv 1 0 1 [] (fun _ _ => Some 4660) fixed_width true true false true true.

(** The button goes down on this tick; [window] is what the collection
    loop then reads. *)
Definition press_env (window : list Z) : Env :=
  mkEnv 1 1 0 window (fun _ _ => Some 4660) fixed_width
    true true false true true.

(** A short session: a press (released when the window looks), the
    encoder moving to (1,0), back to (1,1) and to (1,0) again (one
    clockwise detent), a second press, a quiet tick. *)
Definition example_run : list Env :=
  [press_env [1; 1; 1; 1]; turn_env; quiet_env; turn_env;
   press_env [1; 1; 1; 1]; quiet_env].

(** The fuel gauge does not answer. *)
Definition dead_gauge_env : Env :=
  mkEnv 1 1 1 [] (fun _ _ => None) fixed_width true true false true true.

(** ** load_music (lines 137-153) *)

(** [s.endswith(suffix)]. *)
Fixpoint endswith (s suffix : string) : bool :=
  if String.eqb s suffix then true
  else match s with
       | EmptyString => false
       | String _ rest => endswith rest suffix
       end.

(** [f.endswith(('.flac', '.mp3', '.wav'))] *)
Definition is_audio (f : string) : bool :=
  endswith f ".flac" || endswith f ".mp3" || endswith f ".wav".

(** [songs.sort()]: ascending in the order of [str], character by
    character.  The order is total and antisymmetric, so the sorted list
    does not depend on the sorting algorithm. *)
Fixpoint insert_song (f : string) (sorted : list string) : list string :=
  match sorted with
  | [] => [f]
  | g :: rest =>
      if String.leb f g then f :: g :: rest else g :: insert_song f rest
  end.

Fixpoint sort_songs (names : list string) : list string :=
  match names with
  | [] => []
  | f :: rest => insert_song f (sort_songs rest)
  end.

(** The catalog left in [songs], for what [os.listdir(MUSIC_DIR)] returns
    ([None]: it raises).  The result [None] is [exit(1)], reached through
    the [except] branch or through [if not songs]. *)
Definition load_music (listing : option (list string)) : option (list string) :=
  match listing with
  | Some names =>
      let songs := filter is_audio names in
      let songs := sort_songs songs in
      match songs with
      | [] => None
      | _ :: _ => Some songs
      end
  | None => None
  end.

(** ** Polling without the rest of the loop *)

(** [check_encoder] called once per element of [envs]. *)
Fixpoint poll (envs : list Env) (s : State) : option State :=
  match envs with
  | [] => Some s
  | env :: envs =>
      match check_encoder env s with
      | Some s => poll envs s
      | None => None
      end
  end.

(** ** More observations on the log *)

(** The calls made on [pygame.mixer.music], in order. *)
Definition mixer_call (e : Effect) : option Effect :=
  match e with
  | MixerSetVolume _ | MixerLoad _ | MixerPlay | MixerPause | MixerUnpause =>
      Some e
  | _ => None
  end.

Definition mixer_calls (s : State) : list Effect := pick mixer_call (log s).

(** The refreshes of the e-ink panel. *)
Definition eink_call (e : Effect) : option string :=
  match e with
  | EinkUpdate path => Some path
  | _ => None
  end.

Definition eink_updates (s : State) : list string := pick eink_call (log s).

(** The album-art extractions. *)
Definition art_call (e : Effect) : option (option string) :=
  match e with
  | ExtractAlbumArt path => Some path
  | _ => None
  end.

Definition art_extractions (s : State) : list (option string) :=
  pick art_call (log s).

(** The frames handed to the OLED, in order; the last one is what the
    display shows. *)
Definition frame_shown (e : Effect) : option Frame :=
  match e with
  | OledShow f => Some f
  | _ => None
  end.

Definition frames (s : State) : list Frame := pick frame_shown (log s).

(** What [display_update] itself can add to the log. *)
Definition display_effect (e : Effect) : Prop :=
  match e with
  | PrintError _ | OledShow _ | ExtractAlbumArt _ => True
  | _ => False
  end.

(** ** More vocabulary *)

(** Two states agree on what [f] observes. *)
Definition same_on {A : Type} (f : State -> A) (s s' : State) : Prop :=
  f s' = f s.

(** The rotation decoder's own data. *)
Definition decoder_view (s : State) : list (Z * Z) * Z * list Step :=
  (last_states s, encoder_count s, steps s).

(** The schedule of the e-ink panel. *)
Definition eink_view (s : State) : Q * list string :=
  (last_eink_update s, eink_updates s).

(** The pair of encoder lines sampled on a tick, and the pair remembered. *)
Definition pins (env : Env) : Z * Z := (gpio_a env, gpio_b env).
Definition last_pins (s : State) : Z * Z := (last_a s, last_b s).

(** The history ends with the rest position (1,1) and holds nothing a
    third sample would have to resolve. *)
Definition at_rest (s : State) : Prop :=
  last_pins s = (1, 1) /\
  (last_states s = [(1, 1)] \/ exists x, last_states s = [x; (1, 1)]).

(** The 1-to-0 transitions in [samples], the first sample being compared
    with [previous]. *)
Fixpoint falling_edges (previous : Z) (samples : list Z) : Z :=
  match samples with
  | [] => 0
  | sw :: rest =>
      (if (sw =? 0) && (previous =? 1) then 1 else 0) + falling_edges sw rest
  end.

(** The log of [s'] is the log of [s] followed by effects that all
    satisfy [P]. *)
Definition appends (P : Effect -> Prop) (s s' : State) : Prop :=
  exists l, log s' = log s ++ l /\ Forall P l.

(** ** The rotation history on its own *)

(** Lines 268-272 on the history alone. *)
Definition trim_history (history : list (Z * Z)) (sample : Z * Z)
  : list (Z * Z) :=
  let history := history ++ [sample] in
  if 2 <? Z.of_nat (List.length history) then tl history else history.

(** Lines 277-316 on the history alone: the history kept and the step
    reported, if any. *)
Definition match_history (history : list (Z * Z)) : list (Z * Z) * list Step :=
  match history with
  | [x; y] =>
      if pair_eqb x (1, 1) && pair_eqb y (1, 0) then ([y], [StepClockwise])
      else if pair_eqb x (1, 1) && pair_eqb y (0, 1)
           then ([y], [StepCounterClockwise])
           else (history, [])
  | _ => (history, [])
  end.

Definition history_after (history : list (Z * Z)) (sample : Z * Z)
  : list (Z * Z) * list Step :=
  match_history (trim_history history sample).

(** The history and the steps after a run of samples, each different from
    the one before. *)
Fixpoint knob_run (history : list (Z * Z)) (samples : list (Z * Z))
  : list (Z * Z) * list Step :=
  match samples with
  | [] => (history, [])
  | sample :: rest =>
      let '(history, reported) := history_after history sample in
      let '(history, later) := knob_run history rest in
      (history, reported ++ later)
  end.

(** Every sample differs from the one before it, the first from
    [previous]. *)
Fixpoint changing (previous : Z * Z) (samples : list (Z * Z)) : Prop :=
  match samples with
  | [] => True
  | sample :: rest => sample <> previous /\ changing sample rest
  end.

(** The button stays up during these ticks. *)
Definition button_up (envs : list Env) : Prop :=
  Forall (fun env => gpio_sw env <> 0) envs.

(** The four pairs of one detent, starting from and returning to rest. *)
Definition cycle_pins (clockwise : bool) : list (Z * Z) :=
  if clockwise then [(1, 0); (0, 0); (0, 1); (1, 1)]
  else [(0, 1); (0, 0); (1, 0); (1, 1)].

Definition is_cycle (clockwise : bool) (envs : list Env) : Prop :=
  map pins envs = cycle_pins clockwise /\ button_up envs.

Definition step_for (clockwise : bool) : Step :=
  if clockwise then StepClockwise else StepCounterClockwise.

(** Ticks on which the encoder reads [a], [b] and the button is up. *)
Definition knob_env (a b : Z) : Env :=
  mkEnv a b 1 [] (fun _ _ => Some 4660) fixed_width true true false true true.

(** One clockwise detent and one counter-clockwise detent. *)
Definition clockwise_envs : list Env :=
  [knob_env 1 0; knob_env 0 0; knob_env 0 1; knob_env 1 1].

Definition counter_clockwise_envs : list Env :=
  [knob_env 0 1; knob_env 0 0; knob_env 1 0; knob_env 1 1].

(** The idle player once the knob has come to rest. *)
Definition rested_state : State := set_last_states [(0, 1); (1, 1)] idle_state.

(** What the rotation side of a tick leaves alone: the button's data, the
    clock, the playback operations entered, the e-ink schedule, the
    playing flag and the catalog. *)
Definition outside_rotation (s : State)
  : Z * Z * Q * Q * list Action * Q * list string * bool * list string :=
  (last_sw s, press_count s, last_press_time s, clock s, dispatched s,
   last_eink_update s, eink_updates s, playing s, songs s).

(** What [play_pause] and [skip_track] leave alone: the samples remembered,
    the press counter, the decoder, the clock, the volume and the
    schedule of both displays. *)
Definition outside_playback (s : State)
  : (Z * Z) * Z * Z * Q * list (Z * Z) * Z * list Step * Q * Q * Q
    * list string * Q * Q * list string :=
  (last_pins s, last_sw s, press_count s, last_press_time s, last_states s,
   encoder_count s, steps s, clock s, current_volume s, mixer_volume s,
   songs s, last_display_update s, last_eink_update s, eink_updates s).

(** What counting presses leaves alone: the log and every global except
    [press_count], [last_press_time], [last_sw] and the clock. *)
Definition outside_window (s : State)
  : list Effect * (Z * Z) * list (Z * Z) * Z * bool * Z * list string * Q * Q
    * Q * Q :=
  (log s, last_pins s, last_states s, encoder_count s, playing s, selected s,
   songs s, current_volume s, mixer_volume s, last_display_update s,
   last_eink_update s).

(** Between two ticks: no press is pending, the history holds at most two
    samples, and [encoder_count] is the number of detents reported. *)
Definition tidy (s : State) : Prop :=
  press_count s = 0 /\
  (List.length (last_states s) <= 2)%nat /\
  encoder_count s = Z.of_nat (List.length (steps s)).

(** The data [tidy] speaks about. *)
Definition tidy_view (s : State) : Z * list (Z * Z) * Z * list Step :=
  (press_count s, last_states s, encoder_count s, steps s).

(** What the renderer reads and what it draws with, apart from the scroll
    state. *)
Definition drawn (s : State)
  : list Frame * list (option string) * Q * option string * bool * Q * Q
    * Z * list string :=
  (frames s, art_extractions s, last_art_update s, current_song_path s,
   playing s, current_volume s, clock s, selected s, songs s).

(** [skip_track] called once per element of [envs], in one direction. *)
Definition skips (envs : list Env) (forward : bool) (s : State) : State :=
  fold_left (fun s env => skip_track env forward s) envs s.

(** What the rest of a loop iteration leaves alone once the encoder has
    been served and the track possibly advanced. *)
Definition playback_view (s : State)
  : bool * Z * list string * list Action * list Effect :=
  (playing s, selected s, songs s, dispatched s, mixer_calls s).

(** The mixer refuses to load, and nothing is playing. *)
Definition no_load_env : Env :=
  mkEnv 1 1 1 [] (fun _ _ => Some 4660) fixed_width true false false true true.

(** The track has ended: the mixer is idle when the loop polls it. *)
Definition track_ended_env : Env :=
  mkEnv 1 1 1 [] (fun _ _ => Some 4660) fixed_width true true false false true.

(** The idle player with its first track playing. *)
Definition playing_state : State := set_playing true idle_state.

(** The e-ink schedule and the clock it is compared with. *)
Definition schedule (s : State) : Q * list string * Q :=
  (last_eink_update s, eink_updates s, clock s).

(** ** The scroll state a refresh leaves *)

(** Lines 205-208: whether a refresh advances the scroll position of the
    title [track], [elapsed] seconds after the last advance. *)
Definition scroll_advances (env : Env) (track : string) (elapsed : Q) : bool :=
  Qltb (inject_Z (OLED_WIDTH - 30)) (textlength env track)
  && negb (len track =? 0) && Qltb 0.3 elapsed.

(** Lines 205-210 on the position alone: where such a refresh leaves the
    position [p]. *)
Definition advance_scroll (env : Env) (track : string) (elapsed : Q) (p : Z)
  : Z :=
  if scroll_advances env track elapsed then (p + 1) mod len track else p.

(** Lines 212-222: the text drawn for [track] once the position is [p]. *)
Definition title_at (env : Env) (track : string) (p : Z) : string :=
  if Qltb (inject_Z (OLED_WIDTH - 30)) (textlength env track)
  then scroll_text track p else track.

(** The scroll state, which only the title renderer and the selection
    code assign. *)
Definition scroll_view (s : State) : Z * Q :=
  (scroll_position s, last_scroll_time s).

(** ** More example inputs *)

(** The idle player with its second, long-titled track selected and the
    title scrolled to character 19. *)
Definition scrolled_state : State :=
  set_scroll_position 19 (set_selected 1 idle_state).

(** The knob at rest in the decoder's history, the long-titled track
    selected and playing, its title scrolled to character 3. *)
Definition turning_state : State :=
  set_scroll_position 3
    (set_selected 1 (set_playing true (set_last_states [(1, 1)] idle_state))).

(** What recording a sample and announcing a step leave alone. *)
Definition rotation_inputs (s : State)
  : bool * Z * list string * Z * Q * Q * Q * Q :=
  (playing s, selected s, songs s, scroll_position s, last_scroll_time s,
   clock s, current_volume s, mixer_volume s).

(** The player 300 seconds after start-up, the e-ink panel not refreshed
    since. *)
Definition late_state : State := sleep 300 (main_init quiet_env idle_state).

(** * Properties *)

(** ** Arithmetic of the primitives *)

Lemma Qltb_true (x y : Q) : Qltb x y = true <-> (x < y)%Q.
Proof.
  unfold Qltb. rewrite negb_true_iff, <- not_true_iff_false, Qle_bool_iff.
  split; [apply Qnot_le_lt | apply Qlt_not_le].
Qed.

Lemma Qltb_false (x y : Q) : Qltb x y = false <-> (y <= x)%Q.
Proof.
  unfold Qltb. rewrite negb_false_iff. apply Qle_bool_iff.
Qed.

Lemma py_min_bounds (v : Q) :
  (0 <= v)%Q -> (0 <= py_min 1.0 (v + 0.01) <= 1)%Q.
Proof.
  intros Hv. unfold py_min.
  destruct (Qltb (v + 0.01) 1.0) eqn:E.
  - apply Qltb_true in E. lra.
  - lra.
Qed.

Lemma py_max_bounds (v : Q) :
  (v <= 1)%Q -> (0 <= py_max 0.0 (v - 0.01) <= 1)%Q.
Proof.
  intros Hv. unfold py_max.
  destruct (Qltb 0.0 (v - 0.01)) eqn:E.
  - apply Qltb_true in E. lra.
  - lra.
Qed.

Lemma pick_app {A : Type} (f : Effect -> option A) (l1 l2 : list Effect) :
  pick f (l1 ++ l2) = pick f l1 ++ pick f l2.
Proof.
  induction l1 as [|e l1 IH]; simpl; [reflexivity|].
  destruct (f e); simpl; now rewrite IH.
Qed.

(** ** What [display_update] leaves alone *)

Lemma same_controls_refl (s : State) : same_controls s s.
Proof. repeat split. Qed.

Lemma same_controls_trans (s1 s2 s3 : State) :
  same_controls s1 s2 -> same_controls s2 s3 -> same_controls s1 s3.
Proof.
  unfold same_controls. intros H12 H23.
  repeat match goal with H : _ /\ _ |- _ => destruct H end.
  repeat split; congruence.
Qed.

Lemma emit_frame (e : Effect) (s : State) :
  step_of e = None -> action_of e = None -> same_controls s (emit e s).
Proof.
  intros Hs Ha. unfold same_controls, steps, dispatched, emit; simpl.
  rewrite !pick_app; simpl. rewrite Hs, Ha, !app_nil_r.
  repeat split.
Qed.

Lemma count_update_frame (s : State) : same_controls s (count_update s).
Proof.
  unfold count_update.
  destruct (_ =? 0); repeat split.
Qed.

Lemma read_battery_frame (env : Env) (s : State) :
  same_controls s (snd (read_battery env s)).
Proof.
  unfold read_battery.
  destruct (read_word_data env I2C_ADDR REG_VOLTAGE);
    [destruct (read_word_data env I2C_ADDR REG_CAPACITY)|]; simpl;
    try apply same_controls_refl; now apply emit_frame.
Qed.

Lemma sample_battery_frame (env : Env) (s : State) :
  same_controls s (snd (sample_battery env s)).
Proof.
  unfold sample_battery. destruct (Qltb _ _); [|apply same_controls_refl].
  pose proof (read_battery_frame env s) as H.
  destruct (read_battery env s) as [reading s1]; simpl in *.
  eapply same_controls_trans; [exact H|]. repeat split.
Qed.

Lemma render_title_frame (env : Env) (track title : string) (s s' : State) :
  render_title env track s = Some (title, s') -> same_controls s s'.
Proof.
  unfold render_title. intros H.
  destruct (Qltb _ (textlength env track)).
  - destruct (len track =? 0); [discriminate|].
    destruct (Qltb 0.3 _); injection H as _ <-; repeat split.
  - injection H as _ <-. apply same_controls_refl.
Qed.

Lemma refresh_art_frame (s : State) : same_controls s (refresh_art s).
Proof.
  unfold refresh_art. destruct (Qltb _ _); [|apply same_controls_refl].
  apply same_controls_trans
    with (s2 := emit (ExtractAlbumArt (current_song_path s)) s);
    [now apply emit_frame | repeat split].
Qed.

Lemma draw_frame_frame (env : Env) (percent : Q) (s : State) :
  same_controls s (draw_frame env percent s).
Proof.
  unfold draw_frame.
  destruct (render_title env (song_at s) s) as [[title s1]|] eqn:E;
    [|now apply emit_frame].
  apply render_title_frame in E.
  eapply same_controls_trans; [exact E|].
  destruct (oled_ok env); [|now apply emit_frame].
  eapply same_controls_trans; [|apply refresh_art_frame].
  now apply emit_frame.
Qed.

Lemma display_update_frame (env : Env) (s : State) :
  same_controls s (display_update env s).
Proof.
  unfold display_update.
  eapply same_controls_trans; [apply count_update_frame|].
  set (s1 := count_update s).
  set (s2 := set_current_song_path _ s1).
  eapply same_controls_trans with (s2 := s2); [repeat split|].
  pose proof (sample_battery_frame env s2) as H.
  destruct (sample_battery env s2) as [percent s3]; simpl in H.
  eapply same_controls_trans; [exact H|]. apply draw_frame_frame.
Qed.

(** ** The catalog, the selection and the volume along the loop *)

Lemma same_settings_refl (s : State) : same_settings s s.
Proof. repeat split. Qed.

Lemma same_settings_trans (s1 s2 s3 : State) :
  same_settings s1 s2 -> same_settings s2 s3 -> same_settings s1 s3.
Proof.
  unfold same_settings. intros (?&?&?&?) (?&?&?&?). repeat split; congruence.
Qed.

Lemma same_controls_settings (s s' : State) :
  same_controls s s' -> same_settings s s'.
Proof.
  unfold same_controls, same_settings. intros H.
  repeat match goal with H : _ /\ _ |- _ => destruct H end.
  repeat split; assumption.
Qed.

Lemma well_formed_settings (catalog : list string) (s s' : State) :
  same_settings s s' -> well_formed catalog s -> well_formed catalog s'.
Proof.
  unfold same_settings, well_formed.
  intros (Hs&Hi&Hv&Hm) (Hcat&Hsel&Hvol&Hmix).
  rewrite Hs, Hi, Hv, Hm. auto.
Qed.

Lemma display_update_settings (env : Env) (s : State) :
  same_settings s (display_update env s).
Proof. apply same_controls_settings, display_update_frame. Qed.

(** Peels the outermost operation off the right-hand state. *)
Ltac peel_settings_op :=
  lazymatch goal with
  | |- same_settings ?a (display_update ?env ?x) =>
      apply same_settings_trans with (s2 := x);
      [|apply display_update_settings]
  | |- same_settings ?a (?f ?v ?x) =>
      apply same_settings_trans with (s2 := x);
      [|generalize x; intros ?; repeat split; reflexivity]
  end.

Ltac peel_settings :=
  lazymatch goal with
  | |- same_settings ?a ?b =>
      first [ constr_eq a b; apply same_settings_refl | peel_settings_op ]
  end.

Lemma play_pause_settings (env : Env) (s : State) :
  same_settings s (play_pause env s).
Proof.
  unfold play_pause.
  destruct (playing (emit PrintPlayPauseCalled s)).
  - repeat peel_settings.
  - destruct (negb (busy_at_toggle env)).
    + destruct (load_ok env); repeat peel_settings.
    + repeat peel_settings.
Qed.

Lemma skip_select_spec (forward : bool) (s : State) :
  songs s <> [] ->
  exists s',
    skip_select forward s = Some s' /\
    selected s' = (if forward then selected s + 1 else selected s - 1)
                    mod Z.of_nat (List.length (songs s)) /\
    scroll_position s' = 0 /\
    songs s' = songs s /\ playing s' = playing s /\
    current_volume s' = current_volume s /\
    mixer_volume s' = mixer_volume s /\ log s' = log s.
Proof.
  intros Hne. unfold skip_select.
  assert (Hn : (Z.of_nat (List.length (songs s)) =? 0) = false).
  { apply Z.eqb_neq. destruct (songs s); [congruence|simpl; lia]. }
  simpl songs. rewrite Hn.
  destruct forward; eexists; repeat split.
Qed.

Lemma skip_track_selected (env : Env) (forward : bool) (s : State) :
  songs s <> [] ->
  let s' := skip_track env forward s in
  selected s' = (if forward then selected s + 1 else selected s - 1)
                  mod Z.of_nat (List.length (songs s)) /\
  songs s' = songs s /\ current_volume s' = current_volume s /\
  mixer_volume s' = mixer_volume s.
Proof.
  intros Hne. unfold skip_track.
  destruct (skip_select_spec forward (emit (PrintSkipCalled forward) s) Hne)
    as (s1 & -> & Hsel & _ & Hsongs & _ & Hvol & Hmix & _).
  simpl in Hsel, Hsongs, Hvol, Hmix.
  assert (Hmid : forall t, same_settings s1 t ->
            selected t = (if forward then selected s + 1 else selected s - 1)
                  mod Z.of_nat (List.length (songs s)) /\
            songs t = songs s /\ current_volume t = current_volume s /\
            mixer_volume t = mixer_volume s).
  { intros t (?&?&?&?). repeat split; congruence. }
  cbv beta iota zeta.
  destruct (playing s1); [destruct (load_ok env)|];
    lazymatch goal with |- selected ?t = _ /\ _ => apply (Hmid t) end;
    repeat peel_settings.
Qed.

Lemma mod_range (x n : Z) : 0 < n -> 0 <= x mod n < n.
Proof. intros; apply Z.mod_pos_bound; assumption. Qed.

Lemma well_formed_nonempty (catalog : list string) (s : State) :
  well_formed catalog s -> songs s <> [] /\ 0 < Z.of_nat (List.length (songs s)).
Proof.
  intros (Hcat & [H0 H1] & _). rewrite Hcat. split; [|lia].
  intros E. rewrite E in H1. simpl in H1. lia.
Qed.

Lemma skip_track_well_formed (catalog : list string) (env : Env)
  (forward : bool) (s : State) :
  well_formed catalog s -> well_formed catalog (skip_track env forward s).
Proof.
  intros Hwf. destruct (well_formed_nonempty _ _ Hwf) as [Hne Hn].
  destruct (skip_track_selected env forward s Hne)
    as (Hsel & Hsongs & Hvol & Hmix).
  destruct Hwf as (Hcat & Hr & Hv & Hm). unfold well_formed.
  rewrite Hsel, Hsongs, Hvol, Hmix, <- Hcat.
  repeat split; try tauto; try congruence; apply mod_range; assumption.
Qed.

(** ** What a refresh does to the scroll position *)

Lemma refresh_art_scroll (s : State) :
  scroll_position (refresh_art s) = scroll_position s.
Proof. unfold refresh_art. destruct (Qltb _ _); reflexivity. Qed.

Lemma scroll_position_emit (e : Effect) (s : State) :
  scroll_position (emit e s) = scroll_position s.
Proof. reflexivity. Qed.

(** ** Rotation *)

Lemma steps_emit (e : Effect) (s : State) :
  steps (emit e s) =
  steps s ++ match step_of e with Some x => [x] | None => [] end.
Proof.
  unfold steps, emit; simpl. rewrite pick_app; simpl.
  destruct (step_of e); reflexivity.
Qed.

Lemma dispatched_emit (e : Effect) (s : State) :
  dispatched (emit e s) =
  dispatched s ++ match action_of e with Some x => [x] | None => [] end.
Proof.
  unfold dispatched, emit; simpl. rewrite pick_app; simpl.
  destruct (action_of e); reflexivity.
Qed.

(** The dispatch of a step touches neither the history nor the markers. *)
Lemma dispatch_history (s : State) :
  let c := dispatch_clockwise s in
  let cc := dispatch_counter_clockwise s in
  (last_states c = last_states s /\ steps c = steps s /\
   dispatched c = dispatched s /\ songs c = songs s /\
   playing c = playing s) /\
  (last_states cc = last_states s /\ steps cc = steps s /\
   dispatched cc = dispatched s /\ songs cc = songs s /\
   playing cc = playing s).
Proof.
  unfold dispatch_clockwise, dispatch_counter_clockwise, steps, dispatched.
  destruct (playing s) eqn:E; simpl; rewrite ?pick_app; simpl;
    rewrite ?app_nil_r; repeat split; assumption.
Qed.

Lemma display_update_history (env : Env) (s : State) :
  last_states (display_update env s) = last_states s /\
  steps (display_update env s) = steps s /\
  encoder_count (display_update env s) = encoder_count s.
Proof.
  destruct (display_update_frame env s)
    as (_&_&_&_&_&_&_&_&Hc&_&_&Hl&_&_&_&Hst&_).
  repeat split; assumption.
Qed.

Lemma set_last_states_history (h : list (Z * Z)) (s : State) :
  last_states (set_last_states h s) = h /\
  steps (set_last_states h s) = steps s /\
  encoder_count (set_last_states h s) = encoder_count s.
Proof. repeat split. Qed.

Lemma decode_clockwise (env : Env) (s : State) :
  last_states s = [(1, 1); (1, 0)] ->
  decode_rotation env s =
  let s1 := set_encoder_count (encoder_count s + 1) s in
  let s2 := emit (PrintClockwise (encoder_count s1)) s1 in
  set_last_states [(1, 0)] (display_update env (dispatch_clockwise s2)).
Proof.
  intros H. unfold decode_rotation. rewrite H. cbv beta iota zeta.
  change (Z.of_nat (List.length [(1, 1); (1, 0)]) =? 2) with true.
  change (pair_eqb (nth 0 [(1, 1); (1, 0)] (0, 0)) (1, 1)
          && pair_eqb (nth 1 [(1, 1); (1, 0)] (0, 0)) (1, 0)) with true.
  cbv beta iota.
  set (e := emit _ _).
  destruct (display_update_history env (dispatch_clockwise e)) as (-> & _).
  destruct (dispatch_history e) as [(-> & _) _].
  subst e. change (last_states (emit ?x (set_encoder_count ?v s)))
    with (last_states s).
  rewrite H. reflexivity.
Qed.

Lemma decode_counter_clockwise (env : Env) (s : State) :
  last_states s = [(1, 1); (0, 1)] ->
  decode_rotation env s =
  let s1 := set_encoder_count (encoder_count s + 1) s in
  let s2 := emit (PrintCounterClockwise (encoder_count s1)) s1 in
  set_last_states [(0, 1)]
    (display_update env (dispatch_counter_clockwise s2)).
Proof.
  intros H. unfold decode_rotation. rewrite H. cbv beta iota zeta.
  change (Z.of_nat (List.length [(1, 1); (0, 1)]) =? 2) with true.
  change (pair_eqb (nth 0 [(1, 1); (0, 1)] (0, 0)) (1, 1)
          && pair_eqb (nth 1 [(1, 1); (0, 1)] (0, 0)) (1, 0)) with false.
  change (pair_eqb (nth 0 [(1, 1); (0, 1)] (0, 0)) (1, 1)
          && pair_eqb (nth 1 [(1, 1); (0, 1)] (0, 0)) (0, 1)) with true.
  cbv beta iota.
  set (e := emit _ _).
  destruct (display_update_history env (dispatch_counter_clockwise e))
    as (-> & _).
  destruct (dispatch_history e) as [_ (-> & _)].
  subst e. change (last_states (emit ?x (set_encoder_count ?v s)))
    with (last_states s).
  rewrite H. reflexivity.
Qed.

Lemma pair_eqb_eq (x y : Z * Z) : pair_eqb x y = true <-> x = y.
Proof.
  destruct x as [a b], y as [c d]. unfold pair_eqb; simpl.
  rewrite andb_true_iff, !Z.eqb_eq. split.
  - intros [-> ->]; reflexivity.
  - intros [= -> ->]; split; reflexivity.
Qed.

Lemma decode_other (env : Env) (s : State) (x y : Z * Z) :
  last_states s = [x; y] ->
  (x, y) <> ((1, 1), (1, 0)) -> (x, y) <> ((1, 1), (0, 1)) ->
  decode_rotation env s = s.
Proof.
  intros H Hcw Hccw. unfold decode_rotation. rewrite H.
  change (Z.of_nat (List.length [x; y]) =? 2) with true.
  cbv beta iota. change (nth 0 [x; y] (0, 0)) with x.
  change (nth 1 [x; y] (0, 0)) with y.
  destruct (pair_eqb x (1, 1) && pair_eqb y (1, 0)) eqn:E1.
  { apply andb_true_iff in E1. destruct E1 as [Ex Ey].
    apply pair_eqb_eq in Ex, Ey. subst. now elim Hcw. }
  destruct (pair_eqb x (1, 1) && pair_eqb y (0, 1)) eqn:E2.
  { apply andb_true_iff in E2. destruct E2 as [Ex Ey].
    apply pair_eqb_eq in Ex, Ey. subst. now elim Hccw. }
  reflexivity.
Qed.

(** Whatever the history, decoding leaves none that still matches. *)
Lemma decode_rotation_settled (env : Env) (s : State) :
  last_states (decode_rotation env s) <> [(1, 1); (1, 0)] /\
  last_states (decode_rotation env s) <> [(1, 1); (0, 1)].
Proof.
  destruct (last_states s) as [|x [|y [|z l]]] eqn:E.
  - unfold decode_rotation. rewrite E. cbn. rewrite E.
    split; discriminate.
  - unfold decode_rotation. rewrite E. cbn. rewrite E.
    split; discriminate.
  - destruct (pair_eqb x (1, 1) && pair_eqb y (1, 0)) eqn:E1.
    { apply andb_true_iff in E1. destruct E1 as [Ex Ey].
      apply pair_eqb_eq in Ex, Ey. subst x y.
      rewrite (decode_clockwise env s E). cbv zeta.
      match goal with
      | |- context [set_last_states ?h ?x] =>
          destruct (set_last_states_history h x) as (-> & _)
      end.
      split; discriminate. }
    destruct (pair_eqb x (1, 1) && pair_eqb y (0, 1)) eqn:E2.
    { apply andb_true_iff in E2. destruct E2 as [Ex Ey].
      apply pair_eqb_eq in Ex, Ey. subst x y.
      rewrite (decode_counter_clockwise env s E). cbv zeta.
      match goal with
      | |- context [set_last_states ?h ?x] =>
          destruct (set_last_states_history h x) as (-> & _)
      end.
      split; discriminate. }
    rewrite (decode_other env s x y E), E.
    + split; intros [= -> ->]; discriminate.
    + intros [= -> ->]; discriminate.
    + intros [= -> ->]; discriminate.
  - assert (Hd : decode_rotation env s = s).
    { unfold decode_rotation. rewrite E.
      replace (Z.of_nat (List.length (x :: y :: z :: l)) =? 2) with false;
        [reflexivity|].
      symmetry. apply Z.eqb_neq. simpl List.length. lia. }
    rewrite Hd, E. split; discriminate.
Qed.

Lemma changed_iff (env : Env) (s : State) :
  negb (gpio_a env =? last_a s) || negb (gpio_b env =? last_b s) = true <->
  gpio_a env <> last_a s \/ gpio_b env <> last_b s.
Proof.
  rewrite orb_true_iff, !negb_true_iff, !Z.eqb_neq. reflexivity.
Qed.

(** C1. Rotation decoding.  On a tick whose sampled pair differs from the
    previous one, the pair joins the history; if the history then reads
    [(1,1),(1,0)] exactly one clockwise step is reported and the history
    becomes [(1,0)]; if it reads [(1,1),(0,1)] exactly one
    counter-clockwise step is reported and the history becomes [(0,1)];
    for every other two-entry history nothing is reported and the history
    stays as it is.  The history kept after such a tick never still reads
    one of the two patterns, so a pattern is reported once.  A tick whose
    pair did not change does nothing. *)
Theorem rotation_decoding (env : Env) (s : State) :
  let h := last_states (record_state (gpio_a env) (gpio_b env) s) in
  let s' := encoder_rotation env s in
  (gpio_a env <> last_a s \/ gpio_b env <> last_b s ->
   (h = [(1, 1); (1, 0)] ->
    steps s' = steps s ++ [StepClockwise] /\
    encoder_count s' = encoder_count s + 1 /\
    last_states s' = [(1, 0)]) /\
   (h = [(1, 1); (0, 1)] ->
    steps s' = steps s ++ [StepCounterClockwise] /\
    encoder_count s' = encoder_count s + 1 /\
    last_states s' = [(0, 1)]) /\
   (forall x y : Z * Z,
      h = [x; y] ->
      (x, y) <> ((1, 1), (1, 0)) -> (x, y) <> ((1, 1), (0, 1)) ->
      steps s' = steps s /\
      encoder_count s' = encoder_count s /\
      last_states s' = [x; y]) /\
   last_states s' <> [(1, 1); (1, 0)] /\
   last_states s' <> [(1, 1); (0, 1)]) /\
  (gpio_a env = last_a s -> gpio_b env = last_b s -> s' = s).
Proof.
  intros h s'. split.
  - intros Hch. apply changed_iff in Hch.
    assert (Hs' : s' = decode_rotation env
                         (record_state (gpio_a env) (gpio_b env) s)).
    { subst s'. unfold encoder_rotation. cbv zeta. now rewrite Hch. }
    pose proof (decode_rotation_settled env
                  (record_state (gpio_a env) (gpio_b env) s)) as Hsettled.
    rewrite <- Hs' in Hsettled.
    set (r := record_state (gpio_a env) (gpio_b env) s) in *.
    assert (Hr : steps r = steps s /\ encoder_count r = encoder_count s).
    { subst r. unfold record_state. cbv zeta.
      destruct (2 <? _); split; reflexivity. }
    destruct Hr as [Hrs Hrc].
    split; [|split; [|split; [|exact Hsettled]]].
    + intros Hh. rewrite Hs', (decode_clockwise env r Hh). cbv zeta.
      set (e := emit _ _).
      destruct (set_last_states_history [(1, 0)]
                  (display_update env (dispatch_clockwise e)))
        as (-> & -> & ->).
      destruct (display_update_history env (dispatch_clockwise e))
        as (_ & -> & ->).
      destruct (dispatch_history e) as [(_ & -> & _) _].
      split; [|split]; [| |reflexivity].
      * subst e. rewrite steps_emit. simpl. f_equal. exact Hrs.
      * subst e. unfold dispatch_clockwise.
        destruct (playing _); simpl; now rewrite Hrc.
    + intros Hh. rewrite Hs', (decode_counter_clockwise env r Hh). cbv zeta.
      set (e := emit _ _).
      destruct (set_last_states_history [(0, 1)]
                  (display_update env (dispatch_counter_clockwise e)))
        as (-> & -> & ->).
      destruct (display_update_history env (dispatch_counter_clockwise e))
        as (_ & -> & ->).
      destruct (dispatch_history e) as [_ (_ & -> & _)].
      split; [|split]; [| |reflexivity].
      * subst e. rewrite steps_emit. simpl. f_equal. exact Hrs.
      * subst e. unfold dispatch_counter_clockwise.
        destruct (playing _); simpl; now rewrite Hrc.
    + intros x y Hh Hcw Hccw.
      rewrite Hs', (decode_other env r x y Hh Hcw Hccw).
      repeat split; assumption.
  - intros Ha Hb. subst s'. unfold encoder_rotation. cbv zeta.
    rewrite Ha, Hb, !Z.eqb_refl. reflexivity.
Qed.

Lemma rotation_decoding_witness :
  steps (encoder_rotation turn_env
           (set_last_states [(0, 1); (1, 1)] idle_state)) = [StepClockwise] /\
  last_states (encoder_rotation turn_env
                 (set_last_states [(0, 1); (1, 1)] idle_state)) = [(1, 0)].
Proof.
  destruct (rotation_decoding turn_env
              (set_last_states [(0, 1); (1, 1)] idle_state)) as [H _].
  destruct H as (Hcw & _ & _).
  - right. simpl. lia.
  - destruct Hcw as (H1 & _ & H3); [reflexivity|].
    split; [exact H1 | exact H3].
Defined.

(** ** Passes of the collection loop *)

(** One pass of the loop: 0.23 s go by, the sample becomes [last_sw], and
    the pass counts a press and restarts the timer exactly when the sample
    is 0 while [last_sw] was 1. *)
Lemma collect_body_spec (new_sw : Z) (timer_start : Q) (s : State) :
  let s1 := fst (collect_body new_sw timer_start s) in
  let t1 := snd (collect_body new_sw timer_start s) in
  clock s1 = (clock s + 0.18 + 0.05)%Q /\
  last_sw s1 = new_sw /\
  (new_sw = 0 /\ last_sw s = 1 ->
   press_count s1 = press_count s + 1 /\
   t1 = (clock s + 0.18)%Q /\ last_press_time s1 = (clock s + 0.18)%Q) /\
  (~ (new_sw = 0 /\ last_sw s = 1) ->
   press_count s1 = press_count s /\ t1 = timer_start /\
   last_press_time s1 = last_press_time s).
Proof.
  unfold collect_body. cbv zeta.
  change (last_sw (sleep 0.18 s)) with (last_sw s).
  destruct (Z.eqb_spec new_sw 0) as [E0|E0],
    (Z.eqb_spec (last_sw s) 1) as [E1|E1]; cbn [andb fst snd];
    repeat split; try reflexivity; try tauto.
Qed.

Lemma collect_presses_never_early (samples : list Z) :
  forall (timer_start : Q) (s s' : State) (t' : Q),
    collect_presses samples timer_start s = Some (s', t') ->
    (timer_start <= clock s)%Q ->
    (0.8 <= clock s' - t')%Q /\ (timer_start <= t')%Q /\
    (clock s <= clock s')%Q.
Proof.
  induction samples as [|new_sw samples IH]; intros timer_start s s' t' H Ht;
    simpl in H; destruct (Qltb _ _) eqn:E.
  - discriminate.
  - injection H as <- <-. apply Qltb_false in E. repeat split; lra.
  - pose proof (collect_body_spec new_sw timer_start s) as Hb.
    cbv zeta in Hb.
    destruct (collect_body new_sw timer_start s) as [s1 t1].
    cbn [fst snd] in Hb. destruct Hb as (Hclock & _ & Hpress & Hquiet).
    assert (Ht1 : (timer_start <= t1)%Q /\ (t1 <= clock s1)%Q).
    { rewrite Hclock.
      destruct (Z.eqb_spec new_sw 0) as [E0|E0];
        [destruct (Z.eqb_spec (last_sw s) 1) as [E1|E1]|].
      - destruct Hpress as (_ & -> & _); [tauto|]. lra.
      - destruct Hquiet as (_ & -> & _); [tauto|]. lra.
      - destruct Hquiet as (_ & -> & _); [tauto|]. lra. }
    destruct (IH t1 s1 s' t' H) as (H1 & H2 & H3); [tauto|].
    rewrite Hclock in H3. repeat split; lra.
  - injection H as <- <-. apply Qltb_false in E. repeat split; lra.
Qed.

(** A pass that reads a released button leaves the counter and the timer
    alone. *)
Lemma quiet_pass (new_sw : Z) (samples : list Z) (timer_start : Q)
  (s : State) :
  new_sw <> 0 ->
  (clock s - timer_start < 0.8)%Q ->
  exists s1,
    collect_presses (new_sw :: samples) timer_start s =
      collect_presses samples timer_start s1 /\
    clock s1 = (clock s + 0.18 + 0.05)%Q /\
    press_count s1 = press_count s.
Proof.
  intros Hsw Hlt. apply Qltb_true in Hlt. simpl. rewrite Hlt.
  pose proof (collect_body_spec new_sw timer_start s) as Hb. cbv zeta in Hb.
  destruct (collect_body new_sw timer_start s) as [s1 t1].
  cbn [fst snd] in Hb. destruct Hb as (Hclock & _ & _ & Hquiet).
  destruct Hquiet as (Hc & -> & _); [tauto|].
  exists s1. repeat split; assumption.
Qed.

(** While the timer is the time of the last counted press, it stays so. *)
Lemma collect_presses_last_press (samples : list Z) :
  forall (timer_start : Q) (s s' : State) (t' : Q),
    collect_presses samples timer_start s = Some (s', t') ->
    timer_start = last_press_time s ->
    t' = last_press_time s'.
Proof.
  induction samples as [|new_sw samples IH]; intros timer_start s s' t' H Ht;
    simpl in H; destruct (Qltb _ _).
  - discriminate.
  - injection H as <- <-. exact Ht.
  - pose proof (collect_body_spec new_sw timer_start s) as Hb.
    cbv zeta in Hb.
    destruct (collect_body new_sw timer_start s) as [s1 t1].
    cbn [fst snd] in Hb. destruct Hb as (_ & _ & Hpress & Hquiet).
    apply (IH t1 s1 s' t' H).
    destruct (Z.eqb_spec new_sw 0) as [E0|E0];
      [destruct (Z.eqb_spec (last_sw s) 1) as [E1|E1]|].
    + destruct Hpress as (_ & -> & ->); [tauto|]. reflexivity.
    + destruct Hquiet as (_ & -> & ->); [tauto|]. exact Ht.
    + destruct Hquiet as (_ & -> & ->); [tauto|]. exact Ht.
  - injection H as <- <-. exact Ht.
Qed.

(** Four passes over a released button end the window, 0.92 s after its
    start. *)
Lemma quiet_window_ends (x1 x2 x3 x4 : Z) (rest : list Z) (s : State) :
  released [x1; x2; x3; x4] ->
  exists s',
    collect_presses (x1 :: x2 :: x3 :: x4 :: rest) (clock s) s
      = Some (s', clock s) /\
    (clock s' == clock s + 0.92)%Q /\
    press_count s' = press_count s.
Proof.
  intros Hrel. unfold released in Hrel.
  inversion Hrel as [|? ? H1 Hrel1]; subst.
  inversion Hrel1 as [|? ? H2 Hrel2]; subst.
  inversion Hrel2 as [|? ? H3 Hrel3]; subst.
  inversion Hrel3 as [|? ? H4 _]; subst.
  destruct (quiet_pass x1 (x2 :: x3 :: x4 :: rest) (clock s) s H1)
    as (s1 & -> & Hc1 & Hp1); [lra|].
  destruct (quiet_pass x2 (x3 :: x4 :: rest) (clock s) s1 H2)
    as (s2 & -> & Hc2 & Hp2); [rewrite Hc1; lra|].
  destruct (quiet_pass x3 (x4 :: rest) (clock s) s2 H3)
    as (s3 & -> & Hc3 & Hp3); [rewrite Hc2, Hc1; lra|].
  destruct (quiet_pass x4 rest (clock s) s3 H4)
    as (s4 & -> & Hc4 & Hp4); [rewrite Hc3, Hc2, Hc1; lra|].
  exists s4.
  assert (Hend : (clock s4 == clock s + 0.92)%Q).
  { rewrite Hc4, Hc3, Hc2, Hc1. lra. }
  split; [|split; [exact Hend | congruence]].
  assert (E : Qltb (clock s4 - clock s) 0.8 = false).
  { apply Qltb_false. lra. }
  destruct rest; simpl; rewrite E; reflexivity.
Qed.

(** ** The invariant along the loop *)

Lemma dispatch_well_formed (catalog : list string) (s : State) :
  well_formed catalog s ->
  well_formed catalog (dispatch_clockwise s) /\
  well_formed catalog (dispatch_counter_clockwise s).
Proof.
  intros Hwf. destruct (well_formed_nonempty _ _ Hwf) as [Hne Hn].
  destruct Hwf as (Hcat & Hsel & Hvol & Hmix). subst catalog.
  unfold dispatch_clockwise, dispatch_counter_clockwise, well_formed.
  destruct (playing s); simpl.
  - repeat split; try tauto;
      try (apply py_min_bounds; tauto); apply py_max_bounds; tauto.
  - repeat split; try tauto; apply mod_range; assumption.
Qed.

Lemma record_state_settings (a b : Z) (s : State) :
  same_settings s (record_state a b s).
Proof.
  unfold record_state. cbv zeta. destruct (2 <? _); repeat split.
Qed.

Lemma decode_rotation_well_formed (catalog : list string) (env : Env)
  (s : State) :
  well_formed catalog s -> well_formed catalog (decode_rotation env s).
Proof.
  intros Hwf. unfold decode_rotation.
  destruct (_ =? 2); [|assumption].
  set (e1 := emit (PrintClockwise _) _).
  set (e2 := emit (PrintCounterClockwise _) _).
  assert (H1 : well_formed catalog e1).
  { apply (well_formed_settings catalog s); [repeat split|assumption]. }
  assert (H2 : well_formed catalog e2).
  { apply (well_formed_settings catalog s); [repeat split|assumption]. }
  destruct (_ && _).
  - cbv zeta.
    apply (well_formed_settings catalog (dispatch_clockwise e1));
      [|apply dispatch_well_formed, H1].
    repeat peel_settings.
  - destruct (_ && _); [|assumption]. cbv zeta.
    apply (well_formed_settings catalog (dispatch_counter_clockwise e2));
      [|apply dispatch_well_formed, H2].
    repeat peel_settings.
Qed.

Lemma encoder_rotation_well_formed (catalog : list string) (env : Env)
  (s : State) :
  well_formed catalog s -> well_formed catalog (encoder_rotation env s).
Proof.
  intros Hwf. unfold encoder_rotation. cbv zeta.
  destruct (_ || _); [|assumption].
  apply decode_rotation_well_formed.
  apply (well_formed_settings catalog s);
    [apply record_state_settings|assumption].
Qed.

Lemma register_press_settings (t : Q) (s : State) :
  same_settings s (register_press t s).
Proof.
  unfold register_press. cbv zeta. destruct (Qltb _ _); repeat split.
Qed.

Lemma collect_body_settings (new_sw : Z) (timer_start : Q) (s : State) :
  same_settings s (fst (collect_body new_sw timer_start s)).
Proof.
  unfold collect_body. cbv zeta. destruct (_ && _); repeat split.
Qed.

Lemma collect_presses_settings (samples : list Z) :
  forall (timer_start : Q) (s s' : State) (t' : Q),
    collect_presses samples timer_start s = Some (s', t') ->
    same_settings s s'.
Proof.
  induction samples as [|new_sw samples IH]; intros timer_start s s' t' H;
    simpl in H; destruct (Qltb _ _).
  - discriminate.
  - injection H as <- _. apply same_settings_refl.
  - pose proof (collect_body_settings new_sw timer_start s) as Hb.
    destruct (collect_body new_sw timer_start s) as [s1 t1].
    eapply same_settings_trans; [exact Hb|]. eapply IH, H.
  - injection H as <- _. apply same_settings_refl.
Qed.

Lemma process_presses_well_formed (catalog : list string) (env : Env)
  (s : State) :
  well_formed catalog s -> well_formed catalog (process_presses env s).
Proof.
  intros Hwf. unfold process_presses.
  set (r := if press_count s =? 1 then _ else _).
  assert (Hr : well_formed catalog r).
  { subst r. destruct (_ =? 1).
    - apply (well_formed_settings catalog s);
        [apply play_pause_settings|assumption].
    - destruct (_ && _); [now apply skip_track_well_formed|].
      destruct (_ && _); [now apply skip_track_well_formed|assumption]. }
  apply (well_formed_settings catalog r); [|assumption].
  generalize r; intros ?; repeat split.
Qed.

Lemma encoder_button_well_formed (catalog : list string) (env : Env)
  (t : Q) (s s' : State) :
  well_formed catalog s -> encoder_button env t s = Some s' ->
  well_formed catalog s'.
Proof.
  intros Hwf. unfold encoder_button. cbv zeta.
  destruct (_ && _); [|intros [= <-]; assumption].
  pose proof (well_formed_settings _ _ _ (register_press_settings t s) Hwf)
    as Hreg.
  set (r := register_press t s) in *.
  destruct (press_count r =? 1); [|intros [= <-]; assumption].
  destruct (collect_presses _ _ r) as [[s1 t1]|] eqn:E; [|discriminate].
  intros [= <-]. apply process_presses_well_formed.
  apply (well_formed_settings catalog r); [|assumption].
  eapply collect_presses_settings, E.
Qed.

Lemma check_encoder_well_formed (catalog : list string) (env : Env)
  (s s' : State) :
  well_formed catalog s -> check_encoder env s = Some s' ->
  well_formed catalog s'.
Proof.
  intros Hwf. unfold check_encoder. cbv zeta.
  destruct (encoder_button _ _ _) as [s1|] eqn:E; [|discriminate].
  intros [= <-].
  apply encoder_button_well_formed with (catalog := catalog) in E;
    [|now apply encoder_rotation_well_formed].
  apply (well_formed_settings catalog s1); [|assumption].
  generalize s1; intros ?; repeat split.
Qed.

Lemma main_iteration_well_formed (catalog : list string) (env : Env)
  (s s' : State) :
  well_formed catalog s -> main_iteration env s = Some s' ->
  well_formed catalog s'.
Proof.
  intros Hwf. unfold main_iteration.
  destruct (check_encoder env s) as [s1|] eqn:E; [|discriminate].
  apply check_encoder_well_formed with (catalog := catalog) in E;
    [|assumption].
  cbv zeta. intros [= <-].
  set (s2 := if playing s1 && _ then _ else _).
  assert (H2 : well_formed catalog s2).
  { subst s2. destruct (_ && _); [|assumption].
    apply skip_track_well_formed.
    apply (well_formed_settings catalog s1); [repeat split | assumption]. }
  clearbody s2.
  set (s3 := if Qle_bool 0.1 _ then _ else _).
  assert (H3 : well_formed catalog s3).
  { subst s3. destruct (Qle_bool 0.1 _); [|assumption].
    apply (well_formed_settings catalog s2); [|assumption].
    repeat peel_settings. }
  clearbody s3.
  set (s4 := if Qle_bool 210 _ then _ else _).
  assert (H4 : well_formed catalog s4).
  { subst s4. destruct (Qle_bool 210 _); [|assumption].
    apply (well_formed_settings catalog s3); [|assumption].
    unfold eink_update. cbv zeta. destruct (eink_ok env); repeat split. }
  clearbody s4.
  apply (well_formed_settings catalog s4); [repeat split | assumption].
Qed.

Lemma main_loop_well_formed (catalog : list string) (envs : list Env) :
  forall s s' : State,
    well_formed catalog s -> main_loop envs s = Some s' ->
    well_formed catalog s'.
Proof.
  induction envs as [|env envs IH]; intros s s' Hwf H; simpl in H.
  - injection H as <-. assumption.
  - destruct (main_iteration env s) as [s1|] eqn:E; [|discriminate].
    eapply IH; [|exact H]. eapply main_iteration_well_formed; eassumption.
Qed.

Lemma main_init_well_formed (env : Env) (catalog : list string)
  (a b sw : Z) (now : Q) :
  catalog <> [] ->
  well_formed catalog (main_init env (initial_state catalog a b sw now)).
Proof.
  intros Hne. unfold main_init. cbv zeta.
  set (s1 := set_mixer_volume _ _).
  assert (H1 : well_formed catalog s1).
  { subst s1. unfold well_formed; simpl. repeat split; try lra; try lia.
    destruct catalog; [congruence|simpl; lia]. }
  clearbody s1.
  apply (well_formed_settings catalog s1); [|assumption].
  repeat peel_settings.
Qed.

(** ** The loop goes on *)

Lemma encoder_button_returns (env : Env) (current_time : Q) (s : State) :
  quiet_window env -> exists s', encoder_button env current_time s = Some s'.
Proof.
  unfold encoder_button. cbv zeta.
  intros [Hup | (x1 & x2 & x3 & x4 & rest & Hw & Hrel)].
  { apply Z.eqb_neq in Hup. rewrite Hup. cbn [andb]. eauto. }
  destruct (_ && _); [|eauto].
  destruct (_ =? 1); [|eauto].
  rewrite Hw.
  destruct (quiet_window_ends x1 x2 x3 x4 rest
              (register_press current_time s) Hrel) as (s1 & -> & _).
  eauto.
Qed.

Lemma check_encoder_returns (env : Env) (s : State) :
  quiet_window env -> exists s', check_encoder env s = Some s'.
Proof.
  intros Hq. unfold check_encoder. cbv zeta.
  destruct (encoder_button_returns env (clock s) (encoder_rotation env s) Hq)
    as (s1 & ->).
  eauto.
Qed.

Lemma main_iteration_returns (env : Env) (s : State) :
  quiet_window env -> exists s', main_iteration env s = Some s'.
Proof.
  intros Hq. unfold main_iteration.
  destruct (check_encoder_returns env s Hq) as (s1 & ->). eauto.
Qed.

(** Every run whose collection windows are quiet has a final state. *)
Lemma main_loop_returns (envs : list Env) :
  Forall quiet_window envs ->
  forall s : State, exists s', main_loop envs s = Some s'.
Proof.
  induction 1 as [|env envs Hq _ IH]; intros s; simpl; [eauto|].
  destruct (main_iteration_returns env s Hq) as (s1 & ->). apply IH.
Qed.

Lemma example_run_quiet : Forall quiet_window example_run.
Proof.
  assert (Hup : forall env, gpio_sw env = 1 -> quiet_window env).
  { intros env H. left. rewrite H. discriminate. }
  assert (Hdown : quiet_window (press_env [1; 1; 1; 1])).
  { right. exists 1, 1, 1, 1, []. split; [reflexivity|].
    unfold released. repeat (apply Forall_cons; [discriminate|]).
    apply Forall_nil. }
  unfold example_run.
  repeat (apply Forall_cons;
          [first [exact Hdown | apply Hup; reflexivity]|]).
  apply Forall_nil.
Qed.

(** ** Which operation a press count enters *)

Lemma dispatched_display_update (env : Env) (s : State) :
  dispatched (display_update env s) = dispatched s.
Proof.
  destruct (display_update_frame env s)
    as (_&_&_&_&_&_&_&_&_&_&_&_&_&_&_&_&H). exact H.
Qed.

Lemma dispatched_set_playing (v : bool) (s : State) :
  dispatched (set_playing v s) = dispatched s.
Proof. reflexivity. Qed.

Lemma dispatched_set_current_song_path (v : option string) (s : State) :
  dispatched (set_current_song_path v s) = dispatched s.
Proof. reflexivity. Qed.

Lemma dispatched_set_scroll_position (v : Z) (s : State) :
  dispatched (set_scroll_position v s) = dispatched s.
Proof. reflexivity. Qed.

Lemma dispatched_set_selected (v : Z) (s : State) :
  dispatched (set_selected v s) = dispatched s.
Proof. reflexivity. Qed.

Lemma dispatched_set_press_count (v : Z) (s : State) :
  dispatched (set_press_count v s) = dispatched s.
Proof. reflexivity. Qed.

Ltac push_dispatched :=
  repeat (rewrite ?dispatched_display_update, ?dispatched_set_playing,
            ?dispatched_set_current_song_path, ?dispatched_set_scroll_position,
            ?dispatched_set_selected, ?dispatched_set_press_count;
          try rewrite dispatched_emit; cbn [action_of]);
  rewrite ?app_nil_r.

Lemma play_pause_dispatched (env : Env) (s : State) :
  dispatched (play_pause env s) = dispatched s ++ [PlayPause].
Proof.
  unfold play_pause.
  destruct (playing _); [|destruct (negb _); [destruct (load_ok env)|]];
    push_dispatched; reflexivity.
Qed.

Lemma skip_track_dispatched (env : Env) (forward : bool) (s : State) :
  dispatched (skip_track env forward s) =
  dispatched s ++ [if forward then SkipForward else SkipBackward].
Proof.
  unfold skip_track, skip_select. cbv zeta.
  destruct (_ =? 0).
  - push_dispatched. destruct forward; reflexivity.
  - destruct forward; cbv beta iota;
      (destruct (playing _); [destruct (load_ok env)|]);
      push_dispatched; reflexivity.
Qed.

(** What acting on the collected presses enters: play/pause iff the count
    is 1, skip forward iff it is 2 while playing, skip backward iff it is
    3 while playing, nothing otherwise; the press counter is 0
    afterwards. *)
Lemma process_presses_classifies (env : Env) (s : State) :
  let n := press_count s in
  let p := playing s in
  let s' := process_presses env s in
  (dispatched s' = dispatched s ++ [PlayPause] <-> n = 1) /\
  (dispatched s' = dispatched s ++ [SkipForward] <-> n = 2 /\ p = true) /\
  (dispatched s' = dispatched s ++ [SkipBackward] <-> n = 3 /\ p = true) /\
  (dispatched s' = dispatched s <->
   n <> 1 /\ ~ (n = 2 /\ p = true) /\ ~ (n = 3 /\ p = true)) /\
  (n = 2 \/ n = 3 -> p = false -> dispatched s' = dispatched s) /\
  (4 <= n -> dispatched s' = dispatched s) /\
  press_count s' = 0.
Proof.
  intros n p s'.
  assert (Hcount : press_count s' = 0).
  { subst s'. unfold process_presses.
    generalize (if press_count s =? 1 then play_pause env s
                else if (press_count s =? 2) && playing s
                     then skip_track env true s
                     else if (press_count s =? 3) && playing s
                          then skip_track env false s else s).
    reflexivity. }
  assert (Hd : dispatched s' =
               dispatched s ++
               (if n =? 1 then [PlayPause]
                else if (n =? 2) && p then [SkipForward]
                     else if (n =? 3) && p then [SkipBackward] else [])).
  { subst s' n p. unfold process_presses. cbv zeta.
    rewrite dispatched_set_press_count.
    destruct (press_count s =? 1); [apply play_pause_dispatched|].
    destruct ((press_count s =? 2) && playing s);
      [apply skip_track_dispatched|].
    destruct ((press_count s =? 3) && playing s);
      [apply skip_track_dispatched|].
    now rewrite app_nil_r. }
  assert (Hnil : forall new : list Action,
            dispatched s ++ new = dispatched s <-> new = []).
  { intros new. rewrite <- (app_nil_r (dispatched s)) at 2.
    apply app_inv_head_iff. }
  rewrite Hd, !app_inv_head_iff, !Hnil. clear Hd Hnil. clearbody s'.
  rewrite ?andb_true_r, ?andb_false_r.
  destruct (Z.eqb_spec n 1) as [E1|E1], (Z.eqb_spec n 2) as [E2|E2],
    (Z.eqb_spec n 3) as [E3|E3], p; cbn [andb];
    intuition (try discriminate; try lia).
Qed.

(** ** The stale-gesture guard *)

(** C7. Stale-gesture guard.  A press seen more than 1.5 seconds after
    the previous press is counted from zero: whatever the counter held,
    the count is 1 afterwards, exactly as if the counter had been 0, and
    the tick goes on to open a collection window on that count. *)
Theorem stale_gesture_guard (env : Env) (current_time : Q) (s : State) :
  (1.5 < current_time - last_press_time s)%Q ->
  let r := register_press current_time s in
  press_count r = 1 /\
  last_press_time r = current_time /\
  r = register_press current_time (set_press_count 0 s) /\
  (gpio_sw env = 0 -> last_sw s = 1 ->
   encoder_button env current_time s =
   match collect_presses (gpio_sw_window env) (clock r) r with
   | Some (s1, _) => Some (process_presses env s1)
   | None => None
   end).
Proof.
  intros Hlate r. apply Qltb_true in Hlate.
  assert (Hr : r = set_last_press_time current_time
                     (set_press_count (0 + 1) (set_press_count 0 s))).
  { subst r. unfold register_press. cbv zeta. rewrite Hlate. reflexivity. }
  split; [|split; [|split]].
  - rewrite Hr. reflexivity.
  - rewrite Hr. reflexivity.
  - rewrite Hr. unfold register_press. cbv zeta.
    change (last_press_time (set_press_count 0 s)) with (last_press_time s).
    rewrite Hlate. reflexivity.
  - intros Hsw Hlast. unfold encoder_button. cbv zeta.
    rewrite Hsw, Hlast. cbn [Z.eqb andb Pos.eqb].
    fold r. replace (press_count r =? 1) with true; [reflexivity|].
    rewrite Hr. reflexivity.
Qed.

Lemma stale_gesture_guard_witness :
  press_count (register_press 1000 (set_press_count 2 idle_state)) = 1.
Proof.
  apply (stale_gesture_guard quiet_env 1000 (set_press_count 2 idle_state)).
  vm_compute. reflexivity.
Defined.

(** ** Volume *)

Lemma turn_volume (s : State) (clockwise : bool) :
  (0 <= current_volume s <= 1)%Q ->
  (0 <= current_volume (turn s clockwise) <= 1)%Q.
Proof.
  intros Hv. unfold turn, dispatch_clockwise, dispatch_counter_clockwise.
  destruct clockwise, (playing s); simpl; try assumption.
  - apply py_min_bounds; tauto.
  - apply py_max_bounds; tauto.
Qed.

Lemma turn_forwards (s : State) (clockwise : bool) :
  playing s = true ->
  let s' := turn s clockwise in
  playing s' = true /\
  mixer_volume s' = (current_volume s' / 2)%Q /\
  log s' = log s ++ [MixerSetVolume (current_volume s' / 2)].
Proof.
  intros Hp. unfold turn, dispatch_clockwise, dispatch_counter_clockwise.
  rewrite Hp. destruct clockwise; simpl; repeat split; assumption.
Qed.

Lemma turns_volume (directions : list bool) :
  forall s : State,
    (0 <= current_volume s <= 1)%Q ->
    (0 <= current_volume (turns directions s) <= 1)%Q.
Proof.
  unfold turns.
  induction directions as [|d directions IH]; intros s Hv; simpl.
  - assumption.
  - apply IH, turn_volume, Hv.
Qed.

Lemma clockwise_iter (k : nat) (s : State) :
  playing s = true ->
  playing (Nat.iter k dispatch_clockwise s) = true /\
  current_volume (Nat.iter k dispatch_clockwise s) =
  Nat.iter k (fun v => py_min 1.0 (v + 0.01)) (current_volume s).
Proof.
  intros Hp. induction k as [|k [IHp IHv]]; simpl; [auto|].
  unfold dispatch_clockwise at 1 3. rewrite IHp. simpl.
  split; [assumption|]. now rewrite IHv.
Qed.

(** C8. Volume.  A detent changes the volume by 0.01 and clamps it, so
    along every sequence of detents the volume stays in [[0, 1]]; a
    volume change hands exactly half of the new volume to the mixer; 150
    increments from 0.0 end at 1.0; and along the loop started by [main]
    the volume is in [[0, 1]] and the mixer holds half of it. *)
Theorem volume_clamped_and_halved (s : State) :
  (0 <= current_volume s <= 1)%Q ->
  (forall directions : list bool,
     (0 <= current_volume (turns directions s) <= 1)%Q) /\
  (forall clockwise : bool,
     playing s = true ->
     let s' := turn s clockwise in
     current_volume s' =
       (if clockwise then py_min 1.0 (current_volume s + 0.01)
        else py_max 0.0 (current_volume s - 0.01)) /\
     mixer_volume s' = (current_volume s' / 2)%Q /\
     log s' = log s ++ [MixerSetVolume (current_volume s' / 2)]) /\
  (playing s = true -> current_volume s = 0.0%Q ->
   current_volume (Nat.iter 150 dispatch_clockwise s) = 1.0%Q /\
   forall k : nat,
     (current_volume (Nat.iter k dispatch_clockwise s) <= 1)%Q) /\
  (forall (env : Env) (envs : list Env) (a b sw : Z) (now : Q)
          (final : State),
     songs s <> [] ->
     main_loop envs (main_init env (initial_state (songs s) a b sw now))
       = Some final ->
     (0 <= current_volume final <= 1)%Q /\
     mixer_volume final = (current_volume final / 2)%Q).
Proof.
  intros Hv. split; [|split; [|split]].
  - intros directions. apply turns_volume, Hv.
  - intros clockwise Hp s'.
    destruct (turn_forwards s clockwise Hp) as (_ & Hm & Hl).
    split; [|split; assumption].
    subst s'. unfold turn, dispatch_clockwise, dispatch_counter_clockwise.
    rewrite Hp. destruct clockwise; reflexivity.
  - intros Hp H0. split.
    + destruct (clockwise_iter 150 s Hp) as [_ ->]. rewrite H0.
      vm_compute. reflexivity.
    + intros k. induction k as [|k IH]; simpl; [tauto|].
      destruct (clockwise_iter k s Hp) as [Hpk _].
      unfold dispatch_clockwise at 1. rewrite Hpk. simpl.
      unfold py_min. destruct (Qltb _ _) eqn:E; [|lra].
      apply Qltb_true in E. lra.
  - intros env envs a b sw now final Hne Hrun.
    pose proof (main_init_well_formed env (songs s) a b sw now Hne) as H0.
    destruct (main_loop_well_formed _ _ _ _ H0 Hrun) as (_ & _ & Hr & Hm).
    split; assumption.
Qed.

Lemma volume_clamped_and_halved_witness :
  current_volume
    (Nat.iter 150 dispatch_clockwise
       (set_current_volume 0.0 (set_playing true idle_state))) = 1.0%Q /\
  (mixer_volume (turn (set_playing true idle_state) true) == 0.015)%Q /\
  exists final,
    main_loop example_run (main_init quiet_env idle_state) = Some final /\
    mixer_volume final = (current_volume final / 2)%Q.
Proof.
  destruct (volume_clamped_and_halved
              (set_current_volume 0.0 (set_playing true idle_state)))
    as (_ & _ & H150 & _); [simpl; lra|].
  destruct (volume_clamped_and_halved (set_playing true idle_state))
    as (_ & Hturn & _ & Hloop); [simpl; lra|].
  split; [|split].
  - apply H150; reflexivity.
  - destruct (Hturn true) as (_ & Hm & _); [reflexivity|].
    rewrite Hm. vm_compute. reflexivity.
  - destruct (main_loop_returns example_run example_run_quiet
                (main_init quiet_env idle_state)) as (final & Hrun).
    exists final. split; [exact Hrun|].
    apply (Hloop quiet_env example_run 1 1 1 1000%Q final);
      [discriminate | exact Hrun].
Defined.

(** The scenario of 150 increments from 0.0 in binary64 arithmetic: the
    hundredth sum is 1.0000000000000007, which the clamp brings back to
    1.0; no intermediate volume exceeds 1.0; 150 decrements lead back to
    0.0 without passing below it. *)
Example float_volume_clamped :
  Nat.iter 100 (fun v => v + 0.01)%float 0.0%float
    = 1.0000000000000007%float /\
  Nat.iter 150 float_volume_up 0.0%float = 1.0%float /\
  forallb (fun k => (Nat.iter k float_volume_up 0.0 <=? 1.0)%float)
    (seq 0 151) = true /\
  Nat.iter 150 float_volume_down 1.0%float = 0.0%float /\
  forallb (fun k => (0.0 <=? Nat.iter k float_volume_down 1.0)%float)
    (seq 0 151) = true.
Proof. vm_compute. repeat split. Qed.

(** ** The fuel gauge *)

Lemma swap_word_spec (raw : Z) :
  swap_word raw = (raw mod 256) * 256 + raw / 256.
Proof.
  unfold swap_word.
  change 65280 with (Z.shiftl (Z.ones 8) 8).
  rewrite <- Z.shiftl_land, Z.land_ones by lia.
  rewrite Z.shiftl_mul_pow2, Z.shiftr_div_pow2 by lia.
  reflexivity.
Qed.

Lemma swap_word_bytes (hi lo : Z) :
  0 <= hi < 256 -> 0 <= lo < 256 ->
  swap_word (hi * 256 + lo) = lo * 256 + hi.
Proof.
  intros Hhi Hlo. rewrite swap_word_spec.
  replace (hi * 256 + lo) with (lo + hi * 256) by lia.
  rewrite Z.mod_add, Z.div_add by lia.
  rewrite Z.mod_small, Z.div_small by lia. lia.
Qed.

(** C9. Battery reading.  When both register reads succeed, with the
    16-bit words [hi * 256 + lo] and [hi' * 256 + lo'], the voltage
    returned is the byte-swapped first word [lo * 256 + hi] times
    1.25 / 1000 / 16 and the percentage is the byte-swapped second word
    divided by 256, and nothing is printed; when a read fails the call
    still returns, and returns exactly (0.0, 0.0). *)
Theorem battery_reading (env : Env) (s : State) :
  (forall hi lo hi' lo' : Z,
     0 <= hi < 256 -> 0 <= lo < 256 -> 0 <= hi' < 256 -> 0 <= lo' < 256 ->
     read_word_data env I2C_ADDR REG_VOLTAGE = Some (hi * 256 + lo) ->
     read_word_data env I2C_ADDR REG_CAPACITY = Some (hi' * 256 + lo') ->
     read_battery env s =
     ((inject_Z (lo * 256 + hi) * 1.25 / 1000 / 16,
       inject_Z (lo' * 256 + hi') / 256)%Q, s)) /\
  (read_word_data env I2C_ADDR REG_VOLTAGE = None \/
   read_word_data env I2C_ADDR REG_CAPACITY = None ->
   fst (read_battery env s) = (0.0, 0.0)%Q /\
   snd (read_battery env s) = emit (PrintError "Battery reading failed") s).
Proof.
  split.
  - intros hi lo hi' lo' Hhi Hlo Hhi' Hlo' Hv Hc.
    unfold read_battery. rewrite Hv, Hc. cbv zeta.
    rewrite !swap_word_bytes by assumption. reflexivity.
  - unfold read_battery. intros [Hv | Hc].
    + rewrite Hv. split; reflexivity.
    + rewrite Hc. destruct (read_word_data env I2C_ADDR REG_VOLTAGE);
        split; reflexivity.
Qed.

Lemma battery_reading_witness :
  read_battery quiet_env idle_state =
    ((inject_Z 13330 * 1.25 / 1000 / 16, inject_Z 13330 / 256)%Q,
     idle_state) /\
  fst (read_battery dead_gauge_env idle_state) = (0.0, 0.0)%Q.
Proof.
  destruct (battery_reading quiet_env idle_state) as [Hok _].
  destruct (battery_reading dead_gauge_env idle_state) as [_ Hfail].
  split.
  - apply (Hok 18 52 18 52); try lia; reflexivity.
  - apply Hfail. left. reflexivity.
Defined.

(** ** The scrolling title *)

Lemma get_in_range (s : string) :
  forall n : nat, (n < String.length s)%nat -> exists c, String.get n s = Some c.
Proof.
  induction s as [|c s IH]; intros n Hn; simpl in Hn; [lia|].
  destruct n as [|n]; simpl; [eauto|]. apply IH. lia.
Qed.

(** The character the loop appends on pass [i]. *)
Lemma char_at_wrapped (track : string) (position : Z) (i : nat) :
  0 < len track ->
  exists c,
    String.get (Z.to_nat ((position + Z.of_nat i) mod len track)) track
      = Some c /\
    char_at track ((position + Z.of_nat i) mod len track)
      = String c EmptyString.
Proof.
  intros HL.
  pose proof (Z.mod_pos_bound (position + Z.of_nat i) (len track) HL) as Hr.
  destruct (get_in_range track
              (Z.to_nat ((position + Z.of_nat i) mod len track)))
    as [c Hc]; [unfold len in *; lia|].
  exists c. split; [exact Hc|]. unfold char_at. now rewrite Hc.
Qed.

Lemma scroll_fold (track : string) (position : Z) (passes : list nat) :
  0 < len track ->
  forall display_text : string,
    let result :=
      fold_left
        (fun display_text i =>
           (display_text ++
            char_at track ((position + Z.of_nat i) mod len track))%string)
        passes display_text in
    String.length result
      = (String.length display_text + List.length passes)%nat /\
    (forall k : nat, (k < String.length display_text)%nat ->
       String.get k result = String.get k display_text) /\
    (forall k : nat, (k < List.length passes)%nat ->
       String.get (k + String.length display_text) result =
       String.get
         (Z.to_nat ((position + Z.of_nat (nth k passes 0%nat)) mod len track))
         track).
Proof.
  intros HL. induction passes as [|i passes IH]; intros display_text; simpl.
  - split; [lia|]. split; [reflexivity | intros k Hk; lia].
  - destruct (char_at_wrapped track position i HL) as (c & Hget & Hchar).
    rewrite Hchar.
    specialize (IH (display_text ++ String c EmptyString)%string).
    cbv zeta in IH. destruct IH as (Hlen & Hold & Hnew).
    assert (Hl1 : String.length (display_text ++ String c EmptyString)
                  = S (String.length display_text)).
    { clear. induction display_text as [|d t IHt]; simpl; congruence. }
    rewrite Hl1 in *. repeat split.
    + lia.
    + intros k Hk. rewrite Hold by lia.
      symmetry. apply append_correct1. exact Hk.
    + intros [|k] Hk.
      * pose proof (append_correct2 display_text (String c EmptyString) 0)
          as Hc.
        simpl in Hc |- *. rewrite Hold by lia. rewrite Hget, <- Hc.
        reflexivity.
      * replace (S k + String.length display_text)%nat
          with (k + S (String.length display_text))%nat by lia.
        apply Hnew. lia.
Qed.

Lemma scroll_text_spec (track : string) (position : Z) :
  0 < len track ->
  String.length (scroll_text track position) = 15%nat /\
  forall i : nat, (i < 15)%nat ->
    String.get i (scroll_text track position) =
    String.get (Z.to_nat ((position + Z.of_nat i) mod len track)) track.
Proof.
  intros HL. unfold scroll_text.
  destruct (scroll_fold track position (seq 0 15) HL EmptyString)
    as (Hlen & _ & Hnew).
  split; [exact Hlen|].
  intros i Hi. specialize (Hnew i Hi).
  rewrite seq_nth in Hnew by exact Hi.
  replace (i + String.length EmptyString)%nat with i in Hnew
    by (simpl; lia).
  exact Hnew.
Qed.

(** The example of a 22-character name at position 20: characters 20, 21,
    0, 1, ..., 12. *)
Example scroll_text_example :
  scroll_text "LongTrackTitleNameHere" 20 = "reLongTrackTitl"%string.
Proof. reflexivity. Qed.

(** ** The collection window *)

(** C3, as the code has it.  The collection phase ends only at a check,
    made at the top of a polling pass, that finds at least 0.8 seconds
    gone since the timer was started, and every press counted in the
    window restarts that timer: so the phase never ends early, lasts at
    least 0.8 seconds from its start and (the timer being the time of the
    last counted press, as it is when the window opens) from the last
    counted press, and a press extends it.  Each pass takes 0.23 seconds;
    a window in which the button stays released ends after four passes,
    0.92 seconds, with the counter unchanged. *)
Theorem collection_phase_duration (samples : list Z) (s : State) :
  (forall (s' : State) (t' : Q),
     collect_presses samples (clock s) s = Some (s', t') ->
     (0.8 <= clock s' - clock s)%Q /\
     (0.8 <= clock s' - t')%Q /\ (clock s <= t')%Q /\
     (last_press_time s = clock s -> t' = last_press_time s')) /\
  (forall (new_sw : Z) (timer_start : Q),
     let s1 := fst (collect_body new_sw timer_start s) in
     let t1 := snd (collect_body new_sw timer_start s) in
     clock s1 = (clock s + 0.18 + 0.05)%Q /\
     (new_sw = 0 /\ last_sw s = 1 ->
      press_count s1 = press_count s + 1 /\ t1 = (clock s + 0.18)%Q) /\
     (~ (new_sw = 0 /\ last_sw s = 1) ->
      press_count s1 = press_count s /\ t1 = timer_start)) /\
  (forall (x1 x2 x3 x4 : Z) (rest : list Z),
     samples = x1 :: x2 :: x3 :: x4 :: rest ->
     released [x1; x2; x3; x4] ->
     exists s',
       collect_presses samples (clock s) s = Some (s', clock s) /\
       (clock s' == clock s + 0.92)%Q /\
       press_count s' = press_count s).
Proof.
  split; [|split].
  - intros s' t' H.
    destruct (collect_presses_never_early samples (clock s) s s' t' H)
      as (H1 & H2 & H3); [lra|].
    repeat split; try lra.
    intros Hlast. symmetry in Hlast.
    exact (collect_presses_last_press samples (clock s) s s' t' H Hlast).
  - intros new_sw timer_start.
    destruct (collect_body_spec new_sw timer_start s)
      as (Hc & _ & Hp & Hq).
    split; [exact Hc|]. split.
    + intros H. destruct (Hp H) as (? & ? & _). split; assumption.
    + intros H. destruct (Hq H) as (? & ? & _). split; assumption.
  - intros x1 x2 x3 x4 rest -> Hrel.
    apply quiet_window_ends, Hrel.
Qed.

(** The state in which a first press has just been counted. *)
Lemma collection_phase_duration_witness :
  exists s',
    collect_presses [1; 1; 1; 1]
      (clock (register_press 1000 idle_state))
      (register_press 1000 idle_state)
    = Some (s', clock (register_press 1000 idle_state)) /\
    press_count s' = 1 /\
    (0.8 <= clock s' - last_press_time s')%Q.
Proof.
  destruct (collection_phase_duration [1; 1; 1; 1]
              (register_press 1000 idle_state)) as (Hsafe & _ & Hquiet).
  destruct (Hquiet 1 1 1 1 []) as (s' & Hrun & _ & Hcount).
  - reflexivity.
  - repeat constructor; discriminate.
  - exists s'. split; [exact Hrun|]. split; [exact Hcount|].
    destruct (Hsafe s' _ Hrun) as (_ & Hend & _ & Hlast).
    rewrite <- Hlast; [exact Hend | reflexivity].
Defined.

(** C3, as stated, fails.  With the button released for the whole window
    the phase lasts 0.92 seconds, not at most 0.8; and one more press in
    the window (samples 1, 0, then released) stretches it to 1.38
    seconds. *)
Lemma collection_phase_outlasts_window :
  match collect_presses [1; 1; 1; 1]
          (clock (register_press 1000 idle_state))
          (register_press 1000 idle_state) with
  | Some (s', _) =>
      (clock s' - clock (register_press 1000 idle_state) == 0.92)%Q /\
      ~ (clock s' - clock (register_press 1000 idle_state) <= 0.8)%Q
  | None => False
  end /\
  match collect_presses [1; 0; 1; 1; 1; 1]
          (clock (register_press 1000 idle_state))
          (register_press 1000 idle_state) with
  | Some (s', _) =>
      press_count s' = 2 /\
      (clock s' - clock (register_press 1000 idle_state) == 1.38)%Q
  | None => False
  end.
Proof.
  split.
  - vm_compute. split; [reflexivity | intros H; apply H; reflexivity].
  - vm_compute. split; reflexivity.
Qed.

(** ** Falling edges inside the window *)

(** Whenever a tick opens a window, its sample of the button line was 0;
    if the first sample of the window is 0 as well, the first pass counts
    it, because it is compared with [last_sw], the sample of the tick
    before. *)
Lemma held_button_always_counted (current_time timer_start : Q) (s : State) :
  last_sw s = 1 ->
  let r := register_press current_time s in
  press_count (fst (collect_body 0 timer_start r)) = press_count r + 1.
Proof.
  intros Hlast r.
  destruct (collect_body_spec 0 timer_start r) as (_ & _ & Hpress & _).
  destruct Hpress as (H & _); [|exact H].
  split; [reflexivity|]. subst r. unfold register_press. cbv zeta.
  destruct (Qltb _ _); exact Hlast.
Qed.

(** C4 at a button held through the first in-window sample.  The tick
    reads 0 after a 1 and counts the press; the first pass of the window
    reads 0 again, 0.18 s later, and counts a second press although the
    line never rose: [last_sw] still holds the 1 of the previous tick.
    With playback running, the single long press is acted on as a double
    press. *)
Lemma held_button_counted_twice :
  last_sw idle_state = 1 /\ gpio_sw (press_env [0; 1; 1; 1; 1]) = 0 /\
  match collect_presses [0; 1; 1; 1; 1]
          (clock (register_press 1000 idle_state))
          (register_press 1000 idle_state) with
  | Some (s', _) => press_count s' = 2
  | None => False
  end /\
  match check_encoder (press_env [0; 1; 1; 1; 1])
          (set_playing true idle_state) with
  | Some s' => dispatched s' = [SkipForward]
  | None => False
  end /\
  match check_encoder (press_env [1; 1; 1; 1])
          (set_playing true idle_state) with
  | Some s' => dispatched s' = [PlayPause]
  | None => False
  end.
Proof. vm_compute. repeat split. Qed.

(** * Further properties *)

(** ** Framing by observation *)

Lemma same_on_refl {A : Type} (f : State -> A) (s : State) : same_on f s s.
Proof. reflexivity. Qed.

Lemma same_on_trans {A : Type} (f : State -> A) (s1 s2 s3 : State) :
  same_on f s1 s2 -> same_on f s2 s3 -> same_on f s1 s3.
Proof. unfold same_on. congruence. Qed.

Lemma pick_quiet {A : Type} (f : Effect -> option A) (l : list Effect) :
  Forall (fun e => f e = None) l -> pick f l = [].
Proof.
  induction 1 as [|e l He _ IH]; simpl; [reflexivity|]. now rewrite He.
Qed.

Lemma appends_refl (P : Effect -> Prop) (s : State) : appends P s s.
Proof. exists []. now rewrite app_nil_r. Qed.

Lemma appends_same_log (P : Effect -> Prop) (s s' : State) :
  log s' = log s -> appends P s s'.
Proof. intros H. exists []. now rewrite app_nil_r. Qed.

Lemma appends_trans (P : Effect -> Prop) (s1 s2 s3 : State) :
  appends P s1 s2 -> appends P s2 s3 -> appends P s1 s3.
Proof.
  intros (l1 & H1 & F1) (l2 & H2 & F2). exists (l1 ++ l2).
  rewrite H2, H1, app_assoc. split; [reflexivity|].
  apply Forall_app; split; assumption.
Qed.

Lemma appends_emit (P : Effect -> Prop) (e : Effect) (s : State) :
  P e -> appends P s (emit e s).
Proof. intros H. exists [e]. split; [reflexivity|]. now constructor. Qed.

Lemma appends_pick {A : Type} (P : Effect -> Prop) (f : Effect -> option A)
  (s s' : State) :
  (forall e, P e -> f e = None) -> appends P s s' ->
  pick f (log s') = pick f (log s).
Proof.
  intros Hq (l & -> & Hl). rewrite pick_app, (pick_quiet f l).
  - apply app_nil_r.
  - eapply Forall_impl; [|exact Hl]. exact Hq.
Qed.

(** Peels an [emit] or a setter off the right-hand state. *)
Ltac peel_appends :=
  lazymatch goal with
  | |- appends ?P ?a ?b =>
      first
        [ constr_eq a b; apply appends_refl
        | lazymatch b with
          | emit ?e ?x =>
              apply (appends_trans P a x b); [|apply appends_emit; exact I]
          | ?g ?v ?x =>
              apply (appends_trans P a x b);
              [|apply appends_same_log; generalize x; intros ?; reflexivity]
          end ]
  end.

Lemma sample_battery_appends (env : Env) (s : State) :
  appends display_effect s (snd (sample_battery env s)).
Proof.
  unfold sample_battery, read_battery.
  destruct (Qltb _ _); [|apply appends_refl].
  destruct (read_word_data env I2C_ADDR REG_VOLTAGE);
    [destruct (read_word_data env I2C_ADDR REG_CAPACITY)|];
    cbn [snd]; repeat peel_appends.
Qed.

Lemma draw_frame_appends (env : Env) (percent : Q) (s : State) :
  appends display_effect s (draw_frame env percent s).
Proof.
  unfold draw_frame. cbv zeta.
  destruct (render_title env (song_at s) s) as [[title s1]|] eqn:E;
    [|repeat peel_appends].
  assert (H1 : appends display_effect s s1).
  { apply appends_same_log. unfold render_title in E.
    destruct (Qltb _ (textlength env (song_at s))).
    - destruct (len (song_at s) =? 0); [discriminate|]. cbv zeta in E.
      destruct (Qltb 0.3 _); injection E as _ <-; reflexivity.
    - injection E as _ <-. reflexivity. }
  clear E. revert H1. generalize s1. clear s1. intros s1 H1.
  destruct (oled_ok env); [|repeat peel_appends; exact H1].
  unfold refresh_art. destruct (Qltb _ _); repeat peel_appends; exact H1.
Qed.

(** [display_update] prints errors, shows frames and extracts art, and
    does nothing else that is logged. *)
Lemma display_update_appends (env : Env) (s : State) :
  appends display_effect s (display_update env s).
Proof.
  unfold display_update. cbv zeta.
  set (s2 := set_current_song_path _ (count_update s)).
  assert (H2 : appends display_effect s s2).
  { apply appends_same_log. subst s2. unfold count_update. cbv zeta.
    destruct (_ =? 0); reflexivity. }
  clearbody s2.
  pose proof (sample_battery_appends env s2) as H3.
  destruct (sample_battery env s2) as [percent s3]. cbn [snd] in H3.
  eapply appends_trans; [exact H2|].
  eapply appends_trans; [exact H3|]. apply draw_frame_appends.
Qed.

Lemma display_update_eink (env : Env) (s : State) :
  same_on eink_view s (display_update env s).
Proof.
  destruct (display_update_frame env s)
    as (_&_&_&_&_&_&_&_&_&_&_&_&_&He&_).
  unfold same_on, eink_view, eink_updates. rewrite He.
  rewrite (appends_pick display_effect eink_call s);
    [reflexivity | | apply display_update_appends].
  intros [] H; try reflexivity; destruct H.
Qed.

Lemma display_update_mixer (env : Env) (s : State) :
  same_on mixer_calls s (display_update env s).
Proof.
  unfold same_on, mixer_calls.
  apply (appends_pick display_effect); [|apply display_update_appends].
  intros [] H; try reflexivity; destruct H.
Qed.

Lemma emit_eink (e : Effect) (s : State) :
  eink_call e = None -> same_on eink_view s (emit e s).
Proof.
  intros H. unfold same_on, eink_view, eink_updates, emit; simpl.
  now rewrite pick_app; simpl; rewrite H, app_nil_r.
Qed.

(** One step of a frame argument: the outermost operation applied to a
    state is split off and left to [solve1], on a state variable. *)
Ltac peel_by solve1 :=
  lazymatch goal with
  | |- same_on ?f ?a ?b =>
      first
        [ constr_eq a b; apply same_on_refl
        | lazymatch b with
          | ?h ?x =>
              lazymatch type of x with
              | State =>
                  apply (same_on_trans f a x b);
                  [|pattern x;
                    lazymatch goal with
                    | |- ?P _ =>
                        let H := fresh "Hstep" in
                        assert (H : forall s0 : State, P s0)
                          by (intros ?; cbv beta; solve1);
                        exact (H x)
                    end]
              end
          end ]
  end.

(** A frame argument through straight-line code with conditionals. *)
Ltac peel_all solve1 :=
  repeat first
    [ peel_by solve1
    | lazymatch goal with
      | |- same_on _ _ (if ?c then _ else _) => destruct c
      end ].


(** ** The catalog *)

Lemma endswith_unfold (s suffix : string) :
  endswith s suffix =
  if String.eqb s suffix then true
  else match s with
       | EmptyString => false
       | String _ rest => endswith rest suffix
       end.
Proof. destruct s; reflexivity. Qed.

Lemma endswith_spec (s suffix : string) :
  endswith s suffix = true <-> exists stem, s = (stem ++ suffix)%string.
Proof.
  induction s as [|c s IH]; rewrite endswith_unfold.
  - destruct (String.eqb_spec EmptyString suffix) as [E|E].
    + split; [intros _; exists EmptyString; exact E | reflexivity].
    + split; [discriminate|]. intros (stem & H).
      destruct stem; simpl in H; [congruence | discriminate].
  - destruct (String.eqb_spec (String c s) suffix) as [E|E].
    + split; [intros _; exists EmptyString; exact E | reflexivity].
    + rewrite IH. split.
      * intros (stem & ->). exists (String c stem). reflexivity.
      * intros (stem & H). destruct stem as [|d stem]; simpl in H.
        -- congruence.
        -- injection H as _ ->. now exists stem.
Qed.

Lemma is_audio_spec (f : string) :
  is_audio f = true <->
  exists stem ext,
    f = (stem ++ ext)%string /\
    (ext = ".flac" \/ ext = ".mp3" \/ ext = ".wav")%string.
Proof.
  unfold is_audio. rewrite !orb_true_iff, !endswith_spec. split.
  - intros [[(stem & ->) | (stem & ->)] | (stem & ->)];
      eexists _, _; split; try reflexivity; tauto.
  - intros (stem & ext & -> & [-> | [-> | ->]]); eauto.
Qed.

Lemma insert_song_perm (f : string) (sorted : list string) :
  Permutation (insert_song f sorted) (f :: sorted).
Proof.
  induction sorted as [|g rest IH]; simpl; [reflexivity|].
  destruct (String.leb f g); [reflexivity|].
  rewrite IH. apply perm_swap.
Qed.

Lemma sort_songs_perm (names : list string) :
  Permutation (sort_songs names) names.
Proof.
  induction names as [|f rest IH]; simpl; [reflexivity|].
  rewrite insert_song_perm. now constructor.
Qed.

Lemma insert_song_sorted (f : string) (sorted : list string) :
  Sorted (fun a b => String.leb a b = true) sorted ->
  Sorted (fun a b => String.leb a b = true) (insert_song f sorted).
Proof.
  induction 1 as [|g rest Hs IH Hd]; simpl; [repeat constructor|].
  destruct (String.leb f g) eqn:E.
  - constructor; [now constructor | now constructor].
  - assert (Hgf : String.leb g f = true).
    { destruct (String.leb_total f g); congruence. }
    constructor; [exact IH|].
    destruct rest as [|h rest]; simpl; [now constructor|].
    destruct (String.leb f h); constructor; [exact Hgf|].
    now inversion Hd.
Qed.

Lemma sort_songs_sorted (names : list string) :
  Sorted (fun a b => String.leb a b = true) (sort_songs names).
Proof.
  induction names as [|f rest IH]; simpl; [constructor|].
  now apply insert_song_sorted.
Qed.

(** X1. [load_music] keeps exactly the listed names that end in .flac,
    .mp3 or .wav, in ascending order; the catalog it returns is never
    empty, and the loop that [main] then starts finds its selection inside
    it.  It exits when the directory cannot be listed or holds no such
    name. *)
Theorem load_music_catalog (listing : option (list string)) :
  (forall catalog : list string,
     load_music listing = Some catalog ->
     exists names,
       listing = Some names /\
       Permutation catalog (filter is_audio names) /\
       Sorted (fun f g => String.leb f g = true) catalog /\
       catalog <> [] /\
       (forall f,
           In f catalog <->
           In f names /\
           exists stem ext,
             f = (stem ++ ext)%string /\
             (ext = ".flac" \/ ext = ".mp3" \/ ext = ".wav")%string) /\
       (forall (env : Env) (a b sw : Z) (now : Q),
          well_formed catalog
            (main_init env (initial_state catalog a b sw now)))) /\
  (load_music listing = None <->
   listing = None \/
   exists names,
     listing = Some names /\ forall f, In f names -> is_audio f = false).
Proof.
  split.
  - intros catalog H. destruct listing as [names|]; [|discriminate].
    exists names. split; [reflexivity|].
    unfold load_music in H. cbv zeta in H.
    pose proof (sort_songs_perm (filter is_audio names)) as Hp.
    pose proof (sort_songs_sorted (filter is_audio names)) as Hs.
    destruct (sort_songs (filter is_audio names)) as [|f rest] eqn:E;
      [discriminate|].
    injection H as <-.
    assert (Hne : f :: rest <> []) by discriminate.
    split; [exact Hp|]. split; [exact Hs|]. split; [exact Hne|]. split.
    + intros g. rewrite <- is_audio_spec. split.
      * intros Hin. apply (Permutation_in _ Hp) in Hin.
        apply filter_In in Hin. exact Hin.
      * intros Hin. apply (Permutation_in _ (Permutation_sym Hp)).
        apply filter_In. exact Hin.
    + intros env a b sw now. apply main_init_well_formed, Hne.
  - destruct listing as [names|]; simpl; [|split; auto].
    pose proof (sort_songs_perm (filter is_audio names)) as Hp.
    destruct (sort_songs (filter is_audio names)) as [|f rest] eqn:E.
    + split; [intros _; right; exists names; split; [reflexivity|] | auto].
      apply Permutation_nil in Hp. intros g Hg.
      destruct (is_audio g) eqn:Eg; [|reflexivity].
      assert (Hin : In g (filter is_audio names))
        by (apply filter_In; auto).
      rewrite Hp in Hin. destruct Hin.
    + split; [discriminate|]. intros [H | (names' & [= <-] & Hall)];
        [discriminate|].
      assert (Hin : In f (filter is_audio names)).
      { apply (Permutation_in _ Hp). now left. }
      apply filter_In in Hin. destruct Hin as [Hin Ha].
      rewrite (Hall f Hin) in Ha. discriminate.
Qed.

Lemma load_music_catalog_witness :
  load_music (Some ["b.mp3"; "notes.txt"; "a.flac"; "c.WAV"]%string)
    = Some ["a.flac"; "b.mp3"]%string /\
  ["a.flac"; "b.mp3"]%string <> [].
Proof.
  split; [reflexivity|].
  destruct (load_music_catalog
              (Some ["b.mp3"; "notes.txt"; "a.flac"; "c.WAV"]%string))
    as [H _].
  destruct (H ["a.flac"; "b.mp3"]%string) as (_ & _ & _ & _ & Hne & _);
    [reflexivity | exact Hne].
Defined.

(** ** Ranges of a battery reading *)

Lemma swap_word_involutive (raw : Z) :
  0 <= raw < 65536 ->
  0 <= swap_word raw < 65536 /\ swap_word (swap_word raw) = raw.
Proof.
  intros Hr.
  assert (Hlo : 0 <= raw mod 256 < 256) by (apply Z.mod_pos_bound; lia).
  assert (Hhi : 0 <= raw / 256 < 256).
  { split; [apply Z.div_pos; lia | apply Z.div_lt_upper_bound; lia]. }
  pose proof (Z.div_mod raw 256 ltac:(lia)) as Hdm.
  rewrite swap_word_spec.
  replace (raw mod 256 * 256 + raw / 256)
    with ((raw mod 256) * 256 + raw / 256) by reflexivity.
  split; [lia|].
  rewrite (swap_word_bytes (raw mod 256) (raw / 256) Hlo Hhi). lia.
Qed.

Lemma inject_Z_range (x n : Z) :
  0 <= x < n -> (0 <= inject_Z x)%Q /\ (inject_Z x < inject_Z n)%Q.
Proof.
  intros [H0 Hn]. split.
  - change 0%Q with (inject_Z 0). now rewrite <- Zle_Qle.
  - now rewrite <- Zlt_Qlt.
Qed.

(** X2. On 16-bit words the byte swap of [read_battery] is its own
    inverse and yields a 16-bit word; hence whatever the gauge answers,
    and also when a read fails, the voltage returned lies in [0, 5.12)
    and the percentage in [0, 256): it is not capped at 100, and the
    all-ones register reads as more than 255 percent. *)
Theorem battery_ranges (env : Env) (s : State) :
  (forall reg raw : Z,
     read_word_data env I2C_ADDR reg = Some raw -> 0 <= raw < 65536) ->
  (forall raw : Z,
     0 <= raw < 65536 ->
     0 <= swap_word raw < 65536 /\ swap_word (swap_word raw) = raw) /\
  (0 <= fst (fst (read_battery env s)) < 5.12)%Q /\
  (0 <= snd (fst (read_battery env s)) < 256)%Q /\
  (255 < percent_of (swap_word 65535))%Q.
Proof.
  intros Hword. split; [exact swap_word_involutive|].
  split; [|split; [|reflexivity]].
  - unfold read_battery.
    destruct (read_word_data env I2C_ADDR REG_VOLTAGE) as [rv|] eqn:Ev;
      [|simpl; lra].
    destruct (read_word_data env I2C_ADDR REG_CAPACITY) as [rc|] eqn:Ec;
      [|simpl; lra].
    cbn [fst snd].
    destruct (swap_word_involutive rv (Hword _ _ Ev)) as [Hv _].
    destruct (inject_Z_range _ _ Hv) as [H0 H1].
    unfold voltage_of. change (inject_Z 65536) with 65536%Q in H1.
    assert (E : (inject_Z (swap_word rv) * 1.25 / 1000 / 16
                 == inject_Z (swap_word rv) * (1 # 12800))%Q) by field.
    rewrite E. lra.
  - unfold read_battery.
    destruct (read_word_data env I2C_ADDR REG_VOLTAGE) as [rv|] eqn:Ev;
      [|simpl; lra].
    destruct (read_word_data env I2C_ADDR REG_CAPACITY) as [rc|] eqn:Ec;
      [|simpl; lra].
    cbn [fst snd].
    destruct (swap_word_involutive rc (Hword _ _ Ec)) as [Hc _].
    destruct (inject_Z_range _ _ Hc) as [H0 H1].
    unfold percent_of. change (inject_Z 65536) with 65536%Q in H1.
    assert (E : (inject_Z (swap_word rc) / 256
                 == inject_Z (swap_word rc) * (1 # 256))%Q) by field.
    rewrite E. lra.
Qed.

Lemma battery_ranges_witness :
  swap_word (swap_word 4660) = 4660 /\
  (snd (fst (read_battery quiet_env idle_state)) < 256)%Q.
Proof.
  destruct (battery_ranges quiet_env idle_state) as (Hswap & _ & Hp & _).
  - intros reg raw [= <-]. lia.
  - split; [apply Hswap; lia | apply Hp].
Defined.

(** ** Truncation *)

Lemma py_int_floor (q : Q) : (0 <= q)%Q -> py_int q = Qfloor q.
Proof.
  destruct q as [n d]. unfold Qle; simpl. intros H.
  unfold py_int; simpl. apply Z.quot_div_nonneg; lia.
Qed.

(** ** The knob, turn by turn *)

Lemma record_state_history (a b : Z) (s : State) :
  last_states (record_state a b s) = trim_history (last_states s) (a, b) /\
  steps (record_state a b s) = steps s /\
  encoder_count (record_state a b s) = encoder_count s.
Proof.
  unfold record_state, trim_history. cbv zeta.
  change (last_states (set_last_states ?h s)) with h.
  destruct (2 <? _); repeat split.
Qed.

Lemma clockwise_reported (env : Env) (s : State) :
  let s1 := set_encoder_count (encoder_count s + 1) s in
  let s2 := emit (PrintClockwise (encoder_count s1)) s1 in
  let s' := set_last_states [(1, 0)]
              (display_update env (dispatch_clockwise s2)) in
  steps s' = steps s ++ [StepClockwise] /\
  encoder_count s' = encoder_count s + 1.
Proof.
  cbv zeta. set (e := emit _ _).
  destruct (set_last_states_history [(1, 0)]
              (display_update env (dispatch_clockwise e))) as (_ & -> & ->).
  destruct (display_update_history env (dispatch_clockwise e))
    as (_ & -> & ->).
  destruct (dispatch_history e) as [(_ & -> & _) _].
  split.
  - subst e. rewrite steps_emit. reflexivity.
  - subst e. unfold dispatch_clockwise. destruct (playing _); reflexivity.
Qed.

Lemma counter_clockwise_reported (env : Env) (s : State) :
  let s1 := set_encoder_count (encoder_count s + 1) s in
  let s2 := emit (PrintCounterClockwise (encoder_count s1)) s1 in
  let s' := set_last_states [(0, 1)]
              (display_update env (dispatch_counter_clockwise s2)) in
  steps s' = steps s ++ [StepCounterClockwise] /\
  encoder_count s' = encoder_count s + 1.
Proof.
  cbv zeta. set (e := emit _ _).
  destruct (set_last_states_history [(0, 1)]
              (display_update env (dispatch_counter_clockwise e)))
    as (_ & -> & ->).
  destruct (display_update_history env (dispatch_counter_clockwise e))
    as (_ & -> & ->).
  destruct (dispatch_history e) as [_ (_ & -> & _)].
  split.
  - subst e. rewrite steps_emit. reflexivity.
  - subst e. unfold dispatch_counter_clockwise.
    destruct (playing _); reflexivity.
Qed.

(** [decode_rotation] does to the history and the steps what
    [match_history] says. *)
Lemma decode_rotation_matched (env : Env) (s : State) :
  let r := match_history (last_states s) in
  last_states (decode_rotation env s) = fst r /\
  steps (decode_rotation env s) = steps s ++ snd r /\
  encoder_count (decode_rotation env s)
    = encoder_count s + Z.of_nat (List.length (snd r)).
Proof.
  cbv zeta.
  enough (H : forall h, last_states s = h ->
            last_states (decode_rotation env s) = fst (match_history h) /\
            steps (decode_rotation env s) = steps s ++ snd (match_history h) /\
            encoder_count (decode_rotation env s)
              = encoder_count s
                + Z.of_nat (List.length (snd (match_history h))))
    by (apply H; reflexivity).
  intros h E.
  assert (Hsame : decode_rotation env s = s ->
            match_history h = (h, []) ->
            last_states (decode_rotation env s) = fst (match_history h) /\
            steps (decode_rotation env s) = steps s ++ snd (match_history h) /\
            encoder_count (decode_rotation env s)
              = encoder_count s
                + Z.of_nat (List.length (snd (match_history h)))).
  { intros Hd Hm. rewrite Hd, E, Hm. cbn [fst snd].
    rewrite app_nil_r. simpl. rewrite Z.add_0_r. auto. }
  assert (Hidle : (Z.of_nat (List.length h) =? 2) = false ->
            decode_rotation env s = s).
  { intros Hl. unfold decode_rotation. now rewrite E, Hl. }
  destruct h as [|x [|y [|z l]]].
  - apply Hsame; [|reflexivity]. apply Hidle. reflexivity.
  - apply Hsame; [|reflexivity]. apply Hidle. reflexivity.
  - clear Hsame Hidle. unfold match_history.
    destruct (pair_eqb x (1, 1) && pair_eqb y (1, 0)) eqn:E1.
    { apply andb_true_iff in E1. destruct E1 as [Ex Ey].
      apply pair_eqb_eq in Ex, Ey. subst x y.
      rewrite (decode_clockwise env s E).
      destruct (clockwise_reported env s) as [Hst Hc].
      cbv zeta in Hst, Hc |- *. rewrite Hst, Hc.
      match goal with
      | |- context [set_last_states ?h ?x] =>
          destruct (set_last_states_history h x) as (-> & _)
      end.
      repeat split. }
    destruct (pair_eqb x (1, 1) && pair_eqb y (0, 1)) eqn:E2.
    { apply andb_true_iff in E2. destruct E2 as [Ex Ey].
      apply pair_eqb_eq in Ex, Ey. subst x y.
      rewrite (decode_counter_clockwise env s E).
      destruct (counter_clockwise_reported env s) as [Hst Hc].
      cbv zeta in Hst, Hc |- *. rewrite Hst, Hc.
      match goal with
      | |- context [set_last_states ?h ?x] =>
          destruct (set_last_states_history h x) as (-> & _)
      end.
      repeat split. }
    assert (Hd : decode_rotation env s = s).
    { apply (decode_other env s x y E).
      - intros [= -> ->]. discriminate.
      - intros [= -> ->]. discriminate. }
    rewrite Hd, E. cbn [fst snd]. rewrite app_nil_r. simpl.
    rewrite Z.add_0_r. auto.
  - apply Hsame; [|reflexivity].
    apply Hidle. apply Z.eqb_neq. simpl List.length. lia.
Qed.

Lemma encoder_rotation_history (env : Env) (s : State) :
  pins env <> last_pins s ->
  let r := history_after (last_states s) (pins env) in
  last_states (encoder_rotation env s) = fst r /\
  steps (encoder_rotation env s) = steps s ++ snd r /\
  encoder_count (encoder_rotation env s)
    = encoder_count s + Z.of_nat (List.length (snd r)).
Proof.
  intros Hch.
  assert (Hc : negb (gpio_a env =? last_a s) || negb (gpio_b env =? last_b s)
               = true).
  { apply changed_iff. unfold pins, last_pins in Hch.
    destruct (Z.eq_dec (gpio_a env) (last_a s)) as [Ea|Ea]; [|now left].
    right. intros Eb. apply Hch. now rewrite Ea, Eb. }
  unfold encoder_rotation. cbv zeta. rewrite Hc.
  destruct (record_state_history (gpio_a env) (gpio_b env) s)
    as (Hh & Hst & Hcount).
  destruct (decode_rotation_matched env
              (record_state (gpio_a env) (gpio_b env) s)) as (H1 & H2 & H3).
  cbv zeta in H1, H2, H3. rewrite Hh in H1, H2, H3.
  rewrite Hst in H2. rewrite Hcount in H3.
  unfold history_after, pins. repeat split; assumption.
Qed.

Lemma check_encoder_button_up (env : Env) (s : State) :
  gpio_sw env <> 0 ->
  check_encoder env s =
  Some (set_last_sw (gpio_sw env)
          (set_last_b (gpio_b env)
             (set_last_a (gpio_a env) (encoder_rotation env s)))).
Proof.
  intros Hup. apply Z.eqb_neq in Hup.
  unfold check_encoder, encoder_button. cbv zeta. rewrite Hup. reflexivity.
Qed.

Lemma knob_tick (env : Env) (s : State) :
  gpio_sw env <> 0 -> pins env <> last_pins s ->
  exists s',
    check_encoder env s = Some s' /\
    last_pins s' = pins env /\
    last_states s' = fst (history_after (last_states s) (pins env)) /\
    steps s' = steps s ++ snd (history_after (last_states s) (pins env)) /\
    encoder_count s' =
      encoder_count s
      + Z.of_nat (List.length (snd (history_after (last_states s) (pins env)))).
Proof.
  intros Hup Hch. eexists. split; [apply check_encoder_button_up, Hup|].
  destruct (encoder_rotation_history env s Hch) as (H1 & H2 & H3).
  cbv zeta in H1, H2, H3. rewrite <- H1, <- H2, <- H3.
  generalize (encoder_rotation env s). intros r. repeat split.
Qed.

Lemma poll_app (envs1 envs2 : list Env) :
  forall s : State,
    poll (envs1 ++ envs2) s =
    match poll envs1 s with
    | Some s1 => poll envs2 s1
    | None => None
    end.
Proof.
  induction envs1 as [|env envs1 IH]; intros s; simpl; [reflexivity|].
  destruct (check_encoder env s); [apply IH | reflexivity].
Qed.

Lemma last_cons {A : Type} (l : list A) :
  forall x d : A, last (x :: l) d = last l x.
Proof.
  induction l as [|y l IH]; intros x d; [reflexivity|].
  change (last (x :: y :: l) d) with (last (y :: l) d).
  rewrite (IH y d), (IH y x). reflexivity.
Qed.

(** With the button up, polling does to the history and the steps what
    [knob_run] says. *)
Lemma poll_knob (envs : list Env) :
  forall s : State,
    button_up envs -> changing (last_pins s) (map pins envs) ->
    exists s',
      poll envs s = Some s' /\
      last_pins s' = last (map pins envs) (last_pins s) /\
      last_states s' = fst (knob_run (last_states s) (map pins envs)) /\
      steps s' = steps s ++ snd (knob_run (last_states s) (map pins envs)) /\
      encoder_count s' =
        encoder_count s
        + Z.of_nat
            (List.length (snd (knob_run (last_states s) (map pins envs)))).
Proof.
  induction envs as [|env envs IH]; intros s Hup Hch.
  - exists s. simpl. rewrite app_nil_r, Z.add_0_r. auto.
  - inversion Hup as [|? ? Hup1 Hups]; subst. destruct Hch as [Hch1 Hchs].
    destruct (knob_tick env s Hup1 Hch1) as (s1 & Ht & Hp & Hh & Hst & Hc).
    rewrite <- Hp in Hchs.
    destruct (IH s1 Hups Hchs) as (s' & Hpoll & Hp' & Hh' & Hst' & Hc').
    exists s'. simpl poll. rewrite Ht. split; [exact Hpoll|].
    cbn [map knob_run].
    destruct (history_after (last_states s) (pins env)) as [h1 st1].
    cbn [fst snd] in Hh, Hst, Hc. rewrite Hh in Hh', Hst', Hc'.
    destruct (knob_run h1 (map pins envs)) as [h2 st2].
    cbn [fst snd] in *. rewrite Hh', Hst', Hc', Hst, Hc, Hp', Hp.
    rewrite length_app, Nat2Z.inj_add, <- app_assoc, last_cons.
    repeat split; lia.
Qed.

Lemma cycle_from_rest (clockwise : bool) (envs : list Env) (s : State) :
  at_rest s -> is_cycle clockwise envs ->
  exists s',
    poll envs s = Some s' /\
    steps s' = steps s ++ [step_for clockwise] /\
    encoder_count s' = encoder_count s + 1 /\
    at_rest s'.
Proof.
  intros [Hpins Hhist] [Hmap Hup].
  destruct (poll_knob envs s Hup) as (s' & Hpoll & Hp & Hh & Hst & Hc).
  { rewrite Hmap, Hpins. destruct clockwise; simpl;
      repeat split; discriminate. }
  exists s'. split; [exact Hpoll|].
  rewrite Hmap in Hp, Hh, Hst, Hc. unfold at_rest.
  rewrite Hst, Hc, Hp, Hh.
  destruct Hhist as [-> | (x & ->)]; destruct clockwise; cbn;
    repeat split; eauto.
Qed.

(** X4. From rest, every complete detent is reported exactly once and in
    its direction: polling through any sequence of full quadrature cycles,
    clockwise ((1,0), (0,0), (0,1), (1,1)) or counter-clockwise ((0,1),
    (0,0), (1,0), (1,1)), with the button up, adds exactly one step per
    cycle to the reported steps, in order, and ends at rest again. *)
Theorem detents_reported_once (cycles : list (bool * list Env)) (s : State) :
  at_rest s ->
  Forall (fun c => is_cycle (fst c) (snd c)) cycles ->
  exists s',
    poll (List.concat (map snd cycles)) s = Some s' /\
    steps s' = steps s ++ map (fun c => step_for (fst c)) cycles /\
    encoder_count s' = encoder_count s + Z.of_nat (List.length cycles) /\
    at_rest s'.
Proof.
  revert s. induction cycles as [|[clockwise envs] cycles IH];
    intros s Hrest Hall.
  - exists s. simpl. rewrite app_nil_r, Z.add_0_r. auto.
  - inversion Hall as [|? ? Hc Hcs]; subst. cbn [fst snd] in Hc.
    destruct (cycle_from_rest clockwise envs s Hrest Hc)
      as (s1 & Hp1 & Hst1 & Hc1 & Hrest1).
    destruct (IH s1 Hrest1 Hcs) as (s' & Hp' & Hst' & Hc' & Hrest').
    exists s'. cbn [map List.concat fst snd]. rewrite poll_app, Hp1.
    split; [exact Hp'|]. split; [|split; [|exact Hrest']].
    + rewrite Hst', Hst1, <- app_assoc. reflexivity.
    + rewrite Hc', Hc1. simpl List.length. lia.
Qed.

Lemma detents_reported_once_witness :
  exists s',
    poll (clockwise_envs ++ counter_clockwise_envs ++ clockwise_envs)
      rested_state = Some s' /\
    steps s' = [StepClockwise; StepCounterClockwise; StepClockwise].
Proof.
  assert (Hup : forall a b c d e f g h,
            button_up [knob_env a b; knob_env c d; knob_env e f; knob_env g h]).
  { intros. repeat (apply Forall_cons; [discriminate|]). apply Forall_nil. }
  destruct (detents_reported_once
              [(true, clockwise_envs); (false, counter_clockwise_envs);
               (true, clockwise_envs)] rested_state)
    as (s' & Hp & Hst & _).
  - split; [reflexivity|]. right. exists (0, 1). reflexivity.
  - repeat (apply Forall_cons; [split; [reflexivity | apply Hup]|]).
    apply Forall_nil.
  - exists s'. split; [|exact Hst].
    cbn [map List.concat snd] in Hp. rewrite app_nil_r in Hp. exact Hp.
Defined.

(** X5. After start-up the first detent goes unreported: with the empty
    history that the first call creates and the pins at rest, a complete
    cycle in either direction reports no step, and only leaves the decoder
    at rest, ready for the detents after it. *)
Theorem first_detent_unreported (clockwise : bool) (envs : list Env)
  (s : State) :
  last_states s = [] -> last_pins s = (1, 1) ->
  is_cycle clockwise envs ->
  exists s',
    poll envs s = Some s' /\
    steps s' = steps s /\ encoder_count s' = encoder_count s /\
    at_rest s'.
Proof.
  intros Hh0 Hpins [Hmap Hup].
  destruct (poll_knob envs s Hup) as (s' & Hpoll & Hp & Hh & Hst & Hc).
  { rewrite Hmap, Hpins. destruct clockwise; simpl;
      repeat split; discriminate. }
  exists s'. split; [exact Hpoll|].
  rewrite Hmap, Hh0 in Hh, Hst, Hc. rewrite Hmap in Hp. unfold at_rest.
  rewrite Hst, Hc, Hp, Hh.
  destruct clockwise; cbn; rewrite ?app_nil_r, ?Z.add_0_r;
    repeat split; eauto.
Qed.

Lemma first_detent_unreported_witness :
  exists s', poll clockwise_envs idle_state = Some s' /\ steps s' = [].
Proof.
  destruct (first_detent_unreported true clockwise_envs idle_state)
    as (s' & Hp & Hst & _).
  - reflexivity.
  - reflexivity.
  - split; [reflexivity|].
    repeat (apply Forall_cons; [discriminate|]). apply Forall_nil.
  - exists s'. split; [exact Hp | exact Hst].
Defined.

(** X6. A step is reported as soon as the pair leaves rest, not when the
    detent is complete: from rest, the pair going to (1,0) and straight
    back to (1,1) reports one clockwise step, going to (0,1) and back one
    counter-clockwise step, and the decoder is at rest again, so that a
    contact bouncing between rest and a neighbouring pair is counted once
    per bounce. *)
Theorem bounce_reported (clockwise : bool) (envs : list Env) (s : State) :
  at_rest s -> button_up envs ->
  map pins envs = [if clockwise then (1, 0) else (0, 1); (1, 1)] ->
  exists s',
    poll envs s = Some s' /\
    steps s' = steps s ++ [step_for clockwise] /\
    at_rest s'.
Proof.
  intros [Hpins Hhist] Hup Hmap.
  destruct (poll_knob envs s Hup) as (s' & Hpoll & Hp & Hh & Hst & _).
  { rewrite Hmap, Hpins. destruct clockwise; simpl;
      repeat split; discriminate. }
  exists s'. split; [exact Hpoll|].
  rewrite Hmap in Hp, Hh, Hst. unfold at_rest. rewrite Hst, Hp, Hh.
  destruct Hhist as [-> | (x & ->)]; destruct clockwise; cbn;
    repeat split; eauto.
Qed.

Lemma bounce_reported_witness :
  exists s',
    poll [knob_env 1 0; knob_env 1 1; knob_env 1 0; knob_env 1 1]
      rested_state = Some s' /\
    steps s' = [StepClockwise; StepClockwise].
Proof.
  assert (Hup : button_up [knob_env 1 0; knob_env 1 1]).
  { repeat (apply Forall_cons; [discriminate|]). apply Forall_nil. }
  destruct (bounce_reported true [knob_env 1 0; knob_env 1 1] rested_state)
    as (s1 & Hp1 & Hst1 & Hrest1).
  - split; [reflexivity|]. right. exists (0, 1). reflexivity.
  - exact Hup.
  - reflexivity.
  - destruct (bounce_reported true [knob_env 1 0; knob_env 1 1] s1 Hrest1 Hup)
      as (s2 & Hp2 & Hst2 & _); [reflexivity|].
    exists s2. split.
    + change [knob_env 1 0; knob_env 1 1; knob_env 1 0; knob_env 1 1]
        with ([knob_env 1 0; knob_env 1 1] ++ [knob_env 1 0; knob_env 1 1]).
      rewrite poll_app, Hp1. exact Hp2.
    + rewrite Hst2, Hst1. reflexivity.
Defined.

(** ** The window, pass by pass *)

Lemma collect_presses_passes (samples : list Z) :
  forall (timer_start : Q) (s s' : State) (t' : Q),
    collect_presses samples timer_start s = Some (s', t') ->
    exists k : nat,
      (k <= List.length samples)%nat /\
      (clock s' == clock s + inject_Z (Z.of_nat k) * 0.23)%Q /\
      press_count s' =
        press_count s + falling_edges (last_sw s) (firstn k samples) /\
      last_sw s' = last (firstn k samples) (last_sw s).
Proof.
  induction samples as [|new_sw samples IH]; intros timer_start s s' t' H;
    simpl in H; destruct (Qltb _ _).
  - discriminate.
  - injection H as <- _. exists 0%nat.
    cbn [firstn falling_edges last]. change (inject_Z (Z.of_nat 0)) with 0%Q.
    split; [lia|]. split; [lra|]. split; [lia|reflexivity].
  - pose proof (collect_body_spec new_sw timer_start s) as Hb.
    cbv zeta in Hb.
    destruct (collect_body new_sw timer_start s) as [s1 t1].
    cbn [fst snd] in Hb. destruct Hb as (Hclock & Hsw & Hpress & Hquiet).
    destruct (IH t1 s1 s' t' H) as (k & Hk & Hc & Hp & Hl).
    exists (S k). cbn [firstn falling_edges List.length].
    rewrite last_cons. rewrite Hsw in Hp, Hl. split; [lia|]. split; [|split].
    + rewrite Hc, Hclock, Nat2Z.inj_succ. unfold Z.succ.
      rewrite inject_Z_plus. change (inject_Z 1) with 1%Q.
      ring.
    + rewrite Hp.
      destruct (Z.eqb_spec new_sw 0) as [E0|E0],
        (Z.eqb_spec (last_sw s) 1) as [E1|E1]; cbn [andb].
      * destruct Hpress as (-> & _); [tauto|]. lia.
      * destruct Hquiet as (-> & _); [tauto|]. lia.
      * destruct Hquiet as (-> & _); [tauto|]. lia.
      * destruct Hquiet as (-> & _); [tauto|]. lia.
    + exact Hl.
  - injection H as <- _. exists 0%nat.
    cbn [firstn falling_edges last]. change (inject_Z (Z.of_nat 0)) with 0%Q.
    split; [lia|]. split; [lra|]. split; [lia|reflexivity].
Qed.

(** X7. A collection window that ends has read its samples in passes of
    0.23 seconds each, at least four of them, and has added to the press
    counter exactly the number of 1-to-0 transitions in the sequence made
    of [last_sw] (the sample of the tick before the press) followed by the
    samples it read; [last_sw] is then the last sample read. *)
Theorem window_counts_edges (samples : list Z) (s s' : State) (t' : Q) :
  collect_presses samples (clock s) s = Some (s', t') ->
  exists k : nat,
    (4 <= k <= List.length samples)%nat /\
    (clock s' == clock s + inject_Z (Z.of_nat k) * 0.23)%Q /\
    press_count s' =
      press_count s + falling_edges (last_sw s) (firstn k samples) /\
    last_sw s' = last (firstn k samples) (last_sw s).
Proof.
  intros H.
  destruct (collect_presses_passes samples (clock s) s s' t' H)
    as (k & Hk & Hc & Hp & Hl).
  exists k. repeat split; try assumption.
  destruct (collect_presses_never_early samples (clock s) s s' t' H)
    as (Hend & Ht & _); [lra|].
  destruct (Nat.le_gt_cases 4 k) as [Hge|Hlt]; [exact Hge|exfalso].
  assert (Hz : Z.of_nat k <= 3) by lia.
  rewrite Zle_Qle in Hz. change (inject_Z 3) with 3%Q in Hz.
  revert Hc Hz. generalize (inject_Z (Z.of_nat k)). intros q Hc Hz. lra.
Qed.

Lemma window_counts_edges_witness :
  exists (s' : State) (t' : Q),
    collect_presses [1; 0; 1; 0; 1; 1; 1; 1]
      (clock (register_press 1000 idle_state))
      (register_press 1000 idle_state) = Some (s', t') /\
    exists k : nat,
      (4 <= k <= List.length [1; 0; 1; 0; 1; 1; 1; 1])%nat /\
      press_count s' =
        press_count (register_press 1000 idle_state)
        + falling_edges (last_sw (register_press 1000 idle_state))
            (firstn k [1; 0; 1; 0; 1; 1; 1; 1]).
Proof.
  destruct (collect_presses [1; 0; 1; 0; 1; 1; 1; 1]
              (clock (register_press 1000 idle_state))
              (register_press 1000 idle_state)) as [[s' t']|] eqn:E.
  - exists s', t'. split; [reflexivity|].
    destruct (window_counts_edges _ _ _ _ E) as (k & Hk & _ & Hp & _).
    exists k. split; [exact Hk | exact Hp].
  - vm_compute in E. discriminate.
Defined.

(** ** What blocks a tick *)

Lemma display_update_outside_rotation (env : Env) (s : State) :
  same_on outside_rotation s (display_update env s).
Proof.
  destruct (display_update_frame env s)
    as (_&Hpl&Hso&_&_&Hsw&_&_&_&Ht&Hp&_&_&_&Hc&_&Hd).
  pose proof (display_update_eink env s) as He.
  unfold same_on, eink_view in He. injection He as He1 He2.
  unfold same_on, outside_rotation.
  now rewrite Hsw, Ht, Hp, Hc, Hd, Hpl, Hso, He1, He2.
Qed.

Lemma emit_outside_rotation (e : Effect) (s : State) :
  action_of e = None -> eink_call e = None ->
  same_on outside_rotation s (emit e s).
Proof.
  intros H1 H2. pose proof (emit_eink e s H2) as He.
  apply (f_equal snd) in He. cbn [eink_view snd] in He.
  unfold same_on, outside_rotation. rewrite dispatched_emit, H1, app_nil_r, He.
  reflexivity.
Qed.

Ltac outside_rotation_step :=
  first [ apply display_update_outside_rotation
        | apply emit_outside_rotation; reflexivity
        | reflexivity ].

Lemma dispatch_clockwise_outside_rotation (s : State) :
  same_on outside_rotation s (dispatch_clockwise s).
Proof.
  unfold dispatch_clockwise. destruct (playing s); cbv zeta;
    repeat peel_by outside_rotation_step.
Qed.

Lemma dispatch_counter_clockwise_outside_rotation (s : State) :
  same_on outside_rotation s (dispatch_counter_clockwise s).
Proof.
  unfold dispatch_counter_clockwise. destruct (playing s); cbv zeta;
    repeat peel_by outside_rotation_step.
Qed.

Ltac rotation_step :=
  first [ apply dispatch_clockwise_outside_rotation
        | apply dispatch_counter_clockwise_outside_rotation
        | outside_rotation_step ].

Lemma record_state_outside_rotation (a b : Z) (s : State) :
  same_on outside_rotation s (record_state a b s).
Proof.
  unfold record_state. cbv zeta. destruct (2 <? _); reflexivity.
Qed.

Lemma decode_rotation_outside_rotation (env : Env) (s : State) :
  same_on outside_rotation s (decode_rotation env s).
Proof.
  unfold decode_rotation.
  destruct (_ =? 2); [|apply same_on_refl].
  destruct (_ && _); [cbv zeta; repeat peel_by rotation_step|].
  destruct (_ && _); [cbv zeta; repeat peel_by rotation_step|].
  apply same_on_refl.
Qed.

Lemma encoder_rotation_outside_rotation (env : Env) (s : State) :
  same_on outside_rotation s (encoder_rotation env s).
Proof.
  unfold encoder_rotation. cbv zeta.
  destruct (_ || _); [|apply same_on_refl].
  apply (same_on_trans _ s (record_state (gpio_a env) (gpio_b env) s) _).
  - apply record_state_outside_rotation.
  - apply decode_rotation_outside_rotation.
Qed.

(** ** What the playback operations leave alone *)

Lemma display_update_outside_playback (env : Env) (s : State) :
  same_on outside_playback s (display_update env s).
Proof.
  destruct (display_update_frame env s)
    as (_&_&Hso&Ha&Hb&Hsw&Hv&Hm&Hc&Ht&Hp&Hl&Hd&He&Hk&Hst&_).
  pose proof (display_update_eink env s) as Hu.
  apply (f_equal snd) in Hu. cbn [eink_view snd] in Hu.
  unfold same_on, outside_playback, last_pins.
  now rewrite Hso, Ha, Hb, Hsw, Hv, Hm, Hc, Ht, Hp, Hl, Hd, He, Hk, Hst, Hu.
Qed.

Lemma emit_outside_playback (e : Effect) (s : State) :
  step_of e = None -> eink_call e = None ->
  same_on outside_playback s (emit e s).
Proof.
  intros H1 H2. pose proof (emit_eink e s H2) as He.
  apply (f_equal snd) in He. cbn [eink_view snd] in He.
  unfold same_on, outside_playback. rewrite steps_emit, H1, app_nil_r, He.
  reflexivity.
Qed.

Ltac outside_playback_step :=
  first [ apply display_update_outside_playback
        | apply emit_outside_playback; reflexivity
        | reflexivity ].

Lemma play_pause_outside_playback (env : Env) (s : State) :
  same_on outside_playback s (play_pause env s).
Proof.
  unfold play_pause. cbv zeta.
  destruct (playing _); [repeat peel_by outside_playback_step|].
  destruct (negb _); [|repeat peel_by outside_playback_step].
  destruct (load_ok env); repeat peel_by outside_playback_step.
Qed.

Lemma skip_track_outside_playback (env : Env) (forward : bool) (s : State) :
  same_on outside_playback s (skip_track env forward s).
Proof.
  unfold skip_track, skip_select. cbv zeta.
  destruct (_ =? 0); [repeat peel_by outside_playback_step|].
  destruct forward; cbv beta iota;
    (destruct (playing _);
     [destruct (load_ok env)|]; repeat peel_by outside_playback_step).
Qed.

Lemma process_presses_outside (env : Env) (s : State) :
  let s' := process_presses env s in
  press_count s' = 0 /\ clock s' = clock s /\ last_sw s' = last_sw s /\
  decoder_view s' = decoder_view s /\ eink_view s' = eink_view s /\
  songs s' = songs s.
Proof.
  cbv zeta.
  assert (H : same_on outside_playback s
                (if press_count s =? 1 then play_pause env s
                 else if (press_count s =? 2) && playing s
                      then skip_track env true s
                      else if (press_count s =? 3) && playing s
                           then skip_track env false s else s)).
  { destruct (_ =? 1); [apply play_pause_outside_playback|].
    destruct (_ && _); [apply skip_track_outside_playback|].
    destruct (_ && _); [apply skip_track_outside_playback|].
    apply same_on_refl. }
  unfold process_presses. cbv zeta.
  revert H. generalize (if press_count s =? 1 then play_pause env s
                 else if (press_count s =? 2) && playing s
                      then skip_track env true s
                      else if (press_count s =? 3) && playing s
                           then skip_track env false s else s).
  intros t H. unfold same_on, outside_playback in H.
  injection H as H1 H2 H3 H4 H5 H6 H7 H8 H9 H10 H11 H12 H13 H14.
  unfold decoder_view, eink_view.
  change (last_states (set_press_count 0 t)) with (last_states t).
  change (encoder_count (set_press_count 0 t)) with (encoder_count t).
  change (steps (set_press_count 0 t)) with (steps t).
  change (eink_updates (set_press_count 0 t)) with (eink_updates t).
  change (last_eink_update (set_press_count 0 t)) with (last_eink_update t).
  change (clock (set_press_count 0 t)) with (clock t).
  change (last_sw (set_press_count 0 t)) with (last_sw t).
  change (songs (set_press_count 0 t)) with (songs t).
  repeat split; congruence.
Qed.

(** ** What counting presses leaves alone *)

Lemma register_press_outside (t : Q) (s : State) :
  same_on outside_window s (register_press t s) /\
  clock (register_press t s) = clock s /\
  last_sw (register_press t s) = last_sw s /\
  (press_count s = 0 -> press_count (register_press t s) = 1).
Proof.
  unfold register_press. cbv zeta.
  destruct (Qltb _ _); repeat split; intros ->; reflexivity.
Qed.

Lemma collect_body_outside (new_sw : Z) (timer_start : Q) (s : State) :
  same_on outside_window s (fst (collect_body new_sw timer_start s)).
Proof.
  unfold collect_body. cbv zeta. destruct (_ && _); reflexivity.
Qed.

Lemma collect_presses_outside (samples : list Z) :
  forall (timer_start : Q) (s s' : State) (t' : Q),
    collect_presses samples timer_start s = Some (s', t') ->
    same_on outside_window s s'.
Proof.
  induction samples as [|new_sw samples IH]; intros timer_start s s' t' H;
    simpl in H; destruct (Qltb _ _).
  - discriminate.
  - injection H as <- _. apply same_on_refl.
  - pose proof (collect_body_outside new_sw timer_start s) as Hb.
    destruct (collect_body new_sw timer_start s) as [s1 t1].
    cbn [fst] in Hb.
    apply (same_on_trans _ s s1 s' Hb). exact (IH t1 s1 s' t' H).
  - injection H as <- _. apply same_on_refl.
Qed.

Lemma outside_window_fields (s s' : State) :
  same_on outside_window s s' ->
  decoder_view s' = decoder_view s /\ eink_view s' = eink_view s /\
  dispatched s' = dispatched s /\ songs s' = songs s /\
  playing s' = playing s /\ selected s' = selected s.
Proof.
  unfold same_on, outside_window, decoder_view, eink_view, eink_updates,
    steps, dispatched.
  intros H. injection H as H1 H2 H3 H4 H5 H6 H7 H8 H9 H10 H11.
  repeat split; congruence.
Qed.

Lemma outside_rotation_fields (s s' : State) :
  same_on outside_rotation s s' ->
  last_sw s' = last_sw s /\ press_count s' = press_count s /\
  clock s' = clock s /\ dispatched s' = dispatched s /\
  eink_view s' = eink_view s /\ songs s' = songs s /\
  playing s' = playing s.
Proof.
  unfold same_on, outside_rotation, eink_view.
  intros H. injection H as H1 H2 H3 H4 H5 H6 H7 H8 H9.
  repeat split; congruence.
Qed.

(** The button side of a tick that sees no press does nothing. *)
Lemma encoder_button_idle (env : Env) (t : Q) (s : State) :
  ~ (gpio_sw env = 0 /\ last_sw s = 1) -> encoder_button env t s = Some s.
Proof.
  intros H. unfold encoder_button. cbv zeta.
  destruct (Z.eqb_spec (gpio_sw env) 0), (Z.eqb_spec (last_sw s) 1);
    cbn [andb]; tauto.
Qed.

(** The button side of a tick that sees a press, the counter being zero:
    the press is registered, the window runs, the count is acted on. *)
Lemma encoder_button_press (env : Env) (t : Q) (s s' : State) :
  gpio_sw env = 0 -> last_sw s = 1 -> press_count s = 0 ->
  encoder_button env t s = Some s' ->
  exists (s2 : State) (t' : Q),
    collect_presses (gpio_sw_window env) (clock s) (register_press t s)
      = Some (s2, t') /\
    s' = process_presses env s2.
Proof.
  intros Hsw Hlast Hp H. unfold encoder_button in H. cbv zeta in H.
  rewrite Hsw, Hlast in H. cbn [Z.eqb Pos.eqb andb] in H.
  destruct (register_press_outside t s) as (_ & Hc & _ & H1).
  rewrite (H1 Hp), Hc in H. cbn [Z.eqb Pos.eqb] in H.
  destruct (collect_presses _ _ _) as [[s2 t']|]; [|discriminate].
  injection H as <-. exists s2, t'. split; reflexivity.
Qed.

(** X8. Only a button press makes a tick block.  With no press pending, a
    tick that does not find the button newly pressed returns at the very
    clock value it started at and enters no playback operation, whatever
    the encoder did; a tick that finds it newly pressed returns, if at
    all, at least 0.8 seconds later.  Either way no press is left
    pending. *)
Theorem tick_blocks_only_on_press (env : Env) (s : State) :
  press_count s = 0 ->
  (~ (gpio_sw env = 0 /\ last_sw s = 1) ->
   exists s', check_encoder env s = Some s' /\ clock s' = clock s /\
              dispatched s' = dispatched s /\ press_count s' = 0) /\
  (gpio_sw env = 0 -> last_sw s = 1 ->
   forall s', check_encoder env s = Some s' ->
     (0.8 <= clock s' - clock s)%Q /\ press_count s' = 0).
Proof.
  intros Hp.
  destruct (outside_rotation_fields _ _ (encoder_rotation_outside_rotation env s))
    as (Hsw & Hpc & Hc & Hd & _).
  unfold check_encoder. cbv zeta.
  revert Hsw Hpc Hc Hd. generalize (encoder_rotation env s).
  intros r Hsw Hpc Hc Hd. split.
  - intros Hno. rewrite encoder_button_idle by (rewrite Hsw; exact Hno).
    eexists. split; [reflexivity|].
    change (clock (set_last_sw ?a (set_last_b ?b (set_last_a ?c ?x))))
      with (clock x).
    change (press_count (set_last_sw ?a (set_last_b ?b (set_last_a ?c ?x))))
      with (press_count x).
    change (dispatched (set_last_sw ?a (set_last_b ?b (set_last_a ?c ?x))))
      with (dispatched x).
    repeat split; congruence.
  - intros Hdown Hup s' H.
    destruct (encoder_button env (clock s) r) as [s1|] eqn:E; [|discriminate].
    injection H as <-.
    destruct (encoder_button_press env (clock s) r s1) as (s2 & t' & Hw & ->);
      [assumption | congruence | congruence | exact E |].
    destruct (register_press_outside (clock s) r) as (_ & Hrc & _).
    destruct (collect_presses_never_early _ _ _ _ _ Hw) as (Hend & Ht & _);
      [rewrite Hrc; lra|].
    destruct (process_presses_outside env s2) as (Hz & Hk & _).
    cbv zeta in Hz, Hk.
    change (clock (set_last_sw ?a (set_last_b ?b (set_last_a ?c ?x))))
      with (clock x).
    change (press_count (set_last_sw ?a (set_last_b ?b (set_last_a ?c ?x))))
      with (press_count x).
    rewrite Hk, Hz. split; [|reflexivity]. rewrite <- Hc. lra.
Qed.

Lemma tick_blocks_only_on_press_witness :
  exists s', check_encoder turn_env idle_state = Some s' /\
             clock s' = clock idle_state.
Proof.
  destruct (tick_blocks_only_on_press turn_env idle_state) as [H _];
    [reflexivity|].
  destruct H as (s' & H1 & H2 & _).
  - intros [H _]. discriminate H.
  - exists s'. split; assumption.
Defined.

(** ** The invariant between ticks *)

Lemma tidy_same (s s' : State) :
  same_on tidy_view s s' -> tidy s -> tidy s'.
Proof.
  unfold same_on, tidy_view, tidy. intros H.
  injection H as -> -> -> ->. tauto.
Qed.

Lemma outside_playback_tidy (s s' : State) :
  same_on outside_playback s s' -> same_on tidy_view s s'.
Proof.
  unfold same_on, outside_playback, tidy_view. intros H.
  injection H as H1 H2 H3 H4 H5 H6 H7 H8 H9 H10 H11 H12 H13 H14.
  congruence.
Qed.

Lemma decoder_view_fields (s s' : State) :
  decoder_view s' = decoder_view s ->
  last_states s' = last_states s /\ encoder_count s' = encoder_count s /\
  steps s' = steps s.
Proof.
  unfold decoder_view. intros H. injection H as H1 H2 H3. auto.
Qed.

Lemma history_after_length (history : list (Z * Z)) (sample : Z * Z) :
  (List.length history <= 2)%nat ->
  (List.length (fst (history_after history sample)) <= 2)%nat.
Proof.
  intros H. unfold history_after, trim_history. cbv zeta.
  destruct history as [|x [|y [|z rest]]]; simpl in H; try lia.
  - simpl. lia.
  - cbn [app List.length Z.of_nat Z.ltb Z.compare Pos.of_succ_nat Pos.succ
         Pos.compare Pos.compare_cont].
    unfold match_history. destruct (_ && _); [simpl; lia|].
    destruct (_ && _); simpl; lia.
  - cbn [app List.length Z.of_nat Z.ltb Z.compare Pos.of_succ_nat Pos.succ
         Pos.compare Pos.compare_cont tl].
    unfold match_history. destruct (_ && _); [simpl; lia|].
    destruct (_ && _); simpl; lia.
Qed.

Lemma encoder_rotation_still (env : Env) (s : State) :
  pins env = last_pins s -> encoder_rotation env s = s.
Proof.
  unfold pins, last_pins. intros H. injection H as Ha Hb.
  unfold encoder_rotation. cbv zeta.
  rewrite Ha, Hb, !Z.eqb_refl. reflexivity.
Qed.

Lemma pins_dec (env : Env) (s : State) :
  {pins env = last_pins s} + {pins env <> last_pins s}.
Proof.
  unfold pins, last_pins.
  destruct (Z.eq_dec (gpio_a env) (last_a s)) as [Ea|Ea],
    (Z.eq_dec (gpio_b env) (last_b s)) as [Eb|Eb];
    try (right; congruence). left. congruence.
Qed.

Lemma encoder_rotation_tidy (env : Env) (s : State) :
  tidy s -> tidy (encoder_rotation env s).
Proof.
  intros (Hp & Hl & Hc).
  destruct (pins_dec env s) as [E|E].
  - rewrite encoder_rotation_still by exact E. repeat split; assumption.
  - destruct (encoder_rotation_history env s E) as (H1 & H2 & H3).
    cbv zeta in H1, H2, H3.
    destruct (outside_rotation_fields _ _
                (encoder_rotation_outside_rotation env s)) as (_ & Hpc & _).
    unfold tidy. rewrite Hpc, H1, H2, H3, length_app, Hc.
    split; [exact Hp|]. split; [apply history_after_length, Hl|lia].
Qed.

Lemma press_dec (env : Env) (s : State) :
  {gpio_sw env = 0 /\ last_sw s = 1} + {~ (gpio_sw env = 0 /\ last_sw s = 1)}.
Proof.
  destruct (Z.eq_dec (gpio_sw env) 0), (Z.eq_dec (last_sw s) 1); tauto.
Qed.

Lemma encoder_button_tidy (env : Env) (t : Q) (s s' : State) :
  tidy s -> encoder_button env t s = Some s' -> tidy s'.
Proof.
  intros Ht H. destruct (press_dec env s) as [[Hdown Hup]|Hno].
  - destruct Ht as (Hp & Hl & Hc).
    destruct (encoder_button_press env t s s' Hdown Hup Hp H)
      as (s2 & t' & Hw & ->).
    destruct (register_press_outside t s) as (Hr & _).
    apply outside_window_fields in Hr. destruct Hr as (Hr & _).
    apply collect_presses_outside, outside_window_fields in Hw.
    destruct Hw as (Hw & _).
    destruct (process_presses_outside env s2) as (Hz & _ & _ & Hd & _).
    cbv zeta in Hz, Hd. rewrite Hw, Hr in Hd.
    apply decoder_view_fields in Hd. destruct Hd as (H1 & H2 & H3).
    unfold tidy. rewrite Hz, H1, H2, H3. repeat split; assumption.
  - rewrite encoder_button_idle in H by exact Hno. injection H as <-.
    exact Ht.
Qed.

Lemma check_encoder_tidy (env : Env) (s s' : State) :
  tidy s -> check_encoder env s = Some s' -> tidy s'.
Proof.
  intros Ht H. unfold check_encoder in H. cbv zeta in H.
  destruct (encoder_button env (clock s) (encoder_rotation env s))
    as [s1|] eqn:E; [|discriminate].
  injection H as <-.
  apply (encoder_button_tidy env _ _ s1) in E;
    [|apply encoder_rotation_tidy, Ht].
  revert E. apply tidy_same. reflexivity.
Qed.

Lemma display_update_tidy (env : Env) (s : State) :
  same_on tidy_view s (display_update env s).
Proof. apply outside_playback_tidy, display_update_outside_playback. Qed.

Lemma skip_track_tidy (env : Env) (forward : bool) (s : State) :
  same_on tidy_view s (skip_track env forward s).
Proof. apply outside_playback_tidy, skip_track_outside_playback. Qed.

Lemma emit_tidy (e : Effect) (s : State) :
  step_of e = None -> same_on tidy_view s (emit e s).
Proof.
  intros H. unfold same_on, tidy_view. rewrite steps_emit, H, app_nil_r.
  reflexivity.
Qed.

Lemma eink_update_tidy (env : Env) (path : string) (s : State) :
  same_on tidy_view s (eink_update env path s).
Proof.
  unfold eink_update. cbv zeta.
  apply (same_on_trans _ s (emit (EinkUpdate path) s)).
  - apply emit_tidy. reflexivity.
  - destruct (eink_ok env); reflexivity.
Qed.

Ltac tidy_step :=
  first [ apply display_update_tidy
        | apply skip_track_tidy
        | apply eink_update_tidy
        | apply emit_tidy; reflexivity
        | reflexivity ].

Lemma main_iteration_tidy (env : Env) (s s' : State) :
  tidy s -> main_iteration env s = Some s' -> tidy s'.
Proof.
  intros Ht H. unfold main_iteration in H.
  destruct (check_encoder env s) as [s1|] eqn:E; [|discriminate].
  apply (check_encoder_tidy env s s1 Ht) in E.
  cbv zeta in H. injection H as <-.
  revert E. apply tidy_same. peel_all tidy_step.
Qed.

Lemma main_init_tidy (env : Env) (catalog : list string) (a b sw : Z)
  (now : Q) :
  tidy (main_init env (initial_state catalog a b sw now)).
Proof.
  apply (tidy_same (initial_state catalog a b sw now)).
  - unfold main_init. cbv zeta. peel_all tidy_step.
  - unfold tidy. simpl. repeat split; lia.
Qed.

(** X9. Between any two iterations of the main loop no press is pending
    ([press_count] is 0, so the next press opens a window of its own), the
    rotation history holds at most two samples, and [encoder_count] is
    the number of detents reported since start-up. *)
Theorem loop_leaves_tidy (env0 : Env) (envs : list Env)
  (catalog : list string) (a b sw : Z) (now : Q) (s' : State) :
  main_loop envs (main_init env0 (initial_state catalog a b sw now))
    = Some s' ->
  tidy s'.
Proof.
  pose proof (main_init_tidy env0 catalog a b sw now) as H0. revert H0.
  generalize (main_init env0 (initial_state catalog a b sw now)).
  induction envs as [|env envs IH]; intros s Ht H; simpl in H.
  - injection H as <-. exact Ht.
  - destruct (main_iteration env s) as [s1|] eqn:E; [|discriminate].
    exact (IH s1 (main_iteration_tidy env s s1 Ht E) H).
Qed.

Lemma loop_leaves_tidy_witness :
  exists s', main_loop example_run (main_init quiet_env idle_state) = Some s'
             /\ tidy s'.
Proof.
  destruct (main_loop example_run (main_init quiet_env idle_state))
    as [s'|] eqn:E.
  - exists s'. split; [reflexivity|].
    exact (loop_leaves_tidy quiet_env example_run _ 1 1 1 1000 s' E).
  - vm_compute in E. discriminate.
Defined.

(** ** What a display update shows *)

Lemma drawn_emit_error (origin : string) (s : State) :
  same_on drawn s (emit (PrintError origin) s).
Proof.
  unfold same_on, drawn, frames, art_extractions, emit; simpl.
  rewrite !pick_app; simpl. rewrite !app_nil_r. reflexivity.
Qed.

Lemma count_update_drawn (s : State) : same_on drawn s (count_update s).
Proof.
  unfold count_update. cbv zeta. destruct (_ =? 0); reflexivity.
Qed.

Lemma sample_battery_drawn (env : Env) (s : State) :
  same_on drawn s (snd (sample_battery env s)).
Proof.
  unfold sample_battery, read_battery.
  destruct (Qltb _ _); [|apply same_on_refl].
  destruct (read_word_data env I2C_ADDR REG_VOLTAGE);
    [destruct (read_word_data env I2C_ADDR REG_CAPACITY)|]; cbn [snd];
    try reflexivity;
    (apply (same_on_trans _ s (emit (PrintError "Battery reading failed") s));
     [apply drawn_emit_error | reflexivity]).
Qed.

Lemma render_title_drawn (env : Env) (track title : string) (s s' : State) :
  render_title env track s = Some (title, s') -> same_on drawn s s'.
Proof.
  unfold render_title. destruct (Qltb _ (textlength env track)).
  - destruct (len track =? 0); [discriminate|]. cbv zeta.
    destruct (Qltb 0.3 _); intros H; injection H as _ <-; reflexivity.
  - intros H. injection H as _ <-. reflexivity.
Qed.

Lemma render_title_fails (env : Env) (track : string) (s : State) :
  render_title env track s = None -> track = EmptyString.
Proof.
  unfold render_title. destruct (Qltb _ (textlength env track)).
  - destruct (Z.eqb_spec (len track) 0) as [E|E]; [|cbv zeta; discriminate].
    intros _. destruct track; [reflexivity|].
    unfold len in E. simpl in E. lia.
  - discriminate.
Qed.

Lemma drawn_fields (s s' : State) :
  same_on drawn s s' ->
  frames s' = frames s /\ art_extractions s' = art_extractions s /\
  last_art_update s' = last_art_update s /\
  current_song_path s' = current_song_path s /\
  playing s' = playing s /\ current_volume s' = current_volume s /\
  clock s' = clock s /\ song_at s' = song_at s.
Proof.
  unfold same_on, drawn, song_at. intros H.
  injection H as H1 H2 H3 H4 H5 H6 H7 H8 H9.
  rewrite H8, H9. repeat split; assumption.
Qed.

(** What [refresh_art] adds after a frame has been shown. *)
Lemma refresh_art_output (f : Frame) (s : State) :
  let s' := refresh_art (emit (OledShow f) s) in
  frames s' = frames s ++ [f] /\
  current_song_path s' = current_song_path s /\
  (if Qltb 5 (clock s - last_art_update s)
   then art_extractions s' = art_extractions s ++ [current_song_path s] /\
        last_art_update s' = clock s
   else art_extractions s' = art_extractions s /\
        last_art_update s' = last_art_update s).
Proof.
  cbv zeta. unfold refresh_art.
  change (clock (emit (OledShow f) s)) with (clock s).
  change (last_art_update (emit (OledShow f) s)) with (last_art_update s).
  destruct (Qltb 5 _); unfold frames, art_extractions, emit; simpl;
    rewrite !pick_app; simpl; rewrite ?app_nil_r; repeat split.
Qed.

Lemma draw_frame_output (env : Env) (percent : Q) (s : State) :
  let s' := draw_frame env percent s in
  current_song_path s' = current_song_path s /\
  ((frames s' = frames s /\ art_extractions s' = art_extractions s /\
    last_art_update s' = last_art_update s /\
    (oled_ok env = false \/ song_at s = EmptyString)) \/
   (oled_ok env = true /\
    (exists title,
        frames s' = frames s ++
          [mkFrame title percent (playing s)
             (py_int (current_volume s * 100))]) /\
    (if Qltb 5 (clock s - last_art_update s)
     then art_extractions s' = art_extractions s ++ [current_song_path s] /\
          last_art_update s' = clock s
     else art_extractions s' = art_extractions s /\
          last_art_update s' = last_art_update s))).
Proof.
  cbv zeta. unfold draw_frame. cbv zeta.
  destruct (render_title env (song_at s) s) as [[title s1]|] eqn:E.
  - apply render_title_drawn, drawn_fields in E.
    destruct E as (Hf & Ha & Hl & Hp & Hpl & Hv & Hc & _).
    destruct (oled_ok env).
    + rewrite Hpl, Hv.
      destruct (refresh_art_output
                  (mkFrame title percent (playing s)
                     (py_int (current_volume s * 100))) s1)
        as (H1 & H2 & H3).
      cbv zeta in H1, H2, H3.
      rewrite Hf in H1. rewrite Hp in H2.
      rewrite Hc, Hl, Ha, Hp in H3.
      split; [exact H2|]. right. split; [reflexivity|].
      split; [exists title; exact H1|exact H3].
    + destruct (drawn_fields _ _
                  (drawn_emit_error "Display update failed" s1))
        as (Hf' & Ha' & Hl' & Hp' & _).
      split; [congruence|]. left. repeat split; try congruence. now left.
  - apply render_title_fails in E.
    destruct (drawn_fields _ _ (drawn_emit_error "Display update failed" s))
      as (Hf' & Ha' & Hl' & Hp' & _).
    split; [congruence|]. left. repeat split; try congruence. now right.
Qed.

Lemma display_update_output (env : Env) (s : State) :
  let s' := display_update env s in
  let path := Some (path_join MUSIC_DIR (song_at s)) in
  current_song_path s' = path /\
  ((frames s' = frames s /\ art_extractions s' = art_extractions s /\
    last_art_update s' = last_art_update s /\
    (oled_ok env = false \/ song_at s = EmptyString)) \/
   (oled_ok env = true /\
    (exists title percent,
        frames s' = frames s ++
          [mkFrame title percent (playing s)
             (py_int (current_volume s * 100))]) /\
    (if Qltb 5 (clock s - last_art_update s)
     then art_extractions s' = art_extractions s ++ [path] /\
          last_art_update s' = clock s
     else art_extractions s' = art_extractions s /\
          last_art_update s' = last_art_update s))).
Proof.
  cbv zeta. unfold display_update. cbv zeta.
  destruct (drawn_fields _ _ (count_update_drawn s))
    as (Hf1 & Ha1 & Hl1 & _ & Hpl1 & Hv1 & Hc1 & Hs1).
  rewrite Hs1. revert Hf1 Ha1 Hl1 Hpl1 Hv1 Hc1 Hs1.
  generalize (count_update s). intros s1 Hf1 Ha1 Hl1 Hpl1 Hv1 Hc1 Hs1.
  set (s2 := set_current_song_path (Some (path_join MUSIC_DIR (song_at s))) s1).
  destruct (drawn_fields _ _ (sample_battery_drawn env s2))
    as (Hf3 & Ha3 & Hl3 & Hp3 & Hpl3 & Hv3 & Hc3 & Hs3).
  destruct (sample_battery env s2) as [percent s3].
  cbn [snd] in Hf3, Ha3, Hl3, Hp3, Hpl3, Hv3, Hc3, Hs3.
  assert (Hf : frames s3 = frames s) by (rewrite Hf3; exact Hf1).
  assert (Ha : art_extractions s3 = art_extractions s)
    by (rewrite Ha3; exact Ha1).
  assert (Hl : last_art_update s3 = last_art_update s)
    by (rewrite Hl3; exact Hl1).
  assert (Hpl : playing s3 = playing s) by (rewrite Hpl3; exact Hpl1).
  assert (Hv : current_volume s3 = current_volume s)
    by (rewrite Hv3; exact Hv1).
  assert (Hc : clock s3 = clock s) by (rewrite Hc3; exact Hc1).
  assert (Hs : song_at s3 = song_at s) by (rewrite Hs3; exact Hs1).
  assert (Hp : current_song_path s3 = Some (path_join MUSIC_DIR (song_at s)))
    by (rewrite Hp3; reflexivity).
  clear Hf3 Ha3 Hl3 Hp3 Hpl3 Hv3 Hc3 Hs3 Hf1 Ha1 Hl1 Hpl1 Hv1 Hc1 Hs1.
  clearbody s2. clear s2 s1.
  destruct (draw_frame_output env percent s3) as (H1 & H2).
  cbv zeta in H1, H2. rewrite Hp in H1. split; [exact H1|].
  rewrite Hf, Ha, Hl, Hpl, Hv, Hc, Hs, Hp in H2.
  destruct H2 as [H2|(Ho & (title & Ht) & H2)]; [left; exact H2|].
  right. split; [exact Ho|]. split; [|exact H2].
  exists title, percent. exact Ht.
Qed.

Lemma percent_volume_range (v : Q) :
  (0 <= v <= 1)%Q -> 0 <= py_int (v * 100) <= 100.
Proof.
  intros [H0 H1]. rewrite py_int_floor by lra.
  assert (Hlow : Qfloor 0 <= Qfloor (v * 100))
    by (apply Qfloor_resp_le; lra).
  assert (Hhigh : Qfloor (v * 100) <= Qfloor 100)
    by (apply Qfloor_resp_le; lra).
  split; [exact Hlow | exact Hhigh].
Qed.

(** X10. What one display update puts on the two displays.  With a
    failing OLED it shows nothing and extracts no album art.  Otherwise
    it shows at most one frame, which carries the current playing flag
    and a volume figure between 0 and 100 whenever the volume is a
    fraction of one.  Album art is extracted at most once per update,
    only after a frame has been shown, only when more than 5 seconds have
    passed since the last extraction made by a display update, and then
    for the selected track; the time of that extraction is remembered.
    The path of the selected track is left in [current_song_path] in
    every case. *)
Theorem display_update_shows (env : Env) (s : State) :
  let s' := display_update env s in
  let path := Some (path_join MUSIC_DIR (song_at s)) in
  current_song_path s' = path /\
  (oled_ok env = false ->
   frames s' = frames s /\ art_extractions s' = art_extractions s) /\
  (exists shown,
      frames s' = frames s ++ shown /\ (List.length shown <= 1)%nat /\
      Forall (fun f => frame_playing f = playing s /\
                       ((0 <= current_volume s <= 1)%Q ->
                        0 <= frame_volume f <= 100)) shown /\
      ((art_extractions s' = art_extractions s /\
        last_art_update s' = last_art_update s) \/
       (shown <> [] /\ (5 < clock s - last_art_update s)%Q /\
        art_extractions s' = art_extractions s ++ [path] /\
        last_art_update s' = clock s))) /\
  ((clock s - last_art_update s <= 5)%Q ->
   art_extractions s' = art_extractions s).
Proof.
  cbv zeta. destruct (display_update_output env s) as (Hp & H).
  cbv zeta in Hp, H. split; [exact Hp|].
  destruct H as [(Hf & Ha & Hl & _)|(Ho & (title & percent & Hf) & Ha)].
  - split; [intros _; split; assumption|].
    split; [|intros _; exact Ha].
    exists []. rewrite app_nil_r. split; [exact Hf|].
    split; [simpl; lia|]. split; [constructor|]. left. split; assumption.
  - split; [intros Hno; congruence|].
    split.
    + eexists. split; [exact Hf|]. split; [simpl; lia|].
      split.
      * constructor; [|constructor]. cbn [frame_playing frame_volume].
        split; [reflexivity|apply percent_volume_range].
      * destruct (Qltb 5 _) eqn:E.
        -- right. apply Qltb_true in E. destruct Ha as [Ha Hl].
           split; [discriminate|]. split; [exact E|]. split; assumption.
        -- left. exact Ha.
    + intros Hle. destruct (Qltb 5 _) eqn:E.
      * apply Qltb_true in E. lra.
      * apply Ha.
Qed.

Lemma display_update_shows_witness :
  art_extractions (display_update quiet_env (main_init quiet_env idle_state))
  = art_extractions (main_init quiet_env idle_state).
Proof.
  apply (display_update_shows quiet_env (main_init quiet_env idle_state)).
  vm_compute. discriminate.
Defined.

(** ** The playback operations and the mixer *)

Lemma display_update_playback (env : Env) (s : State) :
  let s' := display_update env s in
  playing s' = playing s /\ selected s' = selected s /\
  songs s' = songs s /\ mixer_calls s' = mixer_calls s /\
  dispatched s' = dispatched s.
Proof.
  cbv zeta.
  destruct (display_update_frame env s)
    as (Hsel&Hpl&Hso&_&_&_&_&_&_&_&_&_&_&_&_&_&Hd).
  pose proof (display_update_mixer env s) as Hm. unfold same_on in Hm.
  repeat split; assumption.
Qed.

Ltac through_display env X :=
  let H1 := fresh "Hpl" in
  let H2 := fresh "Hsel" in
  let H3 := fresh "Hso" in
  let H4 := fresh "Hmix" in
  let H5 := fresh "Hdis" in
  destruct (display_update_playback env X) as (H1 & H2 & H3 & H4 & H5);
  cbv zeta in H1, H2, H3, H4, H5;
  rewrite ?H1, ?H2, ?H3, ?H4, ?H5; clear H1 H2 H3 H4 H5.

Ltac read_log :=
  unfold mixer_calls, frames, art_extractions, dispatched, emit;
  cbn [log set_log set_playing set_current_song_path set_scroll_position
       set_selected];
  rewrite ?pick_app; cbn [pick mixer_call frame_shown art_call action_of app];
  rewrite ?app_nil_r, <- ?app_assoc; cbn [app].

Lemma play_pause_spec (env : Env) (s : State) :
  let s' := play_pause env s in
  playing s' =
    (if playing s then false else busy_at_toggle env || load_ok env) /\
  mixer_calls s' = mixer_calls s ++
    (if playing s then [MixerPause]
     else if busy_at_toggle env then [MixerUnpause]
          else if load_ok env
               then [MixerLoad (path_join MUSIC_DIR (song_at s)); MixerPlay]
               else []) /\
  selected s' = selected s /\ songs s' = songs s /\
  dispatched s' = dispatched s ++ [PlayPause] /\
  (playing s' = playing s ->
   frames s' = frames s /\ art_extractions s' = art_extractions s).
Proof.
  cbv zeta. unfold play_pause. cbv zeta.
  change (playing (emit PrintPlayPauseCalled s)) with (playing s).
  destruct (playing s) eqn:Ep.
  - match goal with
    | |- context [display_update env ?X] => through_display env X
    end.
    read_log. cbn [playing set_playing set_log set_current_song_path negb]. rewrite ?Ep. cbn [negb].
    repeat split; try reflexivity; discriminate.
  - destruct (busy_at_toggle env); cbn [negb orb].
    + match goal with
      | |- context [display_update env ?X] => through_display env X
      end.
      read_log. cbn [playing set_playing set_log set_current_song_path negb]. rewrite ?Ep. cbn [negb].
      repeat split; try reflexivity; discriminate.
    + destruct (load_ok env).
      * match goal with
        | |- context [display_update env ?X] => through_display env X
        end.
        read_log. cbn [playing set_playing set_log set_current_song_path negb]. rewrite ?Ep. cbn [negb].
        repeat split; try reflexivity; discriminate.
      * read_log. cbn [playing set_playing set_log set_current_song_path selected songs].
        rewrite ?Ep. repeat split; reflexivity.
Qed.

Lemma display_update_art (env : Env) (s : State) :
  current_song_path (display_update env s)
    = Some (path_join MUSIC_DIR (song_at s)) /\
  exists l, art_extractions (display_update env s) = art_extractions s ++ l.
Proof.
  destruct (display_update_output env s) as (Hp & H). cbv zeta in Hp, H.
  split; [exact Hp|].
  destruct H as [(_ & Ha & _)|(_ & _ & Ha)].
  - exists []. now rewrite app_nil_r.
  - destruct (Qltb 5 _); destruct Ha as [Ha _].
    + eexists. exact Ha.
    + exists []. now rewrite app_nil_r.
Qed.

Lemma pick_emit {A : Type} (f : Effect -> option A) (e : Effect) (s : State) :
  pick f (log (emit e s)) =
  pick f (log s) ++ match f e with Some x => [x] | None => [] end.
Proof.
  unfold emit; simpl. rewrite pick_app. simpl.
  destruct (f e); reflexivity.
Qed.

(** What [skip_track] does after the selection has moved: [s1] is the
    state with the new selection. *)
Lemma skip_track_tail (env : Env) (s1 : State) :
  let s' :=
    if playing s1 then
      let s := set_current_song_path
                 (Some (path_join MUSIC_DIR (song_at s1))) s1 in
      let song_path := path_join MUSIC_DIR (song_at s) in
      if load_ok env then
        let s := emit (MixerLoad song_path) s in
        let s := emit MixerPlay s in
        let s := display_update env s in
        emit (ExtractAlbumArt (current_song_path s)) s
      else emit (PrintError "Skip track failed") s
    else
      let s := display_update env s1 in
      emit (ExtractAlbumArt (current_song_path s)) s in
  selected s' = selected s1 /\ playing s' = playing s1 /\
  songs s' = songs s1 /\ dispatched s' = dispatched s1 /\
  mixer_calls s' = mixer_calls s1 ++
    (if playing s1 && load_ok env
     then [MixerLoad (path_join MUSIC_DIR (song_at s1)); MixerPlay]
     else []) /\
  (if playing s1 && negb (load_ok env)
   then frames s' = frames s1 /\ art_extractions s' = art_extractions s1
   else exists before,
       art_extractions s' =
       art_extractions s1 ++ before ++ [Some (path_join MUSIC_DIR (song_at s1))]).
Proof.
  cbv zeta. destruct (playing s1) eqn:Ep; [destruct (load_ok env)|];
    cbn [andb negb].
  - set (X := emit MixerPlay _).
    destruct (display_update_playback env X) as (H1 & H2 & H3 & H4 & H5).
    destruct (display_update_art env X) as (H6 & l & H7).
    cbv zeta in H1, H2, H3, H4, H5.
    generalize dependent (display_update env X). intros D H1 H2 H3 H4 H5 H6 H7.
    unfold mixer_calls, dispatched, art_extractions in *.
    rewrite !pick_emit, H4, H5, H7, H6. cbn [mixer_call action_of art_call].
    change (selected (emit ?e D)) with (selected D).
    change (playing (emit ?e D)) with (playing D).
    change (songs (emit ?e D)) with (songs D).
    rewrite H1, H2, H3, !app_nil_r. subst X.
    rewrite !pick_emit. cbn [mixer_call action_of art_call].
    rewrite !app_nil_r, <- !app_assoc. cbn [app].
    repeat split; try assumption. exists l. reflexivity.
  - unfold mixer_calls, dispatched, art_extractions, frames.
    rewrite !pick_emit. cbn [mixer_call action_of art_call frame_shown].
    rewrite !app_nil_r. repeat split; assumption.
  - destruct (display_update_playback env s1) as (H1 & H2 & H3 & H4 & H5).
    destruct (display_update_art env s1) as (H6 & l & H7).
    cbv zeta in H1, H2, H3, H4, H5.
    generalize dependent (display_update env s1).
    intros D H1 H2 H3 H4 H5 H6 H7.
    unfold mixer_calls, dispatched, art_extractions in *.
    rewrite !pick_emit, H4, H5, H7, H6. cbn [mixer_call action_of art_call].
    change (selected (emit ?e D)) with (selected D).
    change (playing (emit ?e D)) with (playing D).
    change (songs (emit ?e D)) with (songs D).
    rewrite H1, H2, H3, !app_nil_r, <- app_assoc.
    repeat split; try assumption. exists l. reflexivity.
Qed.

Lemma skip_track_spec (env : Env) (forward : bool) (s : State) :
  songs s <> [] ->
  let s' := skip_track env forward s in
  selected s' = (if forward then selected s + 1 else selected s - 1)
                  mod Z.of_nat (List.length (songs s)) /\
  playing s' = playing s /\ songs s' = songs s /\
  dispatched s' =
    dispatched s ++ [if forward then SkipForward else SkipBackward] /\
  mixer_calls s' = mixer_calls s ++
    (if playing s && load_ok env
     then [MixerLoad (path_join MUSIC_DIR (song_at s')); MixerPlay]
     else []) /\
  (if playing s && negb (load_ok env)
   then frames s' = frames s /\ art_extractions s' = art_extractions s
   else exists before,
       art_extractions s' =
       art_extractions s ++ before ++ [Some (path_join MUSIC_DIR (song_at s'))]).
Proof.
  intros Hne. cbv zeta. unfold skip_track. cbv zeta.
  destruct (skip_select_spec forward (emit (PrintSkipCalled forward) s) Hne)
    as (s1 & -> & Hsel & _ & Hsongs & Hpl & _ & _ & Hlog).
  change (selected (emit ?e s)) with (selected s) in Hsel.
  change (songs (emit ?e s)) with (songs s) in Hsel, Hsongs.
  change (playing (emit ?e s)) with (playing s) in Hpl.
  destruct (skip_track_tail env s1) as (H1 & H2 & H3 & H4 & H5 & H6).
  cbv zeta in H1, H2, H3, H4, H5, H6.
  match type of H1 with selected ?t = _ => generalize dependent t end.
  intros s' H1 H2 H3 H4 H5 H6.
  assert (Hsong : song_at s' = song_at s1).
  { unfold song_at. now rewrite H1, H3. }
  assert (Hd : dispatched s1 =
               dispatched s ++ [if forward then SkipForward else SkipBackward]).
  { unfold dispatched. rewrite Hlog, pick_emit. destruct forward; reflexivity. }
  assert (Hm : mixer_calls s1 = mixer_calls s).
  { unfold mixer_calls. rewrite Hlog, pick_emit, app_nil_r. reflexivity. }
  assert (Hf : frames s1 = frames s).
  { unfold frames. rewrite Hlog, pick_emit, app_nil_r. reflexivity. }
  assert (Ha : art_extractions s1 = art_extractions s).
  { unfold art_extractions. rewrite Hlog, pick_emit, app_nil_r. reflexivity. }
  rewrite Hsong, H1, H2, H3, H4, H5. rewrite Hpl in *.
  rewrite Hf, Ha in H6. rewrite Hsel, Hsongs, Hd, Hm.
  repeat split; exact H6.
Qed.

(** X11. [play_pause] and the mixer.  A playing track is paused; a paused
    one is resumed when the mixer is still busy with it, and otherwise the
    selected track is loaded and played.  The playing flag follows the
    mixer: it flips exactly when a call was made.  When loading fails no
    call is made, the flag stays off and neither a frame nor album art is
    produced.  The selection is never touched. *)
Theorem play_pause_drives_mixer (env : Env) (s : State) :
  let s' := play_pause env s in
  playing s' =
    (if playing s then false else busy_at_toggle env || load_ok env) /\
  mixer_calls s' = mixer_calls s ++
    (if playing s then [MixerPause]
     else if busy_at_toggle env then [MixerUnpause]
          else if load_ok env
               then [MixerLoad (path_join MUSIC_DIR (song_at s)); MixerPlay]
               else []) /\
  selected s' = selected s /\
  (playing s' = playing s ->
   mixer_calls s' = mixer_calls s /\ frames s' = frames s /\
   art_extractions s' = art_extractions s).
Proof.
  cbv zeta.
  destruct (play_pause_spec env s) as (Hp & Hm & Hs & _ & _ & Hf).
  cbv zeta in Hp, Hm, Hs, Hf.
  split; [exact Hp|]. split; [exact Hm|]. split; [exact Hs|].
  intros Hsame. split; [|exact (Hf Hsame)].
  rewrite Hm. rewrite Hp in Hsame.
  destruct (playing s); [discriminate|].
  destruct (busy_at_toggle env); [discriminate|].
  destruct (load_ok env); [discriminate|]. apply app_nil_r.
Qed.

Lemma play_pause_drives_mixer_witness :
  frames (play_pause no_load_env idle_state) = frames idle_state.
Proof.
  apply (play_pause_drives_mixer no_load_env idle_state). reflexivity.
Defined.

(** X12. [skip_track] and the mixer, on a catalog that is not empty.  The
    playing flag is kept.  While playing, the newly selected track is
    loaded and played, and these are the only mixer calls; while paused
    the mixer is not called.  When loading fails the selection has moved
    all the same, but no frame is shown and no album art extracted.  In
    every other case the last album art extracted is that of the newly
    selected track. *)
Theorem skip_track_loads_selection (env : Env) (forward : bool) (s : State) :
  songs s <> [] ->
  let s' := skip_track env forward s in
  let target := path_join MUSIC_DIR (song_at s') in
  playing s' = playing s /\
  mixer_calls s' = mixer_calls s ++
    (if playing s && load_ok env then [MixerLoad target; MixerPlay] else []) /\
  (if playing s && negb (load_ok env)
   then selected s' <> selected s \/ List.length (songs s) = 1%nat
   else True) /\
  (if playing s && negb (load_ok env)
   then frames s' = frames s /\ art_extractions s' = art_extractions s
   else exists before,
       art_extractions s' = art_extractions s ++ before ++ [Some target]).
Proof.
  intros Hne. cbv zeta.
  destruct (skip_track_spec env forward s Hne)
    as (Hsel & Hp & _ & _ & Hm & Hf).
  cbv zeta in Hsel, Hp, Hm, Hf.
  split; [exact Hp|]. split; [exact Hm|]. split; [|exact Hf].
  destruct (playing s && negb (load_ok env)); [|exact I].
  destruct (Nat.eq_dec (List.length (songs s)) 1) as [E|E]; [now right|left].
  rewrite Hsel. intros Heq.
  assert (Hn : 1 < Z.of_nat (List.length (songs s))).
  { destruct (songs s) as [|x [|y l]]; simpl in *; try congruence; lia. }
  revert Hn Heq. generalize (Z.of_nat (List.length (songs s))).
  intros n Hn Heq.
  revert Heq. generalize (selected s). intros x Heq.
  destruct forward.
  - pose proof (Z.mod_pos_bound (x + 1) n) as Hb. rewrite Heq in Hb.
    destruct (Z.eq_dec (x + 1) n) as [E1|E1].
    + rewrite E1, Z_mod_same_full in Heq. lia.
    + rewrite Z.mod_small in Heq by lia. lia.
  - pose proof (Z.mod_pos_bound (x - 1) n) as Hb. rewrite Heq in Hb.
    destruct (Z.eq_dec x 0) as [E0|E0].
    + subst x. replace (0 - 1) with (n - 1 + (-1) * n) in Heq by lia.
      rewrite Z.mod_add, Z.mod_small in Heq by lia. lia.
    + rewrite Z.mod_small in Heq by lia. lia.
Qed.

Lemma skip_track_loads_selection_witness :
  mixer_calls (skip_track quiet_env true playing_state) =
  mixer_calls playing_state ++
    [MixerLoad
       (path_join MUSIC_DIR (song_at (skip_track quiet_env true playing_state)));
     MixerPlay].
Proof.
  destruct (skip_track_loads_selection quiet_env true playing_state)
    as (_ & H & _); [discriminate|exact H].
Defined.

(** ** Skipping there and back *)

Lemma skips_selected (forward : bool) (envs : list Env) :
  forall s : State,
    songs s <> [] ->
    songs (skips envs forward s) = songs s /\
    selected (skips envs forward s) =
      (if forward then selected s + Z.of_nat (List.length envs)
       else selected s - Z.of_nat (List.length envs))
      mod Z.of_nat (List.length (songs s)) \/
    envs = [] /\ skips envs forward s = s.
Proof.
  induction envs as [|env envs IH]; intros s Hne; [right; split; reflexivity|].
  left. unfold skips. cbn [fold_left]. fold (skips envs forward (skip_track env forward s)).
  destruct (skip_track_selected env forward s Hne) as (Hsel & Hsongs & _).
  cbv zeta in Hsel, Hsongs.
  assert (Hne' : songs (skip_track env forward s) <> []) by congruence.
  assert (Hn : 0 < Z.of_nat (List.length (songs s))).
  { destruct (songs s); [congruence|simpl; lia]. }
  destruct (IH _ Hne') as [(H1 & H2)|(-> & ->)].
  - rewrite H1, H2, Hsongs, Hsel. split; [reflexivity|].
    cbn [List.length]. rewrite Nat2Z.inj_succ.
    destruct forward.
    + rewrite Zplus_mod_idemp_l. f_equal. lia.
    + rewrite Zminus_mod_idemp_l. f_equal. lia.
  - split; [exact Hsongs|]. rewrite Hsel. cbn [List.length].
    destruct forward; reflexivity.
Qed.

(** X13. Skipping is a rotation of the catalog.  When the selection
    indexes the catalog, a skip forward followed by a skip
    backward, or the other way round, comes back to the same track, and
    so do as many skips in one direction as the catalog has tracks;
    mixer failures on the way make no difference. *)
Theorem skips_come_back (s : State) :
  0 <= selected s < Z.of_nat (List.length (songs s)) ->
  (forall env1 env2 : Env,
      selected (skip_track env2 false (skip_track env1 true s)) = selected s /\
      selected (skip_track env2 true (skip_track env1 false s)) = selected s) /\
  (forall (envs : list Env) (forward : bool),
      List.length envs = List.length (songs s) ->
      selected (skips envs forward s) = selected s).
Proof.
  intros Hsel.
  assert (Hne : songs s <> []).
  { destruct (songs s); [simpl in Hsel; lia|discriminate]. }
  assert (Hround : forall envs forward,
             List.length envs = List.length (songs s) ->
             selected (skips envs forward s) = selected s).
  { intros envs forward Hlen.
    destruct (skips_selected forward envs s Hne) as [(_ & H)|(-> & _)].
    - rewrite H, Hlen. destruct forward.
      + rewrite <- (Z.mul_1_l (Z.of_nat (List.length (songs s)))) at 1.
        rewrite Z.mod_add by lia. apply Z.mod_small. lia.
      + replace (selected s - Z.of_nat (List.length (songs s)))
          with (selected s + (-1) * Z.of_nat (List.length (songs s))) by lia.
        rewrite Z.mod_add by lia. apply Z.mod_small. lia.
    - simpl in Hlen. destruct (songs s); [congruence|discriminate]. }
  split; [|exact Hround].
  intros env1 env2.
  destruct (skip_track_selected env1 true s Hne) as (Hf & Hfs & _).
  destruct (skip_track_selected env1 false s Hne) as (Hb & Hbs & _).
  cbv zeta in Hf, Hfs, Hb, Hbs.
  assert (Hne1 : songs (skip_track env1 true s) <> []) by congruence.
  assert (Hne2 : songs (skip_track env1 false s) <> []) by congruence.
  destruct (skip_track_selected env2 false _ Hne1) as (Hfb & _).
  destruct (skip_track_selected env2 true _ Hne2) as (Hbf & _).
  cbv zeta in Hfb, Hbf.
  rewrite Hfb, Hbf, Hf, Hfs, Hb, Hbs.
  rewrite Zminus_mod_idemp_l, Zplus_mod_idemp_l.
  replace (selected s + 1 - 1) with (selected s) by lia.
  replace (selected s - 1 + 1) with (selected s) by lia.
  split; apply Z.mod_small; lia.
Qed.

Lemma skips_come_back_witness :
  selected (skips [quiet_env; no_load_env] true idle_state)
  = selected idle_state.
Proof.
  destruct (skips_come_back idle_state) as [_ H]; [simpl; lia|].
  apply H. reflexivity.
Defined.

(** ** Auto-advance *)

Lemma display_update_playback_view (env : Env) (s : State) :
  same_on playback_view s (display_update env s).
Proof.
  destruct (display_update_playback env s) as (H1 & H2 & H3 & H4 & H5).
  cbv zeta in H1, H2, H3, H4, H5.
  unfold same_on, playback_view. now rewrite H1, H2, H3, H4, H5.
Qed.

Lemma emit_playback_view (e : Effect) (s : State) :
  action_of e = None -> mixer_call e = None ->
  same_on playback_view s (emit e s).
Proof.
  intros H1 H2. unfold same_on, playback_view, dispatched, mixer_calls.
  rewrite !pick_emit, H1, H2, !app_nil_r. reflexivity.
Qed.

Lemma eink_update_playback_view (env : Env) (path : string) (s : State) :
  same_on playback_view s (eink_update env path s).
Proof.
  unfold eink_update. cbv zeta.
  apply (same_on_trans _ s (emit (EinkUpdate path) s)).
  - apply emit_playback_view; reflexivity.
  - destruct (eink_ok env); reflexivity.
Qed.

Ltac playback_view_step :=
  first [ apply display_update_playback_view
        | apply eink_update_playback_view
        | apply emit_playback_view; reflexivity
        | reflexivity ].

Lemma playback_view_fields (s s' : State) :
  same_on playback_view s s' ->
  playing s' = playing s /\ selected s' = selected s /\
  songs s' = songs s /\ dispatched s' = dispatched s /\
  mixer_calls s' = mixer_calls s.
Proof.
  unfold same_on, playback_view. intros H.
  injection H as H1 H2 H3 H4 H5. auto.
Qed.

(** A tick without a press, as the rest of the iteration sees it. *)
Lemma check_encoder_no_press (env : Env) (s : State) :
  ~ (gpio_sw env = 0 /\ last_sw s = 1) ->
  exists c,
    check_encoder env s = Some c /\
    playing c = playing s /\ dispatched c = dispatched s /\
    songs c = songs s /\
    (pins env = last_pins s ->
     selected c = selected s /\ mixer_calls c = mixer_calls s).
Proof.
  intros Hno. unfold check_encoder. cbv zeta.
  destruct (outside_rotation_fields _ _
              (encoder_rotation_outside_rotation env s))
    as (Hsw & _ & _ & Hd & _ & Hso & Hpl).
  rewrite encoder_button_idle by (rewrite Hsw; exact Hno).
  eexists. split; [reflexivity|].
  change (playing (set_last_sw ?a (set_last_b ?b (set_last_a ?c ?x))))
    with (playing x).
  change (dispatched (set_last_sw ?a (set_last_b ?b (set_last_a ?c ?x))))
    with (dispatched x).
  change (songs (set_last_sw ?a (set_last_b ?b (set_last_a ?c ?x))))
    with (songs x).
  change (selected (set_last_sw ?a (set_last_b ?b (set_last_a ?c ?x))))
    with (selected x).
  change (mixer_calls (set_last_sw ?a (set_last_b ?b (set_last_a ?c ?x))))
    with (mixer_calls x).
  split; [exact Hpl|]. split; [exact Hd|]. split; [exact Hso|].
  intros Hstill. rewrite encoder_rotation_still by exact Hstill.
  split; reflexivity.
Qed.

(** The step of the loop that follows [check_encoder]. *)
Lemma advance_spec (env : Env) (c : State) :
  songs c <> [] ->
  let a := if playing c && negb (busy_at_poll env)
           then skip_track env true (emit PrintAutoAdvance c) else c in
  playing a = playing c /\ songs a = songs c /\
  dispatched a = dispatched c ++
    (if playing c && negb (busy_at_poll env) then [SkipForward] else []) /\
  selected a =
    (if playing c && negb (busy_at_poll env)
     then (selected c + 1) mod Z.of_nat (List.length (songs c))
     else selected c) /\
  mixer_calls a = mixer_calls c ++
    (if playing c && negb (busy_at_poll env) && load_ok env
     then [MixerLoad (path_join MUSIC_DIR (song_at a)); MixerPlay] else []).
Proof.
  intros Hne. cbv zeta.
  destruct (playing c && negb (busy_at_poll env)) eqn:E; cbn [andb].
  - destruct (skip_track_spec env true (emit PrintAutoAdvance c) Hne)
      as (Hsel & Hpl & Hso & Hd & Hm & _).
    cbv zeta in Hsel, Hpl, Hso, Hd, Hm.
    destruct (playback_view_fields _ _
                (emit_playback_view PrintAutoAdvance c eq_refl eq_refl))
      as (Ep & Es & Eso & Ed & Em).
    rewrite Hsel, Hpl, Hso, Hd, Hm, Ep, Es, Eso, Ed, Em.
    apply andb_true_iff in E. destruct E as [-> _]. cbn [andb].
    repeat split; reflexivity.
  - rewrite !app_nil_r. repeat split; reflexivity.
Qed.

(** X14. Auto-advance.  On a tick without a button press the loop skips
    forward exactly when the playing flag is set and the mixer reports
    that it is idle: a paused player never advances, and one whose track
    is still running does not either.  If the encoder did not move on
    that tick, advancing selects the next track, wrapping after the last
    one, and loads and plays it when the mixer accepts it. *)
Theorem auto_advance (env : Env) (s : State) :
  ~ (gpio_sw env = 0 /\ last_sw s = 1) ->
  songs s <> [] ->
  exists s',
    main_iteration env s = Some s' /\
    playing s' = playing s /\
    dispatched s' = dispatched s ++
      (if playing s && negb (busy_at_poll env) then [SkipForward] else []) /\
    (pins env = last_pins s ->
     selected s' =
       (if playing s && negb (busy_at_poll env)
        then (selected s + 1) mod Z.of_nat (List.length (songs s))
        else selected s) /\
     mixer_calls s' = mixer_calls s ++
       (if playing s && negb (busy_at_poll env) && load_ok env
        then [MixerLoad (path_join MUSIC_DIR (song_at s')); MixerPlay]
        else [])).
Proof.
  intros Hno Hne.
  destruct (check_encoder_no_press env s Hno)
    as (c & Hc & Hpl & Hd & Hso & Hstill).
  assert (Hne' : songs c <> []) by congruence.
  destruct (advance_spec env c Hne') as (H1 & H2 & H3 & H4 & H5).
  cbv zeta in H1, H2, H3, H4, H5.
  unfold main_iteration. rewrite Hc. cbv zeta.
  revert H1 H2 H3 H4 H5.
  generalize (if playing c && negb (busy_at_poll env)
              then skip_track env true (emit PrintAutoAdvance c) else c).
  intros a H1 H2 H3 H4 H5.
  eexists. split; [reflexivity|].
  match goal with
  | |- context [sleep 0.01 ?X] =>
      assert (Hv : same_on playback_view a (sleep 0.01 X))
        by (peel_all playback_view_step);
      revert Hv; generalize (sleep 0.01 X)
  end.
  intros s' Hv. apply playback_view_fields in Hv.
  destruct Hv as (V1 & V2 & V3 & V4 & V5).
  assert (Hsong : song_at s' = song_at a).
  { unfold song_at. now rewrite V2, V3. }
  rewrite V1, V2, V4, V5, Hsong, H1, H3, H4, H5, Hpl, Hd, Hso.
  split; [reflexivity|]. split; [reflexivity|].
  intros Hs. destruct (Hstill Hs) as [-> ->]. split; reflexivity.
Qed.

Lemma auto_advance_witness :
  exists s',
    main_iteration track_ended_env playing_state = Some s' /\
    dispatched s' = dispatched playing_state ++ [SkipForward].
Proof.
  destruct (auto_advance track_ended_env playing_state)
    as (s' & H1 & _ & H2 & _).
  - intros [H _]. discriminate H.
  - discriminate.
  - exists s'. split; [exact H1|exact H2].
Defined.

(** ** The e-ink panel *)

Lemma outside_playback_schedule (s s' : State) :
  same_on outside_playback s s' -> same_on schedule s s'.
Proof.
  unfold same_on, outside_playback, schedule. intros H.
  injection H as H1 H2 H3 H4 H5 H6 H7 H8 H9 H10 H11 H12 H13 H14.
  congruence.
Qed.

Lemma display_update_schedule (env : Env) (s : State) :
  same_on schedule s (display_update env s).
Proof. apply outside_playback_schedule, display_update_outside_playback. Qed.

Lemma skip_track_schedule (env : Env) (forward : bool) (s : State) :
  same_on schedule s (skip_track env forward s).
Proof. apply outside_playback_schedule, skip_track_outside_playback. Qed.

Lemma emit_schedule (e : Effect) (s : State) :
  eink_call e = None -> same_on schedule s (emit e s).
Proof.
  intros H. unfold same_on, schedule, eink_updates.
  rewrite pick_emit, H, app_nil_r. reflexivity.
Qed.

Ltac schedule_step :=
  first [ apply display_update_schedule
        | apply skip_track_schedule
        | apply emit_schedule; reflexivity
        | reflexivity ].

Lemma schedule_fields (s s' : State) :
  same_on schedule s s' ->
  last_eink_update s' = last_eink_update s /\
  eink_updates s' = eink_updates s /\ clock s' = clock s.
Proof.
  unfold same_on, schedule. intros H. injection H as H1 H2 H3. auto.
Qed.

Lemma encoder_button_schedule (env : Env) (t : Q) (s s' : State) :
  encoder_button env t s = Some s' ->
  eink_view s' = eink_view s /\ (clock s <= clock s')%Q.
Proof.
  unfold encoder_button. cbv zeta.
  destruct (register_press_outside t s) as (Hr & Hrc & _).
  apply outside_window_fields in Hr. destruct Hr as (_ & Hre & _).
  destruct (_ && _); [|intros H; injection H as <-; split; [reflexivity|lra]].
  destruct (_ =? 1);
    [|intros H; injection H as <-; split; [exact Hre|rewrite Hrc; lra]].
  destruct (collect_presses _ _ _) as [[s2 t']|] eqn:E; [|discriminate].
  intros H. injection H as <-.
  destruct (process_presses_outside env s2) as (_ & Hk & _ & _ & He & _).
  cbv zeta in Hk, He.
  destruct (collect_presses_never_early _ _ _ _ _ E) as (_ & _ & Hmono);
    [lra|].
  apply collect_presses_outside, outside_window_fields in E.
  destruct E as (_ & Hwe & _).
  split; [congruence|]. rewrite Hk. rewrite Hrc in Hmono. exact Hmono.
Qed.

Lemma check_encoder_schedule (env : Env) (s s' : State) :
  check_encoder env s = Some s' ->
  eink_view s' = eink_view s /\ (clock s <= clock s')%Q.
Proof.
  unfold check_encoder. cbv zeta.
  destruct (outside_rotation_fields _ _
              (encoder_rotation_outside_rotation env s))
    as (_ & _ & Hc & _ & He & _).
  destruct (encoder_button env (clock s) (encoder_rotation env s))
    as [s1|] eqn:E; [|discriminate].
  intros H. injection H as <-.
  apply encoder_button_schedule in E. destruct E as [E1 E2].
  change (eink_view (set_last_sw ?a (set_last_b ?b (set_last_a ?c ?x))))
    with (eink_view x).
  change (clock (set_last_sw ?a (set_last_b ?b (set_last_a ?c ?x))))
    with (clock x).
  split; [congruence|]. rewrite <- Hc. exact E2.
Qed.

(** The e-ink step of an iteration, from the state [b] it finds. *)
Lemma eink_step (env : Env) (t : Q) (b : State) :
  let e := if Qle_bool 210 (t - last_eink_update b)
           then set_last_eink_update t
                  (eink_update env "/tmp/current_cover.jpg" b)
           else b in
  (clock b <= clock (sleep 0.01 e))%Q /\
  ((eink_updates (sleep 0.01 e) = eink_updates b /\
    last_eink_update (sleep 0.01 e) = last_eink_update b) \/
   (eink_updates (sleep 0.01 e)
      = eink_updates b ++ ["/tmp/current_cover.jpg"%string] /\
    last_eink_update (sleep 0.01 e) = t /\
    (210 <= t - last_eink_update b)%Q)).
Proof.
  cbv zeta. destruct (Qle_bool 210 _) eqn:E.
  - apply Qle_bool_iff in E. unfold eink_update. cbv zeta.
    split.
    + destruct (eink_ok env); simpl; lra.
    + right. split; [|split; [reflexivity|exact E]].
      unfold eink_updates.
      change (log (sleep 0.01 (set_last_eink_update t ?x))) with (log x).
      destruct (eink_ok env).
      * change (log (sleep 2 ?x)) with (log x).
        rewrite pick_emit. reflexivity.
      * rewrite pick_emit. reflexivity.
  - split; [simpl; lra|]. left. split; reflexivity.
Qed.

Lemma main_iteration_schedule (env : Env) (s s' : State) :
  main_iteration env s = Some s' ->
  (last_eink_update s <= clock s)%Q ->
  (last_eink_update s' <= clock s')%Q /\
  ((eink_updates s' = eink_updates s /\
    last_eink_update s' = last_eink_update s) \/
   (eink_updates s' = eink_updates s ++ ["/tmp/current_cover.jpg"%string] /\
    (210 <= last_eink_update s' - last_eink_update s)%Q)).
Proof.
  intros H Hle. unfold main_iteration in H.
  destruct (check_encoder env s) as [c|] eqn:E; [|discriminate].
  apply check_encoder_schedule in E. destruct E as [He Hc].
  unfold eink_view in He. injection He as He1 He2.
  cbv zeta in H.
  set (a := if playing c && negb (busy_at_poll env)
            then skip_track env true (emit PrintAutoAdvance c) else c) in H.
  assert (Ha : same_on schedule c a) by (subst a; peel_all schedule_step).
  clearbody a.
  set (b := if Qle_bool 0.1 (clock a - last_display_update a)
            then set_last_display_update (clock a) (display_update env a)
            else a) in H.
  assert (Hb : same_on schedule a b) by (subst b; peel_all schedule_step).
  clearbody b.
  apply schedule_fields in Ha, Hb.
  destruct Ha as (A1 & A2 & A3). destruct Hb as (B1 & B2 & B3).
  destruct (eink_step env (clock a) b) as (Hmono & Hcase).
  cbv zeta in Hmono, Hcase.
  injection H as H. rewrite H in Hmono, Hcase. clear H.
  assert (Hl : last_eink_update b = last_eink_update s) by congruence.
  assert (Hu : eink_updates b = eink_updates s) by congruence.
  assert (Hk : clock a = clock b) by congruence.
  assert (Hcb : (clock s <= clock b)%Q) by (rewrite B3, A3; exact Hc).
  rewrite Hl, Hu in Hcase.
  destruct Hcase as [(C1 & C2)|(C1 & C2 & C3)].
  - split; [rewrite C2; lra|]. left. split; assumption.
  - split; [rewrite C2, Hk; exact Hmono|]. right.
    split; [exact C1|]. rewrite C2. exact C3.
Qed.

(** X15. The e-ink panel is refreshed at most once per 210 seconds of the
    program's clock.  Along any run of the main loop that starts with the
    time of the last refresh not in the future, the refreshes made are
    all of the cover file, and 210 seconds times their number fits in the
    time between the refresh times recorded at both ends; the recorded
    time never runs ahead of the clock. *)
Theorem eink_rate_limited (envs : list Env) :
  forall s s' : State,
    main_loop envs s = Some s' ->
    (last_eink_update s <= clock s)%Q ->
    exists fresh : list string,
      eink_updates s' = eink_updates s ++ fresh /\
      Forall (fun path => path = "/tmp/current_cover.jpg"%string) fresh /\
      (210 * inject_Z (Z.of_nat (List.length fresh))
         <= last_eink_update s' - last_eink_update s)%Q /\
      (last_eink_update s' <= clock s')%Q.
Proof.
  induction envs as [|env envs IH]; intros s s' H Hle; simpl in H.
  - injection H as <-. exists []. rewrite app_nil_r.
    split; [reflexivity|]. split; [constructor|].
    cbn [List.length]. change (inject_Z (Z.of_nat 0)) with 0%Q.
    split; [lra|exact Hle].
  - destruct (main_iteration env s) as [s1|] eqn:E; [|discriminate].
    destruct (main_iteration_schedule env s s1 E Hle) as (Hle1 & Hcase).
    destruct (IH s1 s' H Hle1) as (fresh & Hf & Hall & Hrate & Hend).
    destruct Hcase as [(C1 & C2)|(C1 & C2)].
    + exists fresh. rewrite Hf, C1. split; [reflexivity|].
      split; [exact Hall|]. split; [rewrite <- C2; exact Hrate|exact Hend].
    + exists ("/tmp/current_cover.jpg"%string :: fresh).
      rewrite Hf, C1, <- app_assoc. split; [reflexivity|].
      split; [constructor; [reflexivity|exact Hall]|].
      split; [|exact Hend].
      cbn [List.length]. rewrite Nat2Z.inj_succ. unfold Z.succ.
      rewrite inject_Z_plus. change (inject_Z 1) with 1%Q.
      revert Hrate. generalize (inject_Z (Z.of_nat (List.length fresh))).
      intros q Hrate. lra.
Qed.

Lemma eink_rate_limited_witness :
  exists s',
    main_loop [quiet_env] late_state = Some s' /\
    eink_updates s' = ["/tmp/current_cover.jpg"%string] /\
    (210 <= last_eink_update s' - last_eink_update late_state)%Q.
Proof.
  destruct (main_loop [quiet_env] late_state) as [s'|] eqn:E.
  - exists s'. split; [reflexivity|].
    destruct (eink_rate_limited [quiet_env] late_state s' E)
      as (fresh & Hf & _ & Hrate & _).
    + vm_compute. discriminate.
    + assert (Hu : eink_updates s' = ["/tmp/current_cover.jpg"%string]).
      { vm_compute in E. injection E as <-. reflexivity. }
      split; [exact Hu|].
      rewrite Hu in Hf. change (eink_updates late_state) with (@nil string) in Hf.
      cbn [app] in Hf. subst fresh.
      cbn [List.length] in Hrate.
      change (inject_Z (Z.of_nat 1)) with 1%Q in Hrate.
      rewrite Qmult_1_r in Hrate. exact Hrate.
  - vm_compute in E. discriminate.
Defined.

(** ** The title on the display *)

Lemma render_title_exact (env : Env) (track : string) (s : State) :
  match render_title env track s with
  | Some (title, s') =>
      scroll_position s' =
        advance_scroll env track (clock s - last_scroll_time s)
          (scroll_position s) /\
      last_scroll_time s' =
        (if scroll_advances env track (clock s - last_scroll_time s)
         then clock s else last_scroll_time s) /\
      title = title_at env track (scroll_position s')
  | None =>
      Qltb (inject_Z (OLED_WIDTH - 30)) (textlength env track) = true /\
      len track = 0
  end.
Proof.
  unfold render_title, advance_scroll, scroll_advances, title_at.
  destruct (Qltb _ (textlength env track)); cbn [andb].
  - destruct (Z.eqb_spec (len track) 0) as [E|E]; [split; auto|].
    cbv zeta. cbn [negb andb].
    destruct (Qltb 0.3 _); repeat split; reflexivity.
  - repeat split.
Qed.

Lemma count_update_scroll_view (s : State) :
  same_on scroll_view s (count_update s).
Proof.
  unfold count_update. cbv zeta. destruct (_ =? 0); reflexivity.
Qed.

Lemma sample_battery_scroll_view (env : Env) (s : State) :
  same_on scroll_view s (snd (sample_battery env s)).
Proof.
  unfold sample_battery, read_battery.
  destruct (Qltb _ _); [|apply same_on_refl].
  destruct (read_word_data env I2C_ADDR REG_VOLTAGE);
    [destruct (read_word_data env I2C_ADDR REG_CAPACITY)|]; reflexivity.
Qed.

(** The frame and the scroll state that [draw_frame] leaves. *)
Lemma draw_frame_title (env : Env) (percent : Q) (s : State) :
  let s' := draw_frame env percent s in
  let track := song_at s in
  scroll_position s' =
    advance_scroll env track (clock s - last_scroll_time s)
      (scroll_position s) /\
  last_scroll_time s' =
    (if scroll_advances env track (clock s - last_scroll_time s)
     then clock s else last_scroll_time s) /\
  (oled_ok env = true -> len track <> 0 ->
   frames s' = frames s ++
     [mkFrame (title_at env track (scroll_position s')) percent (playing s)
        (py_int (current_volume s * 100))]).
Proof.
  cbv zeta. unfold draw_frame. cbv zeta.
  pose proof (render_title_exact env (song_at s) s) as H.
  destruct (render_title env (song_at s) s) as [[title s1]|] eqn:E.
  - destruct H as (Hp & Hl & Ht).
    apply render_title_drawn, drawn_fields in E.
    destruct E as (Hf & _ & _ & _ & Hpl & Hv & _).
    destruct (oled_ok env).
    + rewrite refresh_art_scroll.
      change (scroll_position (emit ?e s1)) with (scroll_position s1).
      split; [exact Hp|]. split.
      * unfold refresh_art. destruct (Qltb 5 _); exact Hl.
      * intros _ _.
        destruct (refresh_art_output
                    (mkFrame title percent (playing s1)
                       (py_int (current_volume s1 * 100))) s1) as (H1 & _).
        cbv zeta in H1. rewrite H1, Hf, Hpl, Hv, Ht. reflexivity.
    + change (scroll_position (emit ?e s1)) with (scroll_position s1).
      change (last_scroll_time (emit ?e s1)) with (last_scroll_time s1).
      split; [exact Hp|]. split; [exact Hl|]. discriminate.
  - destruct H as (Hw & Hlen).
    change (scroll_position (emit ?e s)) with (scroll_position s).
    change (last_scroll_time (emit ?e s)) with (last_scroll_time s).
    unfold advance_scroll, scroll_advances.
    rewrite Hw, Hlen. cbn [Z.eqb negb andb].
    split; [reflexivity|]. split; [reflexivity|].
    intros _ H. now contradiction H.
Qed.

(** The frame and the scroll state that a refresh leaves: the position
    advances by one character when the title scrolls and more than 0.3
    seconds have passed since the last advance, and the title shown is the
    one at the position so reached. *)
Lemma display_update_title (env : Env) (s : State) :
  let s' := display_update env s in
  let track := song_at s in
  scroll_position s' =
    advance_scroll env track (clock s - last_scroll_time s)
      (scroll_position s) /\
  last_scroll_time s' =
    (if scroll_advances env track (clock s - last_scroll_time s)
     then clock s else last_scroll_time s) /\
  (oled_ok env = true -> len track <> 0 ->
   exists percent,
     frames s' = frames s ++
       [mkFrame (title_at env track (scroll_position s')) percent (playing s)
          (py_int (current_volume s * 100))]) /\
  (oled_ok env = false -> frames s' = frames s).
Proof.
  cbv zeta.
  assert (Hfail : oled_ok env = false ->
                  frames (display_update env s) = frames s).
  { intros Ho. destruct (display_update_output env s) as (_ & H).
    cbv zeta in H. destruct H as [(H & _)|(H & _)]; [exact H|congruence]. }
  unfold display_update in *. cbv zeta in *.
  destruct (drawn_fields _ _ (count_update_drawn s))
    as (Hf1 & _ & _ & _ & Hpl1 & Hv1 & Hc1 & Hs1).
  pose proof (count_update_scroll_view s) as Hsv1.
  rewrite Hs1 in *. revert Hfail Hf1 Hpl1 Hv1 Hc1 Hs1 Hsv1.
  generalize (count_update s). intros s1 Hfail Hf1 Hpl1 Hv1 Hc1 Hs1 Hsv1.
  set (s2 := set_current_song_path (Some (path_join MUSIC_DIR (song_at s))) s1)
    in *.
  destruct (drawn_fields _ _ (sample_battery_drawn env s2))
    as (Hf3 & _ & _ & _ & Hpl3 & Hv3 & Hc3 & Hs3).
  pose proof (sample_battery_scroll_view env s2) as Hsv3.
  destruct (sample_battery env s2) as [percent s3].
  cbn [snd] in Hf3, Hpl3, Hv3, Hc3, Hs3, Hsv3.
  assert (Hf : frames s3 = frames s) by (rewrite Hf3; exact Hf1).
  assert (Hpl : playing s3 = playing s) by (rewrite Hpl3; exact Hpl1).
  assert (Hv : current_volume s3 = current_volume s)
    by (rewrite Hv3; exact Hv1).
  assert (Hc : clock s3 = clock s) by (rewrite Hc3; exact Hc1).
  assert (Hs : song_at s3 = song_at s) by (rewrite Hs3; exact Hs1).
  assert (Hsv : scroll_view s3 = scroll_view s).
  { unfold same_on in Hsv1, Hsv3. rewrite Hsv3. exact Hsv1. }
  unfold scroll_view in Hsv. injection Hsv as Hp Hl.
  clear Hf3 Hpl3 Hv3 Hc3 Hs3 Hsv3 Hf1 Hpl1 Hv1 Hc1 Hs1 Hsv1.
  clearbody s2. clear s2 s1.
  destruct (draw_frame_title env percent s3) as (H1 & H2 & H3).
  cbv zeta in H1, H2, H3.
  rewrite Hs, Hc, Hl, Hp in H1. rewrite Hs, Hc, Hl in H2.
  rewrite Hs, Hf, Hpl, Hv in H3.
  split; [exact H1|]. split; [exact H2|]. split; [|exact Hfail].
  intros Ho Hlen. exists percent. exact (H3 Ho Hlen).
Qed.

(** C6. Scroll rendering.  For a selected track name of length [L] whose
    text width exceeds the display width less the battery area, and a
    scroll position in [[0, L)], a refresh first advances the position by
    1 modulo [L] if more than 0.3 seconds have passed since it last
    advanced (recording the time of the advance), and leaves it
    otherwise; the title of the frame it hands to the display is then the
    15 characters [name[(p + i) mod L]], [i = 0..14], at the position [p]
    so reached.  When the display fails no frame is shown. *)
Theorem scroll_rendering (env : Env) (s : State) :
  let track := song_at s in
  let L := len track in
  let s' := display_update env s in
  let p := scroll_position s' in
  (inject_Z (OLED_WIDTH - 30) < textlength env track)%Q ->
  0 <= scroll_position s < L ->
  0 <= p < L /\
  ((0.3 < clock s - last_scroll_time s)%Q ->
   p = (scroll_position s + 1) mod L /\ last_scroll_time s' = clock s) /\
  ((clock s - last_scroll_time s <= 0.3)%Q ->
   p = scroll_position s /\ last_scroll_time s' = last_scroll_time s) /\
  (oled_ok env = true ->
   exists f : Frame,
     frames s' = frames s ++ [f] /\
     String.length (frame_title f) = 15%nat /\
     forall i : nat, (i < 15)%nat ->
       String.get i (frame_title f) =
       String.get (Z.to_nat ((p + Z.of_nat i) mod L)) track) /\
  (oled_ok env = false -> frames s' = frames s).
Proof.
  cbv zeta. intros Hwide Hpos. apply Qltb_true in Hwide.
  assert (HL : 0 < len (song_at s)) by lia.
  assert (HL0 : len (song_at s) <> 0) by lia.
  destruct (display_update_title env s) as (Hp & Hl & Hf & Hfail).
  cbv zeta in Hp, Hl, Hf.
  unfold advance_scroll in Hp. unfold scroll_advances in Hp, Hl.
  rewrite Hwide in Hp, Hl.
  replace (len (song_at s) =? 0) with false in Hp, Hl
    by (symmetry; apply Z.eqb_neq; exact HL0).
  cbn [negb andb] in Hp, Hl.
  assert (Hrange : 0 <= scroll_position (display_update env s)
                   < len (song_at s)).
  { rewrite Hp. destruct (Qltb 0.3 _); [apply mod_range, HL|exact Hpos]. }
  split; [exact Hrange|]. split; [|split; [|split; [|exact Hfail]]].
  - intros Hdue. apply Qltb_true in Hdue. rewrite Hdue in Hp, Hl.
    split; assumption.
  - intros Hnot. apply Qltb_false in Hnot. rewrite Hnot in Hp, Hl.
    split; assumption.
  - intros Ho. destruct (Hf Ho HL0) as (percent & Hframe).
    eexists. split; [exact Hframe|]. cbn [frame_title].
    unfold title_at. rewrite Hwide.
    exact (scroll_text_spec (song_at s)
             (scroll_position (display_update env s)) HL).
Qed.

Lemma scroll_rendering_witness :
  scroll_position (display_update quiet_env scrolled_state) = 20 /\
  exists f : Frame,
    frames (display_update quiet_env scrolled_state)
      = frames scrolled_state ++ [f] /\
    String.get 2 (frame_title f) = String.get 22 (song_at scrolled_state).
Proof.
  destruct (scroll_rendering quiet_env scrolled_state)
    as (_ & Hadv & _ & Hshow & _).
  - vm_compute. reflexivity.
  - vm_compute. split; [discriminate | reflexivity].
  - destruct Hadv as [Hp _]; [vm_compute; reflexivity|].
    split; [rewrite Hp; reflexivity|].
    destruct (Hshow eq_refl) as (f & Hf & _ & Hget).
    exists f. split; [exact Hf|].
    rewrite (Hget 2%nat) by lia. rewrite Hp. reflexivity.
Defined.

(** ** Skipping, to the end of the call *)

Lemma skip_select_exact (forward : bool) (s : State) :
  songs s <> [] ->
  skip_select forward s =
  Some (set_selected
          ((if forward then selected s + 1 else selected s - 1)
             mod Z.of_nat (List.length (songs s)))
          (set_scroll_position 0 s)).
Proof.
  intros Hne. unfold skip_select. cbv zeta.
  change (songs (set_scroll_position 0 s)) with (songs s).
  change (selected (set_scroll_position 0 s)) with (selected s).
  replace (Z.of_nat (List.length (songs s)) =? 0) with false.
  - destruct forward; reflexivity.
  - symmetry. apply Z.eqb_neq. destruct (songs s); [congruence|simpl; lia].
Qed.

(** The scroll position when [skip_track] returns: the 0 it assigned,
    moved on by the refresh it makes unless loading failed. *)
Lemma skip_track_scroll_exact (env : Env) (forward : bool) (s : State) :
  songs s <> [] ->
  let s' := skip_track env forward s in
  scroll_position s' =
    (if playing s && negb (load_ok env) then 0
     else advance_scroll env (song_at s') (clock s - last_scroll_time s) 0).
Proof.
  intros Hne. cbv zeta.
  assert (Hsong : song_at (skip_track env forward s) =
                  nth (Z.to_nat ((if forward then selected s + 1
                                  else selected s - 1)
                                   mod Z.of_nat (List.length (songs s))))
                    (songs s) EmptyString).
  { destruct (skip_track_selected env forward s Hne) as (H1 & H2 & _).
    cbv zeta in H1, H2. unfold song_at. now rewrite H1, H2. }
  rewrite Hsong. clear Hsong.
  unfold skip_track. cbv zeta.
  rewrite (skip_select_exact forward (emit (PrintSkipCalled forward) s) Hne).
  change (selected (emit ?e s)) with (selected s).
  change (songs (emit ?e s)) with (songs s).
  set (target := (if forward then selected s + 1 else selected s - 1)
                 mod Z.of_nat (List.length (songs s))).
  change (playing (set_selected ?v (set_scroll_position ?p (emit ?e s))))
    with (playing s).
  destruct (playing s); [destruct (load_ok env)|]; cbn [andb negb].
  - rewrite scroll_position_emit.
    match goal with
    | |- context [display_update env ?X] =>
        destruct (display_update_title env X) as (H & _)
    end.
    cbv zeta in H. rewrite H. reflexivity.
  - reflexivity.
  - rewrite scroll_position_emit.
    match goal with
    | |- context [display_update env ?X] =>
        destruct (display_update_title env X) as (H & _)
    end.
    cbv zeta in H. rewrite H. reflexivity.
Qed.

(** C5, as the code has it.  Skipping on a non-empty catalog of length
    [n] moves the selected index by one modulo [n]: forward from [n - 1]
    gives 0 and backward from 0 gives [n - 1], and the index stays in
    [[0, n)], also along the loop started by [main].  The selection block
    assigns 0 to the scroll position; but the call refreshes the display
    before it returns (unless loading the track failed), and that refresh
    advances the position under its own rule: when the newly selected
    title scrolls and more than 0.3 seconds have passed since the last
    advance, the call returns with the position at 1 modulo the title
    length, and with 0 otherwise. *)
Theorem skip_wraps (env : Env) (forward : bool) (s : State) :
  songs s <> [] ->
  let n := Z.of_nat (List.length (songs s)) in
  let s' := skip_track env forward s in
  (exists s1,
     skip_select forward s = Some s1 /\
     scroll_position s1 = 0 /\
     selected s1 = (if forward then selected s + 1 else selected s - 1) mod n) /\
  selected s' = (if forward then selected s + 1 else selected s - 1) mod n /\
  0 <= selected s' < n /\
  (forward = true -> selected s = n - 1 -> selected s' = 0) /\
  (forward = false -> selected s = 0 -> selected s' = n - 1) /\
  scroll_position s' =
    (if playing s && negb (load_ok env) then 0
     else if scroll_advances env (song_at s') (clock s - last_scroll_time s)
          then 1 mod len (song_at s') else 0) /\
  (forall (envs : list Env) (a b sw : Z) (now : Q) (final : State),
     main_loop envs (main_init env (initial_state (songs s) a b sw now))
       = Some final ->
     songs final = songs s /\ 0 <= selected final < n).
Proof.
  intros Hne n s'.
  assert (Hn : 0 < n).
  { subst n. destruct (songs s); [congruence|simpl; lia]. }
  destruct (skip_select_spec forward s Hne)
    as (s1 & Hs1 & Hsel1 & Hscroll1 & _).
  destruct (skip_track_selected env forward s Hne) as (Hsel & _).
  fold n in Hsel1, Hsel. fold s' in Hsel.
  split; [exists s1; auto|].
  split; [exact Hsel|].
  split; [rewrite Hsel; apply mod_range, Hn|].
  split; [|split; [|split]].
  - intros -> Hlast. rewrite Hsel, Hlast.
    replace (n - 1 + 1) with n by lia. apply Z.mod_same. lia.
  - intros -> Hfirst. rewrite Hsel, Hfirst.
    replace (0 - 1) with (n - 1 + (-1) * n) by lia.
    rewrite Z.mod_add by lia. apply Z.mod_small. lia.
  - subst s'. rewrite (skip_track_scroll_exact env forward s Hne).
    unfold advance_scroll. reflexivity.
  - intros envs a b sw now final Hrun.
    pose proof (main_init_well_formed env (songs s) a b sw now Hne) as H0.
    destruct (main_loop_well_formed _ _ _ _ H0 Hrun) as (Hc & Hr & _).
    split; assumption.
Qed.

Lemma skip_wraps_witness :
  selected (skip_track quiet_env true (set_selected 1 idle_state)) = 0 /\
  selected (skip_track quiet_env false idle_state) = 1 /\
  scroll_position (skip_track no_load_env false playing_state) = 0 /\
  exists final,
    main_loop example_run (main_init quiet_env idle_state) = Some final /\
    0 <= selected final < 2.
Proof.
  destruct (skip_wraps quiet_env true (set_selected 1 idle_state))
    as (_ & _ & _ & Hf & _); [discriminate|].
  destruct (skip_wraps quiet_env false idle_state)
    as (_ & _ & _ & _ & Hb & _ & Hloop); [discriminate|].
  destruct (skip_wraps no_load_env false playing_state)
    as (_ & _ & _ & _ & _ & Hscroll & _); [discriminate|].
  split; [apply Hf; reflexivity|]. split; [apply Hb; reflexivity|].
  split; [exact Hscroll|].
  destruct (main_loop_returns example_run example_run_quiet
              (main_init quiet_env idle_state)) as (final & Hrun).
  exists final. split; [exact Hrun|].
  apply (Hloop example_run 1 1 1 1000%Q final Hrun).
Defined.

(** C5, as stated, fails for the scroll position.  On the idle player a
    skip backward selects the long-titled second track, and the refresh
    inside the call has advanced the scroll position to 1 when the call
    returns: the title is first drawn from its second character. *)
Lemma skip_leaves_scroll_at_one :
  songs idle_state <> [] /\
  selected (skip_track quiet_env false idle_state) = 1 /\
  scroll_position (skip_track quiet_env false idle_state) = 1 /\
  scroll_position (skip_track quiet_env false idle_state) <> 0 /\
  map frame_title (frames (skip_track quiet_env false idle_state))
    = ["ongTrackTitleNa"%string].
Proof.
  split; [discriminate|].
  split; [vm_compute; reflexivity|].
  split; [vm_compute; reflexivity|].
  split; [vm_compute; discriminate|].
  vm_compute. reflexivity.
Qed.

(** ** A recognized step, to the end of the tick *)

Lemma record_state_inputs (a b : Z) (s : State) :
  same_on rotation_inputs s (record_state a b s).
Proof.
  unfold record_state. cbv zeta. destruct (2 <? _); reflexivity.
Qed.

Lemma rotation_inputs_fields (s s' : State) :
  same_on rotation_inputs s s' ->
  playing s' = playing s /\ selected s' = selected s /\
  songs s' = songs s /\ scroll_position s' = scroll_position s /\
  last_scroll_time s' = last_scroll_time s /\ clock s' = clock s /\
  current_volume s' = current_volume s /\ mixer_volume s' = mixer_volume s.
Proof.
  unfold same_on, rotation_inputs. intros H.
  injection H as H1 H2 H3 H4 H5 H6 H7 H8. repeat split; assumption.
Qed.

(** A refresh after a dispatch: what it keeps and where it leaves the
    scroll position. *)
Lemma display_update_after (env : Env) (c : State) :
  let d := display_update env c in
  playing d = playing c /\ selected d = selected c /\ songs d = songs c /\
  current_volume d = current_volume c /\ mixer_volume d = mixer_volume c /\
  steps d = steps c /\
  scroll_position d =
    advance_scroll env (song_at c) (clock c - last_scroll_time c)
      (scroll_position c).
Proof.
  cbv zeta.
  destruct (display_update_frame env c)
    as (Hsel&Hpl&Hso&_&_&_&Hv&Hm&_&_&_&_&_&_&_&Hst&_).
  destruct (display_update_title env c) as (Hp & _).
  repeat split; assumption.
Qed.

(** The state in which a recognized step is dispatched, and the state the
    tick ends in. *)
Lemma recognized_step (env : Env) (clockwise : bool) (s : State) :
  gpio_a env <> last_a s \/ gpio_b env <> last_b s ->
  last_states (record_state (gpio_a env) (gpio_b env) s)
    = [(1, 1); if clockwise then (1, 0) else (0, 1)] ->
  exists e : State,
    same_on rotation_inputs s e /\
    steps e = steps s ++ [step_for clockwise] /\
    encoder_rotation env s =
      set_last_states [if clockwise then (1, 0) else (0, 1)]
        (display_update env
           (if clockwise then dispatch_clockwise e
            else dispatch_counter_clockwise e)).
Proof.
  intros Hch Hh. apply changed_iff in Hch.
  unfold encoder_rotation. cbv zeta. rewrite Hch.
  pose proof (record_state_inputs (gpio_a env) (gpio_b env) s) as Hr.
  assert (Hst : steps (record_state (gpio_a env) (gpio_b env) s) = steps s).
  { unfold record_state. cbv zeta. destruct (2 <? _); reflexivity. }
  revert Hh Hr Hst. generalize (record_state (gpio_a env) (gpio_b env) s).
  intros r Hh Hr Hst. destruct clockwise.
  - rewrite (decode_clockwise env r Hh). cbv zeta.
    eexists. split; [|split; [|reflexivity]].
    + apply (same_on_trans _ s r _ Hr). reflexivity.
    + rewrite steps_emit. cbn [step_of step_for].
      change (steps (set_encoder_count ?v r)) with (steps r).
      now rewrite Hst.
  - rewrite (decode_counter_clockwise env r Hh). cbv zeta.
    eexists. split; [|split; [|reflexivity]].
    + apply (same_on_trans _ s r _ Hr). reflexivity.
    + rewrite steps_emit. cbn [step_of step_for].
      change (steps (set_encoder_count ?v r)) with (steps r).
      now rewrite Hst.
Qed.

(** C10, as the code has it.  On a tick that recognizes a step, exactly
    one marker is printed and the playing flag is kept.  While playing,
    the step changes the volume by 0.01 (clamped) and hands half of it to
    the mixer, and leaves the selected index as it was; while not
    playing, it moves the selected index by one modulo the catalog
    length, assigns 0 to the scroll position and leaves the volume and
    what the mixer holds as they were.  No step changes both the volume
    and the selection.  The scroll position does not stay where the
    dispatch leaves it: the refresh that ends the step advances it by one
    character, modulo the length of the title then selected, when that
    title scrolls and more than 0.3 seconds have passed since the last
    advance; from its old value while playing, from 0 while not
    playing. *)
Theorem rotation_dispatch_split (env : Env) (clockwise : bool) (s : State) :
  let n := Z.of_nat (List.length (songs s)) in
  let s' := encoder_rotation env s in
  let elapsed := (clock s - last_scroll_time s)%Q in
  gpio_a env <> last_a s \/ gpio_b env <> last_b s ->
  last_states (record_state (gpio_a env) (gpio_b env) s)
    = [(1, 1); if clockwise then (1, 0) else (0, 1)] ->
  steps s' = steps s ++ [step_for clockwise] /\
  playing s' = playing s /\
  (playing s = true ->
   current_volume s' =
     (if clockwise then py_min 1.0 (current_volume s + 0.01)
      else py_max 0.0 (current_volume s - 0.01)) /\
   mixer_volume s' = (current_volume s' / 2)%Q /\
   selected s' = selected s /\
   scroll_position s' =
     advance_scroll env (song_at s) elapsed (scroll_position s)) /\
  (playing s = false ->
   selected s' = (if clockwise then selected s + 1 else selected s - 1) mod n /\
   current_volume s' = current_volume s /\
   mixer_volume s' = mixer_volume s /\
   scroll_position s' = advance_scroll env (song_at s') elapsed 0) /\
  (current_volume s' = current_volume s \/ selected s' = selected s).
Proof.
  cbv zeta. intros Hch Hh.
  destruct (recognized_step env clockwise s Hch Hh) as (e & He & Hst & ->).
  apply rotation_inputs_fields in He.
  destruct He as (Epl & Esel & Eso & Esc & Els & Ecl & Ev & Em).
  assert (Hsong : song_at e = song_at s).
  { unfold song_at. now rewrite Esel, Eso. }
  set (c := if clockwise then dispatch_clockwise e
            else dispatch_counter_clockwise e).
  destruct (display_update_after env c) as (Dpl & Dsel & Dso & Dv & Dm & Dst & Dsc).
  cbv zeta in Dpl, Dsel, Dso, Dv, Dm, Dst, Dsc.
  assert (Hsong' : song_at (set_last_states
                              [if clockwise then (1, 0) else (0, 1)]
                              (display_update env c)) = song_at c).
  { unfold song_at.
    change (selected (set_last_states ?h ?x)) with (selected x).
    change (songs (set_last_states ?h ?x)) with (songs x).
    now rewrite Dsel, Dso. }
  rewrite Hsong'.
  change (steps (set_last_states ?h ?x)) with (steps x).
  change (playing (set_last_states ?h ?x)) with (playing x).
  change (current_volume (set_last_states ?h ?x)) with (current_volume x).
  change (mixer_volume (set_last_states ?h ?x)) with (mixer_volume x).
  change (selected (set_last_states ?h ?x)) with (selected x).
  change (scroll_position (set_last_states ?h ?x)) with (scroll_position x).
  rewrite Dpl, Dsel, Dv, Dm, Dst, Dsc. clear Dpl Dsel Dso Dv Dm Dst Dsc Hsong'.
  destruct (dispatch_history e) as [(_ & Hs1 & _) (_ & Hs2 & _)].
  assert (Hsteps : steps c = steps s ++ [step_for clockwise]).
  { subst c. destruct clockwise; [rewrite Hs1|rewrite Hs2]; exact Hst. }
  split; [exact Hsteps|]. clear Hsteps Hs1 Hs2 Hst.
  assert (Hkeep : playing c = playing e /\ songs c = songs e /\
                  clock c = clock e /\
                  last_scroll_time c = last_scroll_time e).
  { subst c. unfold dispatch_clockwise, dispatch_counter_clockwise.
    destruct (playing e) eqn:Eq, clockwise; cbv zeta; repeat split;
      try reflexivity; exact Eq. }
  destruct Hkeep as (Kpl & Kso & Kcl & Kls).
  rewrite Kpl, Kcl, Kls, Epl, Ecl, Els.
  split; [reflexivity|].
  destruct (playing s) eqn:Ep.
  - assert (Hc : selected c = selected e /\
                 scroll_position c = scroll_position e /\
                 current_volume c =
                   (if clockwise then py_min 1.0 (current_volume e + 0.01)
                    else py_max 0.0 (current_volume e - 0.01)) /\
                 mixer_volume c = (current_volume c / 2)%Q).
    { subst c. unfold dispatch_clockwise, dispatch_counter_clockwise.
      rewrite Epl. destruct clockwise; cbv zeta; repeat split; reflexivity. }
    destruct Hc as (X1 & X2 & X3 & X4).
    assert (Hsong1 : song_at c = song_at s).
    { unfold song_at. now rewrite X1, Kso, Esel, Eso. }
    rewrite X1, X2, X4, Hsong1, Esel, Esc.
    split; [|split; [discriminate|right; reflexivity]].
    intros _. rewrite X3, Ev. repeat split; reflexivity.
  - assert (Hc : selected c =
                   (if clockwise then selected e + 1 else selected e - 1)
                     mod Z.of_nat (List.length (songs e)) /\
                 scroll_position c = 0 /\
                 current_volume c = current_volume e /\
                 mixer_volume c = mixer_volume e).
    { subst c. unfold dispatch_clockwise, dispatch_counter_clockwise.
      rewrite Epl. destruct clockwise; cbv zeta; repeat split; reflexivity. }
    destruct Hc as (X1 & X2 & X3 & X4).
    rewrite X1, X2, X3, X4, Esel, Eso, Ev, Em.
    split; [discriminate|]. split; [|left; reflexivity].
    intros _. repeat split; reflexivity.
Qed.

Lemma rotation_dispatch_split_witness :
  selected (encoder_rotation turn_env turning_state) = 1 /\
  steps (encoder_rotation turn_env turning_state) = [StepClockwise].
Proof.
  destruct (rotation_dispatch_split turn_env true turning_state)
    as (Hsteps & _ & Hplay & _).
  - right. discriminate.
  - reflexivity.
  - destruct Hplay as (_ & _ & Hsel & _); [reflexivity|].
    split; [exact Hsel | exact Hsteps].
Defined.

(** C10, as stated, fails for the scroll position.  A clockwise step
    recognized while the long-titled track is playing leaves the
    selection alone but moves the scroll position from 3 to 4; and the
    same step on the paused player selects that track and ends with the
    scroll position at 1, not at the 0 it was reset to. *)
Lemma rotation_step_moves_scroll :
  (playing turning_state = true /\
   steps (encoder_rotation turn_env turning_state) = [StepClockwise] /\
   scroll_position turning_state = 3 /\
   scroll_position (encoder_rotation turn_env turning_state) = 4) /\
  (playing rested_state = false /\
   steps (encoder_rotation turn_env rested_state) = [StepClockwise] /\
   selected (encoder_rotation turn_env rested_state) = 1 /\
   scroll_position (encoder_rotation turn_env rested_state) = 1).
Proof.
  split; repeat split; vm_compute; reflexivity.
Qed.

(** ** A window that ends is acted on *)

Lemma register_press_opens (t : Q) (s : State) :
  press_count s = 0 \/ (1.5 < t - last_press_time s)%Q ->
  press_count (register_press t s) = 1.
Proof.
  intros H. unfold register_press. cbv zeta.
  destruct (Qltb 1.5 (t - last_press_time s)) eqn:E.
  - reflexivity.
  - apply Qltb_false in E. destruct H as [H|H]; [|lra].
    cbn [press_count set_press_count set_last_press_time]. lia.
Qed.

(** The button side of a tick that sees a press and opens a window. *)
Lemma encoder_button_window (env : Env) (t : Q) (s : State) :
  gpio_sw env = 0 -> last_sw s = 1 ->
  press_count s = 0 \/ (1.5 < t - last_press_time s)%Q ->
  encoder_button env t s =
  match collect_presses (gpio_sw_window env) (clock s) (register_press t s)
  with
  | Some (w, _) => Some (process_presses env w)
  | None => None
  end.
Proof.
  intros Hsw Hlast Hopen. unfold encoder_button. cbv zeta.
  rewrite Hsw, Hlast. cbn [Z.eqb Pos.eqb andb].
  destruct (register_press_outside t s) as (_ & Hc & _).
  rewrite (register_press_opens t s Hopen), Hc. reflexivity.
Qed.

Lemma outside_rotation_press (s s' : State) :
  same_on outside_rotation s s' ->
  last_sw s' = last_sw s /\ press_count s' = press_count s /\
  last_press_time s' = last_press_time s /\ clock s' = clock s /\
  dispatched s' = dispatched s /\ playing s' = playing s.
Proof.
  unfold same_on, outside_rotation. intros H.
  injection H as H1 H2 H3 H4 H5 H6 H7 H8 H9. repeat split; assumption.
Qed.

(** C2. Gesture classification.  On a tick that finds the button newly
    pressed and opens a collection window (no press pending, or the last
    one stale), let the window end with press count [n], the playing
    flag being [p].  Then the tick returns, having entered play/pause iff
    [n = 1], skip forward iff [n = 2] and [p], skip backward iff [n = 3]
    and [p], and nothing otherwise (so not for two or three presses while
    paused, and not for four or more); the press counter is 0
    afterwards. *)
Theorem gesture_classification (env : Env) (s w : State) (timer : Q) :
  gpio_sw env = 0 -> last_sw s = 1 ->
  press_count s = 0 \/ (1.5 < clock s - last_press_time s)%Q ->
  collect_presses (gpio_sw_window env) (clock s)
    (register_press (clock s) (encoder_rotation env s)) = Some (w, timer) ->
  let n := press_count w in
  let p := playing w in
  exists s',
    check_encoder env s = Some s' /\
    p = playing s /\
    (dispatched s' = dispatched s ++ [PlayPause] <-> n = 1) /\
    (dispatched s' = dispatched s ++ [SkipForward] <-> n = 2 /\ p = true) /\
    (dispatched s' = dispatched s ++ [SkipBackward] <-> n = 3 /\ p = true) /\
    (dispatched s' = dispatched s <->
     n <> 1 /\ ~ (n = 2 /\ p = true) /\ ~ (n = 3 /\ p = true)) /\
    (n = 2 \/ n = 3 -> p = false -> dispatched s' = dispatched s) /\
    (4 <= n -> dispatched s' = dispatched s) /\
    press_count s' = 0.
Proof.
  intros Hsw Hlast Hopen Hwin. cbv zeta.
  destruct (outside_rotation_press _ _
              (encoder_rotation_outside_rotation env s))
    as (Rsw & Rpc & Rlp & Rcl & Rd & Rpl).
  unfold check_encoder. cbv zeta.
  revert Hwin Rsw Rpc Rlp Rcl Rd Rpl. generalize (encoder_rotation env s).
  intros r Hwin Rsw Rpc Rlp Rcl Rd Rpl.
  rewrite (encoder_button_window env (clock s) r);
    [|exact Hsw|congruence|rewrite Rpc, Rlp; exact Hopen].
  rewrite Rcl, Hwin.
  eexists. split; [reflexivity|].
  change (dispatched (set_last_sw ?a (set_last_b ?b (set_last_a ?c ?x))))
    with (dispatched x).
  change (press_count (set_last_sw ?a (set_last_b ?b (set_last_a ?c ?x))))
    with (press_count x).
  destruct (register_press_outside (clock s) r) as (Hr & _).
  apply outside_window_fields in Hr.
  destruct Hr as (_ & _ & Hrd & _ & Hrpl & _).
  apply collect_presses_outside, outside_window_fields in Hwin.
  destruct Hwin as (_ & _ & Hwd & _ & Hwpl & _).
  assert (Hd : dispatched w = dispatched s) by congruence.
  assert (Hp : playing w = playing s) by congruence.
  split; [exact Hp|].
  pose proof (process_presses_classifies env w) as H. cbv zeta in H.
  rewrite Hd in H. exact H.
Qed.

Lemma gesture_classification_witness :
  exists s',
    check_encoder (press_env [1; 1; 1; 1]) idle_state = Some s' /\
    dispatched s' = dispatched idle_state ++ [PlayPause].
Proof.
  destruct (collect_presses (gpio_sw_window (press_env [1; 1; 1; 1]))
              (clock idle_state)
              (register_press (clock idle_state)
                 (encoder_rotation (press_env [1; 1; 1; 1]) idle_state)))
    as [[w timer]|] eqn:E.
  - destruct (gesture_classification (press_env [1; 1; 1; 1]) idle_state
                w timer) as (s' & Hs' & _ & Hplay & _);
      [reflexivity | reflexivity | left; reflexivity | exact E |].
    exists s'. split; [exact Hs'|]. apply Hplay.
    vm_compute in E. injection E as <- _. reflexivity.
  - vm_compute in E. discriminate.
Defined.
